(** * improve_definitions.py: batching, record decoding, retry and cleaning

    A shallow embedding of [src/improve_definitions.py], the properties
    its specification states about it (Part II) and further properties of
    the script, read off the code (Part III).

    Conventions.
    - A Python [str] is a sequence of Unicode code points: [str := list N].
      ASCII literals are written [U "..."]; [Uq] is [U] with every
      apostrophe turned into a double quote, for JSON text.
    - A Python [int] is a [Z].
    - A Python [dict] is an association list with Python's update rule (an
      existing key keeps its position and gets the new value, a new key is
      appended), so that key uniqueness is a property to prove.
    - A call that may raise returns a [result]. The steps of a run thread
      the world and the trace of requests through a small state monad whose
      [outcome] adds [OutOfFuel]: the [while] loop of the retries carries
      fuel, and running out of it is shown impossible.
    - What the script takes from outside the repository (the Unicode
      database behind the regex class \b, [json.loads], the HTTP endpoint,
      [time.sleep]) is the content of the class [Externals]: every theorem
      holds for every instance of it. *)

From Stdlib Require Import List NArith ZArith Lia Bool Floats.
From Stdlib Require String Ascii.
Import ListNotations String.StringSyntax.
Delimit Scope string_scope with string.

Set Implicit Arguments.
Set Warnings "-register-all".

(* ================================================================== *)
(** * Part I: the model                                               *)
(* ================================================================== *)

(** ** Strings *)

Definition char := N.
Definition str := list char.

Definition U (s : String.string) : str :=
  map Ascii.N_of_ascii (String.list_ascii_of_string s).
Arguments U s%_string.

Definition Uq (s : String.string) : str :=
  map (fun c => if N.eqb c 39 then 34%N else c) (U s).
Arguments Uq s%_string.

Fixpoint str_eqb (a b : str) : bool :=
  match a, b with
  | [], [] => true
  | x :: a', y :: b' => N.eqb x y && str_eqb a' b'
  | _, _ => false
  end.

Fixpoint starts_with (p s : str) : bool :=
  match p, s with
  | [], _ => true
  | x :: p', y :: s' => N.eqb x y && starts_with p' s'
  | _ :: _, [] => false
  end.

Fixpoint drop_while (f : char -> bool) (s : str) : str :=
  match s with
  | [] => []
  | c :: s' => if f c then drop_while f s' else s
  end.

(** [s.strip(chars)] for a character class [f]: both ends. *)
Definition strip_by (f : char -> bool) (s : str) : str :=
  rev (drop_while f (rev (drop_while f s))).

(** [Py_UNICODE_ISSPACE]: the class of [str.strip()], [str.isspace()] and of
    the regex escape \s on [str] patterns. *)
Definition isspace (c : char) : bool :=
  ((9 <=? c) && (c <=? 13) || (28 <=? c) && (c <=? 32)
   || (c =? 133) || (c =? 160) || (c =? 5760)
   || (8192 <=? c) && (c <=? 8202)
   || (c =? 8232) || (c =? 8233) || (c =? 8239) || (c =? 8287)
   || (c =? 12288))%N.

(** [s.strip()] *)
Definition strip (s : str) : str := strip_by isspace s.

(** [not s.strip()] *)
Definition is_blank (s : str) : bool :=
  match strip s with [] => true | _ => false end.

(** [sep.join(xs)] *)
Fixpoint join (sep : str) (xs : list str) : str :=
  match xs with
  | [] => []
  | [x] => x
  | x :: rest => x ++ sep ++ join sep rest
  end.

(** ** Exceptions and results *)

Inductive exn : Type :=
| ValueError
| TransportError
| ReadError.

(** What a call that ends gives: a value, or an exception. *)
Inductive result (A : Type) : Type :=
| Returns (a : A)
| Raises (e : exn).
Arguments Raises {A} e.

(** What a step of the run gives: the same, or [OutOfFuel] when a loop of
    the model ran out of the fuel it was given (shown below not to happen). *)
Inductive outcome (A : Type) : Type :=
| Ok (a : A)
| Raised (e : exn)
| OutOfFuel.
Arguments Raised {A} e.
Arguments OutOfFuel {A}.

Definition outcome_of {A} (r : result A) : outcome A :=
  match r with
  | Returns a => Ok a
  | Raises e => Raised e
  end.

(** ** Dictionaries *)

Definition dict (V : Type) := list (str * V).

Fixpoint dict_get {V} (m : dict V) (k : str) : option V :=
  match m with
  | [] => None
  | (k', v) :: m' => if str_eqb k k' then Some v else dict_get m' k
  end.

(** [m.get(k, default)] *)
Definition dict_get_default {V} (m : dict V) (k : str) (default : V) : V :=
  match dict_get m k with Some v => v | None => default end.

(** [m[k] = v] *)
Fixpoint dict_set {V} (m : dict V) (k : str) (v : V) : dict V :=
  match m with
  | [] => [(k, v)]
  | (k', v') :: m' =>
      if str_eqb k k' then (k', v) :: m' else (k', v') :: dict_set m' k v
  end.

(** [k in m] *)
Definition dict_mem {V} (m : dict V) (k : str) : bool :=
  match dict_get m k with Some _ => true | None => false end.

Definition dict_keys {V} (m : dict V) : list str := map fst m.

(** ** chunk_list (lines 96-97)

    [[xs[i:i+n] for i in range(0, len(xs), n)]] *)

Fixpoint range_up (fuel : nat) (i stop step : Z) : list Z :=
  match fuel with
  | O => []
  | S fuel' =>
      if (i <? stop)%Z then i :: range_up fuel' (i + step) stop step else []
  end.

Fixpoint range_down (fuel : nat) (i stop step : Z) : list Z :=
  match fuel with
  | O => []
  | S fuel' =>
      if (stop <? i)%Z then i :: range_down fuel' (i + step) stop step else []
  end.

(** [range(start, stop, step)]: a zero step raises [ValueError]. Every step
    moves [i] by at least one, so [|stop - start|] iterations are enough. *)
Definition py_range (start stop step : Z) : result (list Z) :=
  if (step =? 0)%Z then Raises ValueError
  else if (0 <? step)%Z
       then Returns (range_up (Z.to_nat (stop - start)) start stop step)
       else Returns (range_down (Z.to_nat (start - stop)) start stop step).

(** [xs[i:j]] for [0 <= i] and [0 <= j] (the only slices the script takes). *)
Definition py_slice {A} (xs : list A) (i j : Z) : list A :=
  firstn (Z.to_nat (j - i)) (skipn (Z.to_nat i) xs).

Definition chunk_list {A} (xs : list A) (n : Z) : result (list (list A)) :=
  match py_range 0 (Z.of_nat (length xs)) n with
  | Returns idx => Returns (map (fun i => py_slice xs i (i + n)) idx)
  | Raises e => Raises e
  end.

(** ** What the script uses from outside the repository *)

(** A decoded JSON value, as [json.loads] returns it: only the kind of the
    value matters to the script ([isinstance] tests), so a number is kept as
    its literal. An object is a Python [dict]. *)
Inductive json : Type :=
| JNull
| JBool (b : bool)
| JNumber (literal : str)
| JString (s : str)
| JArray (items : list json)
| JObject (members : list (str * json)).

Class Externals : Type := {
  (** [str.isalnum] of a code point from 128 up (the Unicode database) *)
  unicode_isalnum : char -> bool;
  (** [json.loads]; [None] when it raises *)
  json_loads : str -> option json;
  (** when [json.loads] raises on a text: whether what it raises is a
      [json.JSONDecodeError] (and not, say, the [ValueError] of an integer
      literal too long to convert, or a [RecursionError]) *)
  json_decode_error : str -> bool;
  (** the endpoint and the clock *)
  World : Type;
  (** [ollama_chat_stream_collect_content] (lines 99-148) with the url,
      model, system prompt, temperature and top_p of the run: the content
      accumulated for a user prompt, or the exception it lets through *)
  ollama_chat_stream_collect_content : World -> str -> World * result str;
  (** [time.sleep] *)
  time_sleep : World -> float -> World * result unit
}.

(** ** parse_ndjson_word_defs (lines 150-173) *)

(** The line boundaries of [str.splitlines]. *)
Definition is_linebreak (c : char) : bool :=
  ((10 <=? c) && (c <=? 13) || (28 <=? c) && (c <=? 30)
   || (c =? 133) || (c =? 8232) || (c =? 8233))%N.

(** [s.splitlines()]: [cur] is the line being read, in reverse; [after_cr]
    says the previous character was a carriage return, which a line feed
    then completes. *)
Fixpoint splitlines_from (after_cr : bool) (cur : str) (s : str) : list str :=
  match s with
  | [] => match cur with [] => [] | _ => [rev cur] end
  | c :: s' =>
      if is_linebreak c then
        if after_cr && (c =? 10)%N then splitlines_from false [] s'
        else rev cur :: splitlines_from (c =? 13)%N [] s'
      else splitlines_from false (c :: cur) s'
  end.

Definition splitlines (s : str) : list str := splitlines_from false [] s.

(** [[ln.strip() for ln in content.splitlines() if ln.strip()]] *)
Definition record_lines (content : str) : list str :=
  map strip (filter (fun ln => negb (is_blank ln)) (splitlines content)).

(** The f-string messages of the source, as data: the kind of the error, the
    1-based line number and, for undecodable text, [ln[:160]]. *)
Inductive parse_error : Type :=
| InvalidJSON (idx : Z) (text : str)
| NotAnObject (idx : Z)
| NotStrings (idx : Z).

Definition error_line (e : parse_error) : Z :=
  match e with InvalidJSON i _ | NotAnObject i | NotStrings i => i end.

Section Decoder.
Context `{Externals}.

(** The body of the [for idx, ln in enumerate(lines, start=1)] loop. *)
Fixpoint parse_lines (idx : Z) (lines : list str)
         (out : dict str) (errors : list parse_error)
  : dict str * list parse_error :=
  match lines with
  | [] => (out, errors)
  | ln :: more =>
      match json_loads ln with
      | None =>
          parse_lines (idx + 1) more out
                      (errors ++ [InvalidJSON idx (firstn 160 ln)])
      | Some (JObject obj) =>
          match dict_get obj (U "word"), dict_get obj (U "definition") with
          | Some (JString w), Some (JString d) =>
              parse_lines (idx + 1) more (dict_set out w d) errors
          | _, _ =>
              parse_lines (idx + 1) more out (errors ++ [NotStrings idx])
          end
      | Some _ =>
          parse_lines (idx + 1) more out (errors ++ [NotAnObject idx])
      end
  end.

Definition parse_ndjson_word_defs (content : str)
  : dict str * list parse_error :=
  parse_lines 1 (record_lines content) [] [].

End Decoder.

(** ** post_fix_definition (lines 175-211) *)

Definition is_ascii_alnum (c : char) : bool :=
  ((48 <=? c) && (c <=? 57) || (65 <=? c) && (c <=? 90)
   || (97 <=? c) && (c <=? 122))%N.

(** A lower-case ASCII letter [p] of a pattern compiled with
    [re.IGNORECASE] matches [c] when [c] lower-cases to it: the letter, its
    capital and, for s, the long s U+017F. (Of the letters of the pattern
    below none has another case variant.) *)
Definition matches_ignorecase (p c : char) : bool :=
  ((c =? p) || (c =? p - 32) || (p =? 115) && (c =? 383))%N.

Fixpoint starts_with_ignorecase (p s : str) : bool :=
  match p, s with
  | [], _ => true
  | x :: p', y :: s' => matches_ignorecase x y && starts_with_ignorecase p' s'
  | _ :: _, [] => false
  end.

Fixpoint take_while (f : char -> bool) (s : str) : str :=
  match s with
  | [] => []
  | c :: s' => if f c then c :: take_while f s' else []
  end.

(** [s.replace(old, new)] for a non-empty [old]: occurrences are taken from
    the left and do not overlap; [skip] counts the characters of the
    occurrence just replaced that are still to pass. *)
Fixpoint replace_from (old new : str) (skip : nat) (s : str) : str :=
  match s with
  | [] => []
  | c :: s' =>
      match skip with
      | S k => replace_from old new k s'
      | O =>
          if starts_with old s
          then new ++ replace_from old new (length old - 1) s'
          else c :: replace_from old new 0 s'
      end
  end.

Definition str_replace (s old new : str) : str := replace_from old new 0 s.

(** [re.sub(r"\([^)]*\)", "", s)]: from an opening parenthesis through the
    next closing one. [held] is the text read since an opening parenthesis
    that has not met its closing one yet; it is dropped when that one comes
    and kept when the string ends first. *)
Fixpoint sub_parens (held : option str) (s : str) : str :=
  match s with
  | [] => match held with Some h => h | None => [] end
  | c :: s' =>
      match held with
      | None =>
          if (c =? 40)%N then sub_parens (Some [c]) s'
          else c :: sub_parens None s'
      | Some h =>
          if (c =? 41)%N then sub_parens None s'
          else sub_parens (Some (h ++ [c])) s'
      end
  end.

(** [re.sub(r"\s+", " ", s)]: every maximal run of whitespace becomes one
    space; [in_run] says the previous character was whitespace. *)
Fixpoint sub_spaces (in_run : bool) (s : str) : str :=
  match s with
  | [] => []
  | c :: s' =>
      if isspace c
      then if in_run then sub_spaces true s' else 32%N :: sub_spaces true s'
      else c :: sub_spaces false s'
  end.

Definition is_punct (c : char) : bool :=
  ((c =? 44) || (c =? 59) || (c =? 58) || (c =? 46) || (c =? 33)
   || (c =? 63))%N.

(** [re.sub(r"\s+([,;:.!?])", r"\1", s)]: a maximal run of whitespace that
    a punctuation mark follows is dropped; [held] is the run being read. *)
Fixpoint sub_space_punct (held : str) (s : str) : str :=
  match s with
  | [] => held
  | c :: s' =>
      if isspace c then sub_space_punct (held ++ [c]) s'
      else if is_punct c then c :: sub_space_punct [] s'
      else held ++ c :: sub_space_punct [] s'
  end.

(** The characters of [strip(" -")]. *)
Definition is_space_or_hyphen (c : char) : bool :=
  ((c =? 32) || (c =? 45))%N.

(** The alternatives of [SUBJECT_PREFIX_PATTERN] (lines 49-51), in order. *)
Definition SUBJECTS : list str :=
  [U "I"; U "you"; U "he / she / it"; U "we"; U "they / you-plural"].

(** [SUBJECT_PREFIX_PATTERN.match(defn)]: [m.end()] when the pattern
    "^\((I|you|he / she / it|we|they / you-plural)\)\s+" matches. *)
Fixpoint subject_prefix_end (subjects : list str) (defn : str) : option nat :=
  match subjects with
  | [] => None
  | a :: more =>
      let head := U "(" ++ a ++ U ")" in
      if starts_with head defn then
        match length (take_while isspace (skipn (length head) defn)) with
        | O => subject_prefix_end more defn
        | S k => Some (length head + S k)
        end
      else subject_prefix_end more defn
  end.

Section Cleaner.
Context `{Externals}.

(** The regex class \w on [str] patterns. *)
Definition is_word (c : char) : bool :=
  if (c <? 128)%N then is_ascii_alnum c || (c =? 95)%N else unicode_isalnum c.

(** The regex assertion \b between the character [prev] (if any) and the
    text [s] that follows it. *)
Definition word_boundary (prev : option char) (s : str) : bool :=
  xorb (match prev with Some c => is_word c | None => false end)
       (match s with c :: _ => is_word c | [] => false end).

(** The pattern "\boneself\b" with [re.IGNORECASE] matches at the head of
    [s], where [prev] is the character before [s]. *)
Definition oneself_here (prev : option char) (s : str) : bool :=
  starts_with_ignorecase (U "oneself") s
  && word_boundary prev s
  && word_boundary (nth_error s 6) (skipn 7 s).

(** [re.sub(r"\boneself\b", "", s, flags=re.IGNORECASE)]; [skip] counts the
    characters of the match just removed that are still to pass. *)
Fixpoint sub_oneself (skip : nat) (prev : option char) (s : str) : str :=
  match s with
  | [] => []
  | c :: s' =>
      match skip with
      | S k => sub_oneself k (Some c) s'
      | O =>
          if oneself_here prev s then sub_oneself 6 (Some c) s'
          else c :: sub_oneself 0 (Some c) s'
      end
  end.

(** The body of [post_fix_definition], with the local constant
    [KEEP_IT_PARENS] (line 184) as an argument. *)
Definition post_fix_definition_with (KEEP_IT_PARENS : bool) (defn : str) : str :=
  let defn := sub_oneself 0 None defn in
  let '(prefix, rest) :=
    match subject_prefix_end SUBJECTS defn with
    | Some e => (firstn e defn, skipn e defn)
    | None => ([], defn)
    end in
  let rest :=
    if KEEP_IT_PARENS then
      let rest := str_replace rest (U "(it)") (U "__KEEP_IT__") in
      let rest := sub_parens None rest in
      str_replace rest (U "__KEEP_IT__") (U "(it)")
    else sub_parens None rest in
  let cleaned := strip (prefix ++ rest) in
  let cleaned := strip (sub_spaces false cleaned) in
  let cleaned := sub_space_punct [] cleaned in
  strip_by is_space_or_hyphen cleaned.

(** Line 184: [KEEP_IT_PARENS = True]. *)
Definition KEEP_IT_PARENS : bool := true.

Definition post_fix_definition (defn : str) : str :=
  post_fix_definition_with KEEP_IT_PARENS defn.

End Cleaner.

(** ** The run's effects *)

(** The place a request is issued from: line 235 (the request of an initial
    batch) or line 261 (a retry request, with the value of [attempt]). *)
Inductive phase : Type :=
| Initial
| Retry (attempt : Z).

(** One call of [ollama_chat_stream_collect_content]: the words joined into
    the user prompt and what the call gave. *)
Record event : Type := Request {
  ev_phase : phase;
  ev_words : list str;
  ev_reply : result str
}.

Section Effects.
Context `{Externals}.

(** The state threaded through a run: the world, and the requests issued so
    far (oldest first). *)
Record state : Type := State {
  world : World;
  trace : list event
}.

Definition M (A : Type) : Type := state -> state * outcome A.

Definition ret {A} (a : A) : M A := fun st => (st, Ok a).

Definition bind {A B} (c : M A) (k : A -> M B) : M B :=
  fun st =>
    match c st with
    | (st', Ok a) => k a st'
    | (st', Raised e) => (st', Raised e)
    | (st', OutOfFuel) => (st', OutOfFuel)
    end.

Definition lift {A} (r : result A) : M A := fun st => (st, outcome_of r).

(** [ollama_chat_stream_collect_content(..., user_prompt="\n".join(batch))] *)
Definition dispatch (ph : phase) (batch : list str) : M str :=
  fun st =>
    let '(w, r) :=
      ollama_chat_stream_collect_content (world st) (join [10%N] batch) in
    (State w (trace st ++ [Request ph batch r]), outcome_of r).

(** [if sleep_between_s: time.sleep(sleep_between_s)]; a float is true when
    it differs from zero. *)
Definition sleep_between (sleep_between_s : float) : M unit :=
  fun st =>
    if PrimFloat.eqb sleep_between_s 0%float then (st, Ok tt)
    else let '(w, r) := time_sleep (world st) sleep_between_s in
         (State w (trace st), outcome_of r).

End Effects.

Notation "x <- c ;; k" := (bind c (fun x => k))
  (at level 61, c at next level, right associativity).
Notation "' p <- c ;; k" := (bind c (fun x => let 'p := x in k))
  (at level 61, p pattern, c at next level, right associativity).

(** ** generate (lines 213-287) *)

Definition results_t : Type := dict (str * str).

Section Generate.
Context `{Externals}.
Variable max_retries : Z.
Variable retry_batch_size : Z.
Variable apply_postfixes : bool.
Variable sleep_between_s : float.

(** [post_fix_definition(d) if apply_postfixes else d] *)
Definition cleaned_of (d : str) : str :=
  if apply_postfixes then post_fix_definition d else d.

(** The loops of lines 246-252 and 270-276 over the words [batch] of a
    request, given the decoded reply [m]: an empty (after trimming) or absent
    definition sends the word to [missing], another one is recorded. *)
Fixpoint reconcile (m : dict str) (batch : list str)
         (missing : list str) (results : results_t)
  : list str * results_t :=
  match batch with
  | [] => (missing, results)
  | w :: rest =>
      let d := dict_get_default m w [] in
      if is_blank d then reconcile m rest (missing ++ [w]) results
      else reconcile m rest missing (dict_set results w (d, cleaned_of d))
  end.

(** One request and its reconciliation. *)
Definition request (ph : phase) (batch : list str)
           (missing : list str) (results : results_t)
  : M (list str * results_t) :=
  content <- dispatch ph batch ;;
  ret (reconcile (fst (parse_ndjson_word_defs content)) batch missing results).

(** Lines 258-276: the sub-batches of one retry round. *)
Fixpoint retry_batches (attempt : Z) (rbs : list (list str))
         (next_missing : list str) (results : results_t)
  : M (list str * results_t) :=
  match rbs with
  | [] => ret (next_missing, results)
  | rb :: more =>
      _ <- sleep_between sleep_between_s ;;
      '(next_missing, results) <-
         request (Retry attempt) rb next_missing results ;;
      retry_batches attempt more next_missing results
  end.

(** Lines 257-277: one round, [attempt] already incremented. *)
Definition retry_round (attempt : Z) (missing : list str) (results : results_t)
  : M (list str * results_t) :=
  rbs <- lift (chunk_list missing retry_batch_size) ;;
  retry_batches attempt rbs [] results.

(** Lines 255-277: [while missing and attempt < max_retries]. *)
Fixpoint retry_loop (fuel : nat) (attempt : Z)
         (missing : list str) (results : results_t)
  : M (Z * list str * results_t) :=
  match fuel with
  | O => fun st => (st, OutOfFuel)
  | S fuel' =>
      match missing with
      | [] => ret (attempt, missing, results)
      | _ :: _ =>
          if (attempt <? max_retries)%Z then
            let attempt := (attempt + 1)%Z in
            '(next_missing, results) <- retry_round attempt missing results ;;
            retry_loop fuel' attempt next_missing results
          else ret (attempt, missing, results)
      end
  end.

(** Lines 280-282. *)
Fixpoint fill_missing (missing : list str) (results : results_t) : results_t :=
  match missing with
  | [] => results
  | w :: rest =>
      if dict_mem results w then fill_missing rest results
      else fill_missing rest (dict_set results w ([], []))
  end.

(** The body of the loop over the initial batches (lines 234-282; the
    progress line of 284-285 writes to stderr and changes nothing). *)
Definition process_batch (batch : list str) (results : results_t) : M results_t :=
  '(missing, results) <- request Initial batch [] results ;;
  '(_, missing, results) <-
     retry_loop (S (Z.to_nat max_retries)) 0 missing results ;;
  ret (fill_missing missing results).

Fixpoint process_batches (batches : list (list str)) (results : results_t)
  : M results_t :=
  match batches with
  | [] => ret results
  | batch :: more =>
      results <- process_batch batch results ;;
      process_batches more results
  end.

Definition generate (words : list str) (batch_size : Z) : M results_t :=
  batches <- lift (chunk_list words batch_size) ;;
  process_batches batches [].

End Generate.

(** ** Rows, and main (lines 306-365) *)

Record RowIn : Type := mkRowIn {
  in_word : str;
  in_duolingo_definition : str
}.

Record RowOut : Type := mkRowOut {
  out_word : str;
  out_duolingo_definition : str;
  out_model_definition : str;
  out_cleaned_definition : str
}.

(** What [csv.DictReader] gives for the input file: the header ([None] for
    an empty file) and, per data row, the cell under each header name
    ([None] for a cell the row is too short to have); and the exception it
    raises, if it raises one (a [_csv.Error] on a field that is too long, a
    [UnicodeDecodeError]): after the rows it has given or, with no header,
    while it reads the header. *)
Record DictReader : Type := mkDictReader {
  fieldnames : option (list str);
  records : list (dict (option str));
  failure : option exn
}.

(** [r.get(col) or ""] *)
Definition cell (r : dict (option str)) (col : str) : str :=
  match dict_get r col with Some (Some v) => v | _ => [] end.

(** Lines 82-85: the first accepted header name that is present. *)
Fixpoint find_duo_col (fields : dict str) (candidates : list str) : option str :=
  match candidates with
  | [] => None
  | c :: more =>
      match dict_get fields c with
      | Some h => Some h
      | None => find_duo_col fields more
      end
  end.

(** Lines 87-94. *)
Fixpoint read_rows (word_col : str) (duo_col : option str)
         (rs : list (dict (option str))) : list RowIn :=
  match rs with
  | [] => []
  | r :: more =>
      let w := strip (cell r word_col) in
      match w with
      | [] => read_rows word_col duo_col more
      | _ :: _ =>
          let d := match duo_col with Some c => cell r c | None => [] end in
          mkRowIn w (strip d) :: read_rows word_col duo_col more
      end
  end.

(** [read_input_csv] (lines 69-94), after the file is opened. *)
Definition read_input_csv (reader : DictReader) : result (list RowIn) :=
  match fieldnames reader with
  | None =>
      match failure reader with
      | Some e => Raises e
      | None => Raises ValueError
      end
  | Some [] => Raises ValueError
  | Some names =>
      let fields := fold_left (fun m h => dict_set m (strip h) h) names [] in
      match dict_get fields (U "word") with
      | None => Raises ValueError
      | Some word_col =>
          let duo_col :=
            find_duo_col fields
              [U "duolingo_definition"; U "duolingo"; U "definition";
               U "duo_definition"] in
          match failure reader with
          | Some e => Raises e
          | None => Returns (read_rows word_col duo_col (records reader))
          end
      end
  end.

(** The arguments of the command line that reach the engine; the model, url,
    temperature, top_p and the system prompt are those of the endpoint. *)
Record Args : Type := mkArgs {
  arg_batch : Z;
  arg_retry_batch : Z;
  arg_retries : Z;
  arg_no_clean : bool;
  arg_sleep : float
}.

Section Main.
Context `{Externals}.

(** Lines 344-357: the output rows and [missing_count]. *)
Fixpoint build_rows (word_to_defs : results_t) (inputs : list RowIn)
  : list RowOut * Z :=
  match inputs with
  | [] => ([], 0%Z)
  | r :: more =>
      let '(model_def, cleaned_def) :=
        dict_get_default word_to_defs (in_word r) ([], []) in
      let '(out_rows, missing_count) := build_rows word_to_defs more in
      (mkRowOut (in_word r) (in_duolingo_definition r) model_def cleaned_def
         :: out_rows,
       if is_blank model_def then (missing_count + 1)%Z else missing_count)
  end.

(** [main], from the rows read by [read_input_csv] on: the value returned,
    which [raise SystemExit(main())] makes the exit status, and the rows
    handed to [write_output_csv] ([None] when it is not called). Reading the
    system prompt file (line 322) belongs to the setting of the endpoint. *)
Definition main_rows (args : Args) (inputs : list RowIn)
  : M (Z * option (list RowOut)) :=
  match inputs with
  | [] => ret (2%Z, None)
  | _ :: _ =>
      let words := map in_word inputs in
      word_to_defs <-
        generate (arg_retries args) (arg_retry_batch args)
                 (negb (arg_no_clean args)) (arg_sleep args)
                 words (arg_batch args) ;;
      let '(out_rows, missing_count) := build_rows word_to_defs inputs in
      if (missing_count =? 0)%Z then ret (0%Z, Some out_rows)
      else ret (1%Z, Some out_rows)
  end.

Definition main (args : Args) (reader : DictReader)
  : M (Z * option (list RowOut)) :=
  inputs <- lift (read_input_csv reader) ;;
  main_rows args inputs.

End Main.

(** ** A concrete instance, for the examples

    The theorems below hold for every [Externals]. The closed examples need
    one: a reference JSON decoder following the grammar [json.loads]
    accepts (a \u escape gives one code point; surrogate halves are not
    paired), and an endpoint that answers its k-th request with the k-th
    reply of a script. *)

Module Reference.

Definition json_ws (c : char) : bool :=
  ((c =? 32) || (c =? 9) || (c =? 10) || (c =? 13))%N.

Definition is_digit (c : char) : bool := ((48 <=? c) && (c <=? 57))%N.

Definition hex_value (c : char) : option N :=
  if is_digit c then Some (c - 48)%N
  else if ((97 <=? c) && (c <=? 102))%N then Some (c - 87)%N
  else if ((65 <=? c) && (c <=? 70))%N then Some (c - 55)%N
  else None.

Definition hex4 (a b c d : char) : option char :=
  match hex_value a, hex_value b, hex_value c, hex_value d with
  | Some x, Some y, Some z, Some w => Some (((x * 16 + y) * 16 + z) * 16 + w)%N
  | _, _, _, _ => None
  end.

(** The character an escape letter stands for. *)
Definition unescape (e : char) : option char :=
  if (e =? 34)%N then Some 34%N          (* quote *)
  else if (e =? 92)%N then Some 92%N     (* backslash *)
  else if (e =? 47)%N then Some 47%N     (* slash *)
  else if (e =? 98)%N then Some 8%N      (* b *)
  else if (e =? 102)%N then Some 12%N    (* f *)
  else if (e =? 110)%N then Some 10%N    (* n *)
  else if (e =? 114)%N then Some 13%N    (* r *)
  else if (e =? 116)%N then Some 9%N     (* t *)
  else None.

(** The text of a string literal after its opening quote: the decoded
    string and what follows the closing quote. *)
Fixpoint scan_string (s : str) (acc : str) {struct s} : option (str * str) :=
  match s with
  | [] => None
  | c :: s' =>
      if (c =? 34)%N then Some (rev acc, s')
      else if (c =? 92)%N then
        match s' with
        | [] => None
        | e :: s'' =>
            if (e =? 117)%N then
              match s'' with
              | a :: s3 =>
                  match s3 with
                  | b :: s4 =>
                      match s4 with
                      | c' :: s5 =>
                          match s5 with
                          | d :: s6 =>
                              match hex4 a b c' d with
                              | Some u => scan_string s6 (u :: acc)
                              | None => None
                              end
                          | [] => None
                          end
                      | [] => None
                      end
                  | [] => None
                  end
              | [] => None
              end
            else
              match unescape e with
              | Some u => scan_string s'' (u :: acc)
              | None => None
              end
        end
      else if (c <? 32)%N then None
      else scan_string s' (c :: acc)
  end.

(** A run of at least one digit. *)
Definition scan_digits (s : str) : option (str * str) :=
  match take_while is_digit s with
  | [] => None
  | ds => Some (ds, skipn (length ds) s)
  end.

(** A number literal: an optional minus sign; a zero, or a non-zero digit
    and more digits; optionally a point and digits; optionally an exponent
    letter, a sign and digits. *)
Definition scan_number (s : str) : option (str * str) :=
  let '(sign, s1) :=
    match s with
    | c :: t => if (c =? 45)%N then ([c], t) else ([], s)
    | [] => ([], s)
    end in
  let int_part :=
    match s1 with
    | c :: t => if (c =? 48)%N then Some ([c], t) else scan_digits s1
    | [] => None
    end in
  match int_part with
  | None => None
  | Some (ds, s2) =>
      let '(frac, s3) :=
        match s2 with
        | c :: t =>
            if (c =? 46)%N then
              match scan_digits t with
              | Some (fs, r) => (c :: fs, r)
              | None => ([], s2)
              end
            else ([], s2)
        | [] => ([], s2)
        end in
      let '(ex, s4) :=
        match s3 with
        | c :: t =>
            if ((c =? 101) || (c =? 69))%N then
              let '(sg, t') :=
                match t with
                | g :: u =>
                    if ((g =? 43) || (g =? 45))%N then ([g], u) else ([], t)
                | [] => ([], t)
                end in
              match scan_digits t' with
              | Some (es, r) => (c :: sg ++ es, r)
              | None => ([], s3)
              end
            else ([], s3)
        | [] => ([], s3)
        end in
      Some (sign ++ ds ++ frac ++ ex, s4)
  end.

Definition keyword (k : String.string) (v : json) (s : str) : option (json * str) :=
  if starts_with (U k) s then Some (v, skipn (length (U k)) s) else None.
Arguments keyword k%_string v s.

Fixpoint parse_value (fuel : nat) (s : str) : option (json * str) :=
  match fuel with
  | O => None
  | S fuel' =>
      match s with
      | [] => None
      | c :: s' =>
          if (c =? 34)%N then
            match scan_string s' [] with
            | Some (v, r) => Some (JString v, r)
            | None => None
            end
          else if (c =? 123)%N then
            match drop_while json_ws s' with
            | c1 :: r1 =>
                if (c1 =? 125)%N then Some (JObject [], r1)
                else parse_members fuel' (c1 :: r1) []
            | [] => None
            end
          else if (c =? 91)%N then
            match drop_while json_ws s' with
            | c1 :: r1 =>
                if (c1 =? 93)%N then Some (JArray [], r1)
                else parse_items fuel' (c1 :: r1) []
            | [] => None
            end
          else if (c =? 110)%N then keyword "null" JNull s
          else if (c =? 116)%N then keyword "true" (JBool true) s
          else if (c =? 102)%N then keyword "false" (JBool false) s
          else if (c =? 78)%N then keyword "NaN" (JNumber (U "NaN")) s
          else if (c =? 73)%N then keyword "Infinity" (JNumber (U "Infinity")) s
          else if starts_with (U "-I") s
          then keyword "-Infinity" (JNumber (U "-Infinity")) s
          else
            match scan_number s with
            | Some (lit, r) => Some (JNumber lit, r)
            | None => None
            end
      end
  end

with parse_members (fuel : nat) (s : str) (acc : dict json) : option (json * str) :=
  match fuel with
  | O => None
  | S fuel' =>
      match s with
      | c :: s' =>
          if (c =? 34)%N then
            match scan_string s' [] with
            | Some (k, r) =>
                match drop_while json_ws r with
                | c1 :: r1 =>
                    if (c1 =? 58)%N then
                      match parse_value fuel' (drop_while json_ws r1) with
                      | Some (v, r2) =>
                          match drop_while json_ws r2 with
                          | c3 :: r3 =>
                              if (c3 =? 125)%N
                              then Some (JObject (dict_set acc k v), r3)
                              else if (c3 =? 44)%N
                              then parse_members fuel' (drop_while json_ws r3)
                                                 (dict_set acc k v)
                              else None
                          | [] => None
                          end
                      | None => None
                      end
                    else None
                | [] => None
                end
            | None => None
            end
          else None
      | [] => None
      end
  end

with parse_items (fuel : nat) (s : str) (acc : list json) : option (json * str) :=
  match fuel with
  | O => None
  | S fuel' =>
      match parse_value fuel' s with
      | Some (v, r) =>
          match drop_while json_ws r with
          | c1 :: r1 =>
              if (c1 =? 93)%N then Some (JArray (acc ++ [v]), r1)
              else if (c1 =? 44)%N
              then parse_items fuel' (drop_while json_ws r1) (acc ++ [v])
              else None
          | [] => None
          end
      | None => None
      end
  end.

(** The whole text is one value between optional whitespace. Each call of
    the parser above reads at least one character before the next, so
    twice the length is fuel enough. *)
Definition loads (s : str) : option json :=
  match parse_value (2 * length s + 2) (drop_while json_ws s) with
  | Some (v, r) =>
      match drop_while json_ws r with
      | [] => Some v
      | _ :: _ => None
      end
  | None => None
  end.

(** [bool(x)] for a number literal: some digit of the mantissa is not zero,
    or the literal is NaN or an infinity (a float so small that it rounds
    to zero is not accounted for). *)
Definition number_is_true (literal : str) : bool :=
  existsb (fun c => ((49 <=? c) && (c <=? 57) || (c =? 78) || (c =? 73))%N)
          (take_while (fun c => negb ((c =? 101) || (c =? 69))%N) literal).

(** The externals of the examples: [replies] is the script of the endpoint
    (an empty reply once the script is over), the world is the number of
    requests made, sleeping changes nothing, and no code point from 128 up
    is alphanumeric (the examples are ASCII). *)
Definition scripted (replies : list str) : Externals :=
  {| unicode_isalnum := fun _ => false;
     json_loads := loads;
     json_decode_error := fun _ => true;
     World := nat;
     ollama_chat_stream_collect_content :=
       fun n _ => (S n, Returns (nth n replies []));
     time_sleep := fun n _ => (n, Returns tt) |}.

End Reference.

(** The end-to-end example of the specification: three words in batches
    of two, at most two retry rounds of one word each; the endpoint answers
    its first request with a record for "comer" alone and every later
    request with nothing. *)
Module Example.

Definition externals : Externals :=
  Reference.scripted [Uq "{'word': 'comer', 'definition': 'to eat'}"].

Definition words : list str := [U "comer"; U "beber"; U "vivir"].

Definition start : @state externals := @State externals 0%nat [].

Definition run : @state externals * outcome results_t :=
  @generate externals 2 1 true 0%float words 2 start.

Definition args : Args := mkArgs 2 1 2 false 0%float.

Definition reader : DictReader :=
  mkDictReader
    (Some [U "word"; U "definition"])
    [ [(U "word", Some (U "comer")); (U "definition", Some (U " to eat "))];
      [(U "word", Some (U "beber")); (U "definition", Some (U "to drink"))];
      [(U "word", Some (U "vivir")); (U "definition", Some (U "to live"))] ]
    None.

Definition main_run : @state externals * outcome (Z * option (list RowOut)) :=
  @main externals args reader start.

End Example.

(** ** Vocabulary of the properties *)

Section DecoderVocabulary.
Context `{Externals}.

(** The record a line carries: it decodes to an object whose "word" and
    "definition" are both strings. *)
Definition well_formed (ln : str) : option (str * str) :=
  match json_loads ln with
  | Some (JObject obj) =>
      match dict_get obj (U "word"), dict_get obj (U "definition") with
      | Some (JString w), Some (JString d) => Some (w, d)
      | _, _ => None
      end
  | _ => None
  end.

(** The records of the well-formed lines, in order. *)
Fixpoint decoded_records (lines : list str) : list (str * str) :=
  match lines with
  | [] => []
  | ln :: more =>
      match well_formed ln with
      | Some r => r :: decoded_records more
      | None => decoded_records more
      end
  end.

(** The numbers of the lines that are not well-formed, counting from [idx]. *)
Fixpoint failing_lines (idx : Z) (lines : list str) : list Z :=
  match lines with
  | [] => []
  | ln :: more =>
      match well_formed ln with
      | Some _ => failing_lines (idx + 1) more
      | None => idx :: failing_lines (idx + 1) more
      end
  end.

End DecoderVocabulary.

Section CleanerVocabulary.
Context `{Externals}.

(** The pattern "\boneself\b" (ignoring case) matches somewhere in [s],
    [prev] being the character before [s]. *)
Fixpoint has_oneself (prev : option char) (s : str) : bool :=
  match s with
  | [] => false
  | c :: s' => oneself_here prev s || has_oneself (Some c) s'
  end.

End CleanerVocabulary.

(** What follows the leading subject prefix of [t]; all of [t] when it has
    none. *)
Definition rest_after_prefix (t : str) : str :=
  match subject_prefix_end SUBJECTS t with
  | Some e => skipn e t
  | None => t
  end.

(** *** The parenthesis step of the cleaner *)

(** [rest.replace("(it)", "__KEEP_IT__")] and
    [rest.replace("__KEEP_IT__", "(it)")] (lines 200 and 202). *)
Definition protect (r : str) : str := str_replace r (U "(it)") (U "__KEEP_IT__").
Definition restore (m : str) : str := str_replace m (U "__KEEP_IT__") (U "(it)").

(** Lines 200-202. *)
Definition paren_step (r : str) : str :=
  restore (sub_parens None (protect r)).

(** No opening parenthesis of [x] has a closing one after it. *)
Fixpoint span_free (x : str) : Prop :=
  match x with
  | [] => True
  | c :: x' => (c = 40%N -> ~ In 41%N x') /\ span_free x'
  end.

(** [x] is a text in which placeholders were restored, the text with the
    placeholders having no parenthesised span. *)
Definition restored (x : str) : Prop :=
  exists m, span_free m /\ restore m = x.

(** [s.rstrip(chars)] for a character class [f]. *)
Definition rstrip_by (f : char -> bool) (s : str) : str :=
  rev (drop_while f (rev s)).

(** The cleaned string [t], when it begins with the marker of an allowed
    subject, still has whitespace after it: the marker is found again as
    the subject prefix. *)
Definition keeps_subject_space (t : str) : Prop :=
  forall subject,
    In subject SUBJECTS ->
    starts_with (U "(" ++ subject ++ U ")") t = true ->
    subject_prefix_end SUBJECTS t <> None.

(** Whitespace in normal form: every whitespace character is a space, none
    follows another, and none comes before a character of the class [bad].
    [after_ws] says the character before [s] was whitespace. *)
Fixpoint spaced (bad : char -> bool) (after_ws : bool) (s : str) : bool :=
  match s with
  | [] => true
  | c :: s' =>
      if isspace c
      then (c =? 32)%N && negb after_ws && spaced bad true s'
      else negb (after_ws && bad c) && spaced bad false s'
  end.

(** The four whitespace steps that end [post_fix_definition]. *)
Definition normalize (x : str) : str :=
  strip_by is_space_or_hyphen
    (sub_space_punct [] (strip (sub_spaces false (strip x)))).

(** The first character of [s], if any, is outside the class [f]. *)
Definition head_outside (f : char -> bool) (s : str) : Prop :=
  match s with
  | [] => True
  | c :: _ => f c = false
  end.

Section RunVocabulary.
Context `{Externals}.

(** The reply to the request [e] gives the word [w], one of the words
    requested, a definition that is not empty after trimming. *)
Definition answers (e : event) (w : str) : Prop :=
  In w (ev_words e)
  /\ exists content,
       ev_reply e = Returns content
       /\ is_blank (dict_get_default (fst (parse_ndjson_word_defs content)) w [])
          = false.

(** Some request of the trace [tr] gave [w] such a definition. *)
Definition produced (tr : list event) (w : str) : Prop :=
  exists e, In e tr /\ answers e w.

(** [w] is recorded in [results] with a raw definition that is not empty
    after trimming. *)
Definition resolved (results : results_t) (w : str) : Prop :=
  exists d c, dict_get results w = Some (d, c) /\ is_blank d = false.

(** The entry [v] of a word [w] agrees with the requests made so far: no
    entry, or the empty marker, when no request produced a definition for
    [w]; a non-empty raw definition with its cleaned form when one did. *)
Definition entry_agrees (apply_postfixes : bool) (tr : list event) (w : str)
           (v : option (str * str)) : Prop :=
  match v with
  | None => ~ produced tr w
  | Some (d, c) =>
      (is_blank d = false /\ c = cleaned_of apply_postfixes d /\ produced tr w)
      \/ (d = [] /\ c = [] /\ ~ produced tr w)
  end.

Definition agrees (apply_postfixes : bool) (tr : list event)
           (results : results_t) : Prop :=
  forall w, entry_agrees apply_postfixes tr w (dict_get results w).

(** [n] retry rounds in a row, whatever [missing] holds and whatever the
    limit is. *)
Fixpoint run_rounds (retry_batch_size : Z) (apply_postfixes : bool)
         (sleep_between_s : float) (n : nat) (attempt : Z)
         (missing : list str) (results : results_t)
  : M (Z * list str * results_t) :=
  match n with
  | O => ret (attempt, missing, results)
  | S n' =>
      '(next_missing, results) <-
         retry_round retry_batch_size apply_postfixes sleep_between_s
                     (attempt + 1) missing results ;;
      run_rounds retry_batch_size apply_postfixes sleep_between_s
                 n' (attempt + 1) next_missing results
  end.

(** From the requests [tr] and the mapping [res] to the requests [tr'] and
    the mapping [res'], touching only entries of the words [X]: agreement
    with the requests is kept, no entry disappears, a resolved word stays
    resolved, and the entries of the other words are the same. *)
Record grows (apply_postfixes : bool) (X : list str)
       (tr : list event) (res : results_t)
       (tr' : list event) (res' : results_t) : Prop := mk_grows {
  grows_agrees : agrees apply_postfixes tr res -> agrees apply_postfixes tr' res';
  grows_dom : forall w, dict_get res w <> None -> dict_get res' w <> None;
  grows_resolved : forall w, resolved res w -> resolved res' w;
  grows_frame : forall w, ~ In w X -> dict_get res' w = dict_get res w
}.

(** The postcondition [Q] holds of what the step [c] gives from [st]. *)
Definition wp {A} (c : M A) (Q : state -> outcome A -> Prop) (st : state) : Prop :=
  Q (fst (c st)) (snd (c st)).

End RunVocabulary.

Definition is_retry (e : event) : bool :=
  match ev_phase e with
  | Initial => false
  | Retry _ => true
  end.

(** C1 as the specification states it: once a retry request is issued, no
    request of an initial batch follows. *)
Definition initial_pass_first (tr : list event) : Prop :=
  forall before e after,
    tr = before ++ e :: after ->
    is_retry e = true ->
    Forall (fun e' => is_retry e' = true) after.

(** A retry request made while the batch [batch] is processed. *)
Definition retry_of (max_retries retry_batch_size : Z) (batch : list str)
           (e : event) : Prop :=
  (exists attempt,
      ev_phase e = Retry attempt /\ (1 <= attempt <= max_retries)%Z)
  /\ ev_words e <> []
  /\ incl (ev_words e) batch
  /\ (Z.of_nat (length (ev_words e)) <= retry_batch_size)%Z.

(** The requests made for one initial batch: its own, then its retries. *)
Definition batch_segment (max_retries retry_batch_size : Z) (batch : list str)
           (seg : list event) : Prop :=
  exists reply retries,
    seg = Request Initial batch reply :: retries
    /\ Forall (retry_of max_retries retry_batch_size batch) retries.

(** Successive updates [m[w] = d]. *)
Definition dict_update {V} (m : dict V) (rs : list (str * V)) : dict V :=
  fold_left (fun m r => dict_set m (fst r) (snd r)) rs m.

(** ** More of the script *)

(** *** The stream loop of ollama_chat_stream_collect_content (lines 133-148)

    The loop, over the lines of the response once decoded from UTF-8 (the
    request and the decoding are the endpoint's and the library's).
    An exception of [json.loads] other than [JSONDecodeError] is let
    through by the loop. *)

(** What the loop gives: the content; the [AttributeError] of a [.get] on a
    value that is not a dict; or the exception of [json.loads] that the
    loop does not catch (line 141 catches [json.JSONDecodeError] only). *)
Inductive collected : Type :=
| Content (content : str)
| AttributeError
| LoadsError.

Section Stream.
Context `{Externals}.

(** [bool(x)] for the number a literal denotes. *)
Variable number_is_true : str -> bool.

(** [bool(v)] *)
Definition truthy (v : json) : bool :=
  match v with
  | JNull => false
  | JBool b => b
  | JNumber literal => number_is_true literal
  | JString s => match s with [] => false | _ :: _ => true end
  | JArray items => match items with [] => false | _ :: _ => true end
  | JObject members => match members with [] => false | _ :: _ => true end
  end.

(** [(obj.get("message") or {}).get("content")] for a dict [obj]: [None]
    for an [AttributeError], otherwise what [.get] returns. *)
Definition message_content (obj : dict json) : option (option json) :=
  match dict_get obj (U "message") with
  | None => Some None
  | Some message =>
      if truthy message then
        match message with
        | JObject members => Some (dict_get members (U "content"))
        | _ => None
        end
      else Some None
  end.

(** [if isinstance(piece, str) and piece: parts.append(piece)] *)
Definition append_piece (parts : list str) (piece : option json) : list str :=
  match piece with
  | Some (JString (c :: s)) => parts ++ [c :: s]
  | _ => parts
  end.

(** The loop [for raw_line in resp], with [return "".join(parts)]. *)
Fixpoint collect_parts (lines : list str) (parts : list str) : collected :=
  match lines with
  | [] => Content (concat parts)
  | raw_line :: more =>
      match strip raw_line with
      | [] => collect_parts more parts
      | (_ :: _) as line =>
          match json_loads line with
          | None =>
              if json_decode_error line then collect_parts more parts
              else LoadsError
          | Some (JObject obj) =>
              match message_content obj with
              | None => AttributeError
              | Some piece =>
                  match dict_get obj (U "done") with
                  | Some (JBool true) => Content (concat (append_piece parts piece))
                  | _ => collect_parts more (append_piece parts piece)
                  end
              end
          | Some _ => AttributeError
          end
      end
  end.

(** Lines 133-148. *)
Definition stream_collect_content (lines : list str) : collected :=
  collect_parts lines [].

(** What a line of the stream is to the loop. *)
Inductive fragment : Type :=
| Skipped                                  (* blank, or not JSON *)
| Fails                                    (* [json.loads] raises otherwise *)
| Breaks                                   (* JSON, and a [.get] fails on it *)
| Piece (piece : option json) (done : bool).

Definition fragment_of (raw_line : str) : fragment :=
  match strip raw_line with
  | [] => Skipped
  | (_ :: _) as line =>
      match json_loads line with
      | None => if json_decode_error line then Skipped else Fails
      | Some (JObject obj) =>
          match message_content obj with
          | None => Breaks
          | Some piece =>
              Piece piece
                    match dict_get obj (U "done") with
                    | Some (JBool true) => true
                    | _ => false
                    end
          end
      | Some _ => Breaks
      end
  end.

End Stream.

(** *** write_output_csv (lines 289-304) *)

Definition OUTPUT_FIELDNAMES : list str :=
  [U "word"; U "duolingo_definition"; U "model_definition";
   U "cleaned_definition"].

(** What [write_output_csv] hands to [csv.DictWriter]: the field names of
    the header, then one dict per row. *)
Definition write_output_csv (rows : list RowOut) : list str * list (dict str) :=
  (OUTPUT_FIELDNAMES,
   map (fun r =>
          [(U "word", out_word r);
           (U "duolingo_definition", out_duolingo_definition r);
           (U "model_definition", out_model_definition r);
           (U "cleaned_definition", out_cleaned_definition r)])
       rows).

(** The file so written, opened again by [csv.DictReader]: the csv module
    gives back the header and the cells it was given (same dialect, and
    newline="" on both sides). *)
Definition reread (written : list str * list (dict str)) : DictReader :=
  mkDictReader
    (Some (fst written))
    (map (map (fun kv : str * str => (fst kv, Some (snd kv)))) (snd written))
    None.

(** *** Vocabulary of the further properties *)

(** The header names that read as [name] once stripped. *)
Definition names_column (names : list str) (name : str) : Prop :=
  exists h, In h names /\ strip h = name.

(** A character other than whitespace and the hyphen. *)
Definition is_text (c : char) : bool :=
  negb (isspace c || is_space_or_hyphen c).

(** The line neither ends the stream nor breaks it. *)
Definition passes `{Externals} (number_is_true : str -> bool) (raw_line : str) : Prop :=
  match fragment_of number_is_true raw_line with
  | Skipped | Piece _ false => True
  | Fails | Breaks | Piece _ true => False
  end.

(** The call of the request [e] returned. *)
Definition returned (e : event) : Prop :=
  exists content, ev_reply e = Returns content.

(** *** The requests of a run, exactly *)

Section TraceVocabulary.
Context `{Externals}.

(** The words of the request [e] that its reply leaves without a
    definition (absent from the decoded reply, or blank once trimmed), in
    the order requested. *)
Definition unanswered (e : event) : list str :=
  match ev_reply e with
  | Returns content =>
      filter (fun w =>
                is_blank (dict_get_default
                            (fst (parse_ndjson_word_defs content)) w []))
             (ev_words e)
  | Raises _ => ev_words e
  end.

(** The groups [chunk_list] returns; none when it raises. *)
Definition groups_of (xs : list str) (n : Z) : list (list str) :=
  match chunk_list xs n with
  | Returns gs => gs
  | Raises _ => []
  end.

Section Rounds.
Variable max_retries : Z.
Variable retry_batch_size : Z.

(** [retry_rounds attempt missing evs complete]: [evs] are the requests of
    the [while] loop of lines 255-277 entered with the round counter
    [attempt] and the list [missing]. The loop ends at once when [missing]
    is empty or the counter has reached the maximum. Otherwise a round is
    made: its requests carry, in order, the groups of [missing] at the
    retry batch size, under the counter plus one; when all of them return,
    the loop goes on with the words they left unanswered. [complete] is
    false when the loop was cut by an exception: then the last round has
    made the requests of the first groups only, and only its last request
    may have failed. *)
Inductive retry_rounds : Z -> list str -> list event -> bool -> Prop :=
| rounds_end attempt missing :
    missing = [] \/ (max_retries <= attempt)%Z ->
    retry_rounds attempt missing [] true
| rounds_round attempt missing evs rest complete :
    missing <> [] -> (attempt < max_retries)%Z ->
    chunk_list missing retry_batch_size = Returns (map ev_words evs) ->
    Forall (fun e => ev_phase e = Retry (attempt + 1) /\ returned e) evs ->
    retry_rounds (attempt + 1) (flat_map unanswered evs) rest complete ->
    retry_rounds attempt missing (evs ++ rest) complete
| rounds_cut attempt missing evs :
    missing <> [] -> (attempt < max_retries)%Z ->
    map ev_words evs
    = firstn (length evs) (groups_of missing retry_batch_size) ->
    Forall (fun e => ev_phase e = Retry (attempt + 1)) evs ->
    Forall returned (removelast evs) ->
    retry_rounds attempt missing evs false.

(** The requests made for one initial batch: its own request and, when
    that one returns, the retry rounds on the words it left unanswered,
    from the counter 0. *)
Definition batch_run (batch : list str) (seg : list event) (complete : bool)
  : Prop :=
  exists reply rest,
    seg = Request Initial batch reply :: rest
    /\ match reply with
       | Returns _ =>
           retry_rounds 0 (unanswered (Request Initial batch reply)) rest complete
       | Raises _ => rest = [] /\ complete = false
       end.

(** The requests of a run over the initial batches [batches], batch by
    batch: the run of every batch when the run returned; when it raised,
    the runs of the first batches and the cut run of the next one. *)
Definition batches_run (batches : list (list str)) (segs : list (list event))
           (complete : bool) : Prop :=
  if complete then Forall2 (fun b seg => batch_run b seg true) batches segs
  else exists done cut b,
         segs = done ++ [cut]
         /\ Forall2 (fun b seg => batch_run b seg true)
                    (firstn (length done) batches) done
         /\ nth_error batches (length done) = Some b
         /\ batch_run b cut false.

End Rounds.
End TraceVocabulary.

(** The requests [seg] of a step that gave [r]: all of them returned, except
    that the last one may be the call whose exception [r] carries. *)
Definition stops_at_failure {A} (seg : list event) (r : outcome A) : Prop :=
  match r with
  | Raised ex =>
      Forall returned seg
      \/ exists init ph ws,
           seg = init ++ [Request ph ws (Raises ex)] /\ Forall returned init
  | _ => Forall returned seg
  end.

(** The step [c] stops at the first request that fails. *)
Definition stopping `{Externals} {A} (c : M A) : Prop :=
  forall st,
    exists seg,
      trace (fst (c st)) = trace st ++ seg /\ stops_at_failure seg (snd (c st)).

(** The step [c] makes at most [n] requests and, when it returns [a], [P a]
    holds. *)
Definition within `{Externals} {A} (n : nat) (P : A -> Prop) (c : M A) : Prop :=
  forall st,
    (length (trace (fst (c st))) <= length (trace st) + n)%nat
    /\ match snd (c st) with Ok a => P a | _ => True end.

(** An endpoint that answers its first request and refuses the connection
    from the second on. *)
Module Outage.

Definition externals : Externals :=
  {| unicode_isalnum := fun _ => false;
     json_loads := Reference.loads;
     json_decode_error := fun _ => true;
     World := nat;
     ollama_chat_stream_collect_content :=
       fun n _ =>
         (S n,
          match n with
          | O => Returns (Uq "{'word': 'comer', 'definition': 'to eat'}")
          | S _ => Raises TransportError
          end);
     time_sleep := fun n _ => (n, Returns tt) |}.

Definition start : @state externals := @State externals 0%nat [].

End Outage.

(** A decoder with Python's limit on the conversion of integer literals
    (4300 digits by default): on a text of more digits than that,
    [json.loads] raises a [ValueError] that is not a [JSONDecodeError]. *)
Module Limited.

Definition too_long (s : str) : bool :=
  (4300 <? length s)%nat && forallb Reference.is_digit s.

Definition externals : Externals :=
  {| unicode_isalnum := fun _ => false;
     json_loads := fun s => if too_long s then None else Reference.loads s;
     json_decode_error := fun s => negb (too_long s);
     World := nat;
     ollama_chat_stream_collect_content := fun n _ => (S n, Returns []);
     time_sleep := fun n _ => (n, Returns tt) |}.

End Limited.

(* ================================================================== *)
(** * Part II: properties                                             *)
(* ================================================================== *)

(** ** Partitioning *)

Lemma range_up_chunks {A} (xs : list A) (n : Z) :
  (0 < n)%Z ->
  forall fuel i,
    (0 <= i)%Z ->
    (Z.of_nat (length xs) - i <= Z.of_nat fuel)%Z ->
    let gs := map (fun i => py_slice xs i (i + n))
                  (range_up fuel i (Z.of_nat (length xs)) n) in
    concat gs = skipn (Z.to_nat i) xs
    /\ Z.of_nat (length gs) = ((Z.max 0 (Z.of_nat (length xs) - i) + n - 1) / n)%Z
    /\ Forall (fun g => g <> [] /\ (Z.of_nat (length g) <= n)%Z) gs.
Proof.
  intros Hn fuel. induction fuel as [|fuel IH]; intros i Hi Hfuel; cbn zeta.
  - cbn [range_up map concat length].
    assert (Hle : (Z.of_nat (length xs) <= i)%Z) by lia.
    repeat split.
    + rewrite skipn_all2 by lia. reflexivity.
    + rewrite Z.max_l by lia. symmetry. apply Z.div_small. lia.
    + constructor.
  - cbn [range_up]. destruct (Z.ltb_spec i (Z.of_nat (length xs))) as [Hlt|Hge].
    + cbn [map concat length].
      destruct (IH (i + n)%Z ltac:(lia) ltac:(lia)) as (Hc & Hl & Hf).
      cbn zeta in Hc, Hl, Hf. repeat split.
      * rewrite Hc. unfold py_slice.
        replace (Z.to_nat (i + n - i)) with (Z.to_nat n) by lia.
        replace (Z.to_nat (i + n)) with (Z.to_nat n + Z.to_nat i)%nat by lia.
        rewrite <- skipn_skipn. apply firstn_skipn.
      * rewrite Nat2Z.inj_succ, Hl.
        rewrite (Z.max_r 0 (Z.of_nat (length xs) - i)) by lia.
        destruct (Z.le_gt_cases (Z.of_nat (length xs)) (i + n)) as [Hlast|Hmore].
        -- rewrite Z.max_l by lia.
           rewrite (Z.div_small (0 + n - 1) n) by lia.
           replace (Z.of_nat (length xs) - i + n - 1)%Z
             with ((Z.of_nat (length xs) - i - 1) + 1 * n)%Z by lia.
           rewrite Z.div_add by lia.
           rewrite (Z.div_small (Z.of_nat (length xs) - i - 1) n) by lia. lia.
        -- rewrite Z.max_r by lia.
           replace (Z.of_nat (length xs) - i + n - 1)%Z
             with ((Z.of_nat (length xs) - (i + n) + n - 1) + 1 * n)%Z by lia.
           rewrite Z.div_add by lia. lia.
      * constructor; [|exact Hf]. unfold py_slice.
        replace (Z.to_nat (i + n - i)) with (Z.to_nat n) by lia.
        split.
        -- intro Hnil. apply (f_equal (@length A)) in Hnil.
           rewrite length_firstn, length_skipn in Hnil. cbn in Hnil. lia.
        -- rewrite length_firstn. lia.
    + cbn [map concat length]. repeat split.
      * rewrite skipn_all2 by lia. reflexivity.
      * rewrite Z.max_l by lia. symmetry. apply Z.div_small. lia.
      * constructor.
Qed.

(** C4. For every list [xs] of length L and every batch size [n >= 1],
    [chunk_list xs n] returns (without raising) ceil(L / n) groups, written
    (L + n - 1) / n, whose concatenation is [xs] itself (so the groups are
    contiguous, in order, with nothing dropped or duplicated); every group is
    non-empty and has at most [n] elements. *)
Theorem chunk_list_partition {A} (xs : list A) (n : Z) :
  (1 <= n)%Z ->
  exists gs,
    chunk_list xs n = Returns gs
    /\ concat gs = xs
    /\ Z.of_nat (length gs) = ((Z.of_nat (length xs) + n - 1) / n)%Z
    /\ Forall (fun g => g <> [] /\ (Z.of_nat (length g) <= n)%Z) gs.
Proof.
  intro Hn. unfold chunk_list, py_range.
  destruct (Z.eqb_spec n 0) as [->|_]; [lia|].
  destruct (Z.ltb_spec 0 n) as [_|]; [|lia].
  eexists. split; [reflexivity|].
  destruct (@range_up_chunks A xs n ltac:(lia)
              (Z.to_nat (Z.of_nat (length xs) - 0)) 0%Z ltac:(lia) ltac:(lia))
    as (Hc & Hl & Hf).
  cbn zeta in Hc, Hl, Hf. repeat split.
  - rewrite Hc. reflexivity.
  - rewrite Hl. rewrite Z.max_r by lia. f_equal. lia.
  - exact Hf.
Qed.

Lemma chunk_list_partition_witness :
  (1 <= 2)%Z /\
  exists gs,
    chunk_list [U "comer"; U "beber"; U "vivir"] 2 = Returns gs
    /\ concat gs = [U "comer"; U "beber"; U "vivir"]
    /\ Z.of_nat (length gs) = ((Z.of_nat 3 + 2 - 1) / 2)%Z
    /\ Forall (fun g => g <> [] /\ (Z.of_nat (length g) <= 2)%Z) gs.
Proof.
  split; [lia|].
  apply (@chunk_list_partition str [U "comer"; U "beber"; U "vivir"] 2). lia.
Defined.

(** ** Strings and dictionaries *)

Lemma str_eqb_eq (a b : str) : str_eqb a b = true <-> a = b.
Proof.
  revert b. induction a as [|x a IH]; intros [|y b]; cbn; split;
    try congruence; try reflexivity.
  - intro Hab. apply andb_true_iff in Hab as [Hxy Hrest].
    apply N.eqb_eq in Hxy. apply IH in Hrest. congruence.
  - intro Hab. injection Hab as -> ->. apply andb_true_iff. split.
    + apply N.eqb_refl.
    + apply IH. reflexivity.
Qed.

Lemma str_eqb_refl (a : str) : str_eqb a a = true.
Proof. apply str_eqb_eq. reflexivity. Qed.

Lemma str_eqb_neq (a b : str) : str_eqb a b = false <-> a <> b.
Proof.
  split.
  - intros Hf Heq. apply str_eqb_eq in Heq. congruence.
  - intro Hne. destruct (str_eqb a b) eqn:E; [|reflexivity].
    apply str_eqb_eq in E. contradiction.
Qed.

Lemma str_eq_dec (a b : str) : {a = b} + {a <> b}.
Proof. apply list_eq_dec, N.eq_dec. Defined.

Lemma str_eqb_spec (a b : str) : reflect (a = b) (str_eqb a b).
Proof.
  destruct (str_eqb a b) eqn:E; constructor.
  - apply str_eqb_eq. exact E.
  - apply str_eqb_neq. exact E.
Qed.

Section DictFacts.
Variable V : Type.
Implicit Types (m : dict V) (k : str) (v : V).

Lemma dict_get_set_same m k v : dict_get (dict_set m k v) k = Some v.
Proof.
  induction m as [|[k' v'] m IH]; cbn.
  - rewrite str_eqb_refl. reflexivity.
  - destruct (str_eqb_spec k k') as [E|E]; cbn.
    + subst. rewrite str_eqb_refl. reflexivity.
    + apply str_eqb_neq in E. rewrite E. exact IH.
Qed.

Lemma dict_get_set_other m k v k' :
  k' <> k -> dict_get (dict_set m k v) k' = dict_get m k'.
Proof.
  intro Hne. induction m as [|[k0 v0] m IH]; cbn.
  - apply str_eqb_neq in Hne. rewrite Hne. reflexivity.
  - destruct (str_eqb_spec k k0) as [E|E]; cbn.
    + subst k0. apply str_eqb_neq in Hne. rewrite Hne. reflexivity.
    + rewrite IH. reflexivity.
Qed.

Lemma dict_get_set m k v k' :
  dict_get (dict_set m k v) k' = if str_eqb k' k then Some v else dict_get m k'.
Proof.
  destruct (str_eqb_spec k' k) as [E|E].
  - subst. apply dict_get_set_same.
  - apply dict_get_set_other. assumption.
Qed.

Lemma dict_keys_set m k v k' :
  In k' (dict_keys (dict_set m k v)) <-> k' = k \/ In k' (dict_keys m).
Proof.
  unfold dict_keys. induction m as [|[k0 v0] m IH]; cbn.
  - intuition congruence.
  - destruct (str_eqb_spec k k0) as [E|E]; cbn.
    + subst. intuition congruence.
    + rewrite IH. intuition congruence.
Qed.

Lemma dict_keys_set_NoDup m k v :
  NoDup (dict_keys m) -> NoDup (dict_keys (dict_set m k v)).
Proof.
  unfold dict_keys. induction m as [|[k0 v0] m IH]; cbn; intro Hnd.
  - constructor; [intros []|constructor].
  - inversion Hnd as [|? ? Hnotin Hnd']; subst.
    destruct (str_eqb_spec k k0) as [E|E]; cbn.
    + constructor; assumption.
    + constructor; [|apply IH; assumption].
      intro Hin. apply (dict_keys_set m k v k0) in Hin.
      destruct Hin as [Heq|Hin]; [congruence|contradiction].
Qed.

Lemma dict_get_In m k v : dict_get m k = Some v -> In k (dict_keys m).
Proof.
  unfold dict_keys. induction m as [|[k0 v0] m IH]; cbn; [discriminate|].
  destruct (str_eqb_spec k k0) as [E|E].
  - intros _. left. congruence.
  - intro Hg. right. apply IH. exact Hg.
Qed.

Lemma dict_update_NoDup (rs : list (str * V)) m :
  NoDup (dict_keys m) -> NoDup (dict_keys (dict_update m rs)).
Proof.
  revert m. induction rs as [|[k v] rs IH]; intros m Hnd; cbn.
  - exact Hnd.
  - apply IH. apply dict_keys_set_NoDup. exact Hnd.
Qed.

Lemma dict_update_later (rs : list (str * V)) m k v :
  dict_get m k = Some v ->
  (forall v', ~ In (k, v') rs) ->
  dict_get (dict_update m rs) k = Some v.
Proof.
  revert m. induction rs as [|[k0 v0] rs IH]; intros m Hget Hno; cbn.
  - exact Hget.
  - apply IH.
    + rewrite dict_get_set_other; [exact Hget|].
      intro Heq. subst k0. apply (Hno v0). left. reflexivity.
    + intros v' Hin. apply (Hno v'). right. exact Hin.
Qed.

End DictFacts.

(** ** Record decoding *)

Section DecoderFacts.
Context `{Externals}.

Lemma parse_lines_closed_form lines :
  forall idx out errors,
    fst (parse_lines idx lines out errors)
      = dict_update out (decoded_records lines)
    /\ map error_line (snd (parse_lines idx lines out errors))
      = map error_line errors ++ failing_lines idx lines.
Proof.
  induction lines as [|ln more IH]; intros idx out errors.
  - cbn. rewrite app_nil_r. split; reflexivity.
  - cbn [parse_lines decoded_records failing_lines]. unfold well_formed.
    destruct (json_loads ln) as [j|]; [destruct j as [| | | | |obj]|].
    6: destruct (dict_get obj (U "word")) as [jw|]; [destruct jw as [| | |w| |]|].
    9: destruct (dict_get obj (U "definition")) as [jd|]; [destruct jd as [| | |d| |]|].
    all: match goal with
         | |- context [parse_lines ?i _ ?o ?e] =>
             destruct (IH i o e) as [Ha Hb]; rewrite Ha, Hb
         end.
    all: rewrite ?map_app, <- ?app_assoc; split; reflexivity.
Qed.

Lemma failing_decoded_length lines idx :
  (length (failing_lines idx lines) + length (decoded_records lines)
   = length lines)%nat.
Proof.
  revert idx. induction lines as [|ln more IH]; intro idx; cbn.
  - reflexivity.
  - destruct (well_formed ln); cbn; rewrite <- (IH (idx + 1)%Z); lia.
Qed.

Lemma decoded_records_app l1 l2 :
  decoded_records (l1 ++ l2) = decoded_records l1 ++ decoded_records l2.
Proof.
  induction l1 as [|ln l1 IH]; cbn; [reflexivity|].
  destruct (well_formed ln); cbn; rewrite IH; reflexivity.
Qed.

Lemma decoded_records_In lines w d :
  In (w, d) (decoded_records lines) ->
  exists ln, In ln lines /\ well_formed ln = Some (w, d).
Proof.
  induction lines as [|ln more IH]; cbn; [intros []|].
  destruct (well_formed ln) as [r|] eqn:E.
  - intros [->|Hin].
    + exists ln. split; [left; reflexivity|exact E].
    + destruct (IH Hin) as (ln' & Hin' & Hwf). exists ln'. split; [right|]; assumption.
  - intro Hin. destruct (IH Hin) as (ln' & Hin' & Hwf).
    exists ln'. split; [right|]; assumption.
Qed.

(** C7. For every text blob: the mapping returned is the successive update
    by the records of the well-formed lines alone, in order (so a failing
    line contributes nothing and the lines after it are still decoded); the
    error list has one entry per failing line, carrying that line's
    number, in order; and in particular, when the non-blank lines are one
    well-formed line and one failing line (in either order), the mapping is
    exactly the well-formed entry and exactly one error is recorded. *)
Theorem parse_ndjson_degrades (content : str) :
  let lines := record_lines content in
  let out := fst (parse_ndjson_word_defs content) in
  let errors := snd (parse_ndjson_word_defs content) in
  out = dict_update [] (decoded_records lines)
  /\ map error_line errors = failing_lines 1 lines
  /\ (length errors + length (decoded_records lines) = length lines)%nat
  /\ (forall good bad w d,
        well_formed good = Some (w, d) ->
        well_formed bad = None ->
        lines = [good; bad] \/ lines = [bad; good] ->
        out = [(w, d)] /\ length errors = 1%nat).
Proof.
  cbn zeta. unfold parse_ndjson_word_defs.
  destruct (parse_lines_closed_form (record_lines content) 1 [] []) as [Hout Herr].
  cbn [map app] in Herr.
  assert (Hlen : (length (snd (parse_lines 1 (record_lines content) [] []))
                  + length (decoded_records (record_lines content))
                  = length (record_lines content))%nat).
  { rewrite <- (failing_decoded_length (record_lines content) 1), <- Herr.
    rewrite length_map. reflexivity. }
  split; [exact Hout|]. split; [exact Herr|]. split; [exact Hlen|].
  intros good bad w d Hgood Hbad Hl. split.
  - rewrite Hout.
    destruct Hl as [Hl|Hl]; rewrite Hl; cbn [decoded_records];
      rewrite Hgood, Hbad; reflexivity.
  - clear Hout Herr.
    set (errors := snd (parse_lines 1 (record_lines content) [] [])) in *.
    clearbody errors.
    destruct Hl as [Hl|Hl]; rewrite Hl in Hlen; cbn [decoded_records] in Hlen;
      rewrite Hgood, Hbad in Hlen; cbn in Hlen; lia.
Qed.

(** C8. For every text blob: if a well-formed line carries the word [w]
    with the definition [d] and no well-formed line after it carries [w],
    then the mapping returned binds [w] to [d] (whatever earlier lines said
    of [w]), and [w] occurs exactly once among its keys; no key occurs
    twice. *)
Theorem parse_ndjson_last_write_wins (content : str) (w d : str)
        (before : list str) (ln : str) (after : list str) :
  record_lines content = before ++ ln :: after ->
  well_formed ln = Some (w, d) ->
  (forall ln' d', In ln' after -> well_formed ln' <> Some (w, d')) ->
  let out := fst (parse_ndjson_word_defs content) in
  dict_get out w = Some d
  /\ count_occ str_eq_dec (dict_keys out) w = 1%nat
  /\ NoDup (dict_keys out).
Proof.
  intros Hlines Hwf Hlast. cbn zeta. unfold parse_ndjson_word_defs.
  destruct (parse_lines_closed_form (record_lines content) 1 [] []) as [Hout _].
  rewrite Hout, Hlines, decoded_records_app. cbn [decoded_records].
  rewrite Hwf. unfold dict_update. rewrite fold_left_app. cbn [fold_left fst snd].
  fold (dict_update [] (decoded_records before)).
  fold (dict_update (dict_set (dict_update [] (decoded_records before)) w d)
                    (decoded_records after)).
  assert (Hget : dict_get
            (dict_update (dict_set (dict_update [] (decoded_records before)) w d)
                         (decoded_records after)) w = Some d).
  { apply dict_update_later.
    - apply dict_get_set_same.
    - intros d' Hin. apply decoded_records_In in Hin as (ln' & Hin & Hwf').
      exact (Hlast ln' d' Hin Hwf'). }
  assert (Hnd : NoDup (dict_keys
            (dict_update (dict_set (dict_update [] (decoded_records before)) w d)
                         (decoded_records after)))).
  { apply dict_update_NoDup, dict_keys_set_NoDup, dict_update_NoDup. constructor. }
  repeat split; try assumption.
  apply dict_get_In in Hget.
  apply (NoDup_count_occ' str_eq_dec) in Hget; assumption.
Qed.

End DecoderFacts.

Lemma parse_ndjson_degrades_witness :
  let E := Reference.scripted [] in
  let content := Uq "{'word': 'comer', 'definition': 'to eat'}
{'word': 'beber', 'definition': }" in
  @well_formed E (Uq "{'word': 'comer', 'definition': 'to eat'}")
    = Some (U "comer", U "to eat")
  /\ @well_formed E (Uq "{'word': 'beber', 'definition': }") = None
  /\ fst (@parse_ndjson_word_defs E content) = [(U "comer", U "to eat")]
  /\ length (snd (@parse_ndjson_word_defs E content)) = 1%nat.
Proof.
  cbn zeta. split; [vm_compute; reflexivity|]. split; [vm_compute; reflexivity|].
  refine (proj2 (proj2 (proj2 (@parse_ndjson_degrades (Reference.scripted []) _)))
            (Uq "{'word': 'comer', 'definition': 'to eat'}")
            (Uq "{'word': 'beber', 'definition': }")
            (U "comer") (U "to eat") _ _ _);
    [vm_compute; reflexivity | vm_compute; reflexivity | left; vm_compute; reflexivity].
Defined.

Lemma parse_ndjson_last_write_wins_witness :
  let E := Reference.scripted [] in
  let content := Uq "{'word': 'comer', 'definition': 'to eat'}
{'word': 'comer', 'definition': 'eat'}" in
  dict_get (fst (@parse_ndjson_word_defs E content)) (U "comer") = Some (U "eat")
  /\ count_occ str_eq_dec
       (dict_keys (fst (@parse_ndjson_word_defs E content))) (U "comer") = 1%nat
  /\ NoDup (dict_keys (fst (@parse_ndjson_word_defs E content))).
Proof.
  cbn zeta.
  refine (@parse_ndjson_last_write_wins (Reference.scripted []) _
            (U "comer") (U "eat")
            [Uq "{'word': 'comer', 'definition': 'to eat'}"]
            (Uq "{'word': 'comer', 'definition': 'eat'}") [] _ _ _).
  - vm_compute. reflexivity.
  - vm_compute. reflexivity.
  - intros ln' d' [].
Defined.

(** ** The cleaner *)

Section CleanerFacts.
Context `{Externals}.

(** *** The whitespace steps give a normal form *)

Lemma drop_while_suffix f s : exists l, s = l ++ drop_while f s.
Proof.
  induction s as [|c s IH]; cbn.
  - exists []. reflexivity.
  - destruct (f c).
    + destruct IH as [l Hl]. exists (c :: l). cbn. congruence.
    + exists []. reflexivity.
Qed.

Lemma drop_while_head f s : head_outside f (drop_while f s).
Proof.
  induction s as [|c s IH]; cbn; [exact I|].
  destruct (f c) eqn:E; [exact IH|exact E].
Qed.

Lemma drop_while_id f s : head_outside f s -> drop_while f s = s.
Proof. destruct s as [|c s]; cbn; [reflexivity|]. intros ->. reflexivity. Qed.

Lemma strip_by_prefix f s :
  exists l r, s = l ++ strip_by f s ++ r.
Proof.
  unfold strip_by.
  destruct (drop_while_suffix f s) as [l Hl].
  destruct (drop_while_suffix f (rev (drop_while f s))) as [l' Hl'].
  exists l, (rev l'). rewrite <- rev_app_distr, <- Hl', rev_involutive. exact Hl.
Qed.

Lemma strip_by_id f s :
  head_outside f s -> head_outside f (rev s) -> strip_by f s = s.
Proof.
  intros H1 H2. unfold strip_by.
  rewrite (drop_while_id f s H1), (drop_while_id f (rev s) H2).
  apply rev_involutive.
Qed.

Lemma strip_by_ends f s :
  head_outside f (strip_by f s) /\ head_outside f (rev (strip_by f s)).
Proof.
  unfold strip_by. split.
  - pose proof (drop_while_head f s) as Hh.
    destruct (drop_while_suffix f (rev (drop_while f s))) as [l Hl].
    apply (f_equal (@rev char)) in Hl. rewrite rev_involutive, rev_app_distr in Hl.
    destruct (rev (drop_while f (rev (drop_while f s)))) as [|c u]; [exact I|].
    rewrite Hl in Hh. exact Hh.
  - rewrite rev_involutive. apply drop_while_head.
Qed.

Lemma spaced_weaken bad b s : spaced bad b s = true -> spaced bad false s = true.
Proof.
  destruct s as [|c s]; cbn; [reflexivity|].
  destruct (isspace c); destruct b; cbn; try tauto;
    rewrite ?andb_false_r; try discriminate.
  intro Hs. apply andb_true_iff in Hs as [_ Hs]. exact Hs.
Qed.

Lemma spaced_suffix bad l s b :
  spaced bad b (l ++ s) = true -> spaced bad false s = true.
Proof.
  revert b. induction l as [|c l IH]; intros b; cbn.
  - apply spaced_weaken.
  - destruct (isspace c); intro Hs; apply andb_true_iff in Hs as [_ Hs];
      exact (IH _ Hs).
Qed.

Lemma spaced_prefix bad s r b :
  spaced bad b (s ++ r) = true -> spaced bad b s = true.
Proof.
  revert b. induction s as [|c s IH]; intros b; cbn; [reflexivity|].
  destruct (isspace c); intro Hs; apply andb_true_iff in Hs as [Hc Hs];
    rewrite Hc; exact (IH _ Hs).
Qed.

Lemma spaced_infix bad l s r b :
  spaced bad b (l ++ s ++ r) = true -> spaced bad false s = true.
Proof.
  intro Hs. apply spaced_suffix in Hs. apply spaced_prefix in Hs. exact Hs.
Qed.

Lemma spaced_space_is_32 bad b s :
  spaced bad b s = true -> Forall (fun c => isspace c = true -> c = 32%N) s.
Proof.
  revert b. induction s as [|c s IH]; intros b; cbn; [constructor|].
  destruct (isspace c) eqn:E; intro Hs; apply andb_true_iff in Hs as [Hc Hs].
  - apply andb_true_iff in Hc as [Hc _]. apply N.eqb_eq in Hc.
    constructor; [intros _; exact Hc|exact (IH _ Hs)].
  - constructor; [congruence|exact (IH _ Hs)].
Qed.

Lemma sub_spaces_spaced s b :
  spaced (fun _ => false) b (sub_spaces b s) = true.
Proof.
  revert b. induction s as [|c s IH]; intros b; cbn; [reflexivity|].
  destruct (isspace c) eqn:E.
  - destruct b; [apply IH|]. cbn. apply IH.
  - cbn. rewrite E. rewrite andb_false_r. cbn. apply IH.
Qed.

Lemma sub_spaces_id bad s b :
  spaced bad b s = true -> sub_spaces b s = s.
Proof.
  revert b. induction s as [|c s IH]; intros b; cbn; [reflexivity|].
  destruct (isspace c) eqn:E; intro Hs; apply andb_true_iff in Hs as [Hc Hs].
  - apply andb_true_iff in Hc as [Hc Hb]. apply N.eqb_eq in Hc.
    destruct b; [discriminate|]. cbn. rewrite (IH _ Hs). subst c. reflexivity.
  - rewrite (IH _ Hs). reflexivity.
Qed.

Lemma is_punct_not_space c : is_punct c = true -> isspace c = false.
Proof.
  unfold is_punct. intro Hp.
  repeat (apply orb_true_iff in Hp as [Hp|Hp]);
    apply N.eqb_eq in Hp; subst c; reflexivity.
Qed.

Lemma spaced_two_spaces bad b a c s :
  isspace a = true -> isspace c = true -> spaced bad b (a :: c :: s) = false.
Proof.
  intros Ha Hc. cbn. rewrite Ha, Hc.
  destruct (a =? 32)%N, b, (c =? 32)%N; reflexivity.
Qed.

Lemma sub_space_punct_spaced s :
  forall held,
    spaced (fun _ => false) false (held ++ s) = true ->
    Forall (fun c => isspace c = true) held ->
    spaced is_punct false (sub_space_punct held s) = true.
Proof.
  induction s as [|c s IH]; intros held Hs Hheld; cbn.
  - rewrite app_nil_r in Hs. clear - Hs Hheld.
    destruct held as [|a [|b held]]; [reflexivity| |].
    + cbn in *. inversion Hheld as [|? ? Ha _]; subst. rewrite Ha in *. exact Hs.
    + exfalso. inversion Hheld as [|? ? Ha Hrest]; subst.
      inversion Hrest as [|? ? Hb _]; subst.
      rewrite (@spaced_two_spaces _ _ _ _ _ Ha Hb) in Hs. discriminate.
  - destruct (isspace c) eqn:E.
    + apply IH.
      * rewrite <- app_assoc. exact Hs.
      * apply Forall_app. split; [exact Hheld|]. constructor; [exact E|constructor].
    + assert (Htail : spaced (fun _ => false) false s = true).
      { apply (spaced_suffix _ (held ++ [c]) s false). rewrite <- app_assoc. exact Hs. }
      pose proof (IH [] Htail (Forall_nil _)) as IHs.
      destruct (is_punct c) eqn:P.
      * cbn. rewrite E. cbn. exact IHs.
      * destruct held as [|a [|b held]].
        -- cbn. rewrite E. cbn. exact IHs.
        -- cbn in Hs |- *. inversion Hheld as [|? ? Ha _]; subst.
           rewrite Ha in *. rewrite E, P in *. cbn.
           apply andb_true_iff in Hs as [Hs _]. rewrite Hs. cbn. exact IHs.
        -- exfalso. inversion Hheld as [|? ? Ha Hrest]; subst.
           inversion Hrest as [|? ? Hb _]; subst. cbn [app] in Hs.
           rewrite (@spaced_two_spaces _ _ _ _ _ Ha Hb) in Hs. discriminate.
Qed.

Lemma sub_space_punct_id s :
  forall held,
    spaced is_punct (match held with [] => false | _ => true end) s = true ->
    sub_space_punct held s = held ++ s.
Proof.
  induction s as [|c s IH]; intros held Hs; cbn.
  - rewrite app_nil_r. reflexivity.
  - cbn in Hs. destruct (isspace c) eqn:E.
    + apply andb_true_iff in Hs as [Hc Hs]. apply andb_true_iff in Hc as [_ Hb].
      destruct held; [|discriminate]. cbn. apply (IH [c]). exact Hs.
    + apply andb_true_iff in Hs as [Hc Hs].
      destruct (is_punct c) eqn:P.
      * destruct held; [|discriminate]. cbn. rewrite (IH [] Hs). reflexivity.
      * rewrite (IH [] Hs). reflexivity.
Qed.

Lemma head_outside_space s :
  Forall (fun c => isspace c = true -> c = 32%N) s ->
  head_outside is_space_or_hyphen s -> head_outside isspace s.
Proof.
  destruct s as [|c s]; cbn; [tauto|].
  intros Hall Hc. inversion Hall as [|? ? H32 _]; subst.
  destruct (isspace c) eqn:E; [|reflexivity].
  rewrite (H32 eq_refl) in Hc. discriminate.
Qed.

Lemma normalize_normal x :
  let t := normalize x in
  spaced is_punct false t = true
  /\ head_outside is_space_or_hyphen t
  /\ head_outside is_space_or_hyphen (rev t).
Proof.
  cbn zeta. unfold normalize.
  set (y1 := sub_spaces false (strip x)).
  assert (H1 : spaced (fun _ => false) false y1 = true) by apply sub_spaces_spaced.
  assert (H2 : spaced (fun _ => false) false (strip y1) = true).
  { destruct (strip_by_prefix isspace y1) as (l & r & Hlr). unfold strip.
    apply (spaced_infix _ l _ r false). rewrite <- Hlr. exact H1. }
  assert (H3 : spaced is_punct false (sub_space_punct [] (strip y1)) = true).
  { apply sub_space_punct_spaced; [exact H2|constructor]. }
  split; [|apply strip_by_ends].
  destruct (strip_by_prefix is_space_or_hyphen (sub_space_punct [] (strip y1)))
    as (l & r & Hlr).
  apply (spaced_infix _ l _ r false). rewrite <- Hlr. exact H3.
Qed.

Lemma normalize_fixed t :
  spaced is_punct false t = true ->
  head_outside is_space_or_hyphen t ->
  head_outside is_space_or_hyphen (rev t) ->
  normalize t = t.
Proof.
  intros Hs Hh Hl. unfold normalize.
  pose proof (spaced_space_is_32 _ _ _ Hs) as H32.
  assert (Hstrip : strip t = t).
  { apply strip_by_id; apply head_outside_space; try assumption.
    apply Forall_rev. exact H32. }
  rewrite Hstrip, (sub_spaces_id _ _ _ Hs), Hstrip.
  rewrite (sub_space_punct_id t [] Hs). cbn [app].
  apply strip_by_id; assumption.
Qed.

Lemma normalize_idempotent x : normalize (normalize x) = normalize x.
Proof.
  destruct (normalize_normal x) as (Hs & Hh & Hl). apply normalize_fixed; assumption.
Qed.

(** *** The steps before them, on a string they leave alone *)

Lemma sub_oneself_id s :
  forall prev, has_oneself prev s = false -> sub_oneself 0 prev s = s.
Proof.
  induction s as [|c s IH]; intros prev Hno; cbn; [reflexivity|].
  cbn in Hno. apply orb_false_iff in Hno as [Hhere Hrest].
  rewrite Hhere, (IH _ Hrest). reflexivity.
Qed.

Lemma not_In_existsb (c : char) (s : str) :
  existsb (N.eqb c) s = false -> ~ In c s.
Proof.
  intros Hex Hin.
  assert (existsb (N.eqb c) s = true); [|congruence].
  apply existsb_exists. exists c. split; [exact Hin|apply N.eqb_refl].
Qed.

Lemma sub_parens_id (s : str) : ~ In 40%N s -> sub_parens None s = s.
Proof.
  induction s as [|c s IH]; intro Hno; cbn; [reflexivity|].
  destruct (N.eqb_spec c 40) as [->|_].
  - exfalso. apply Hno. left. reflexivity.
  - rewrite IH; [reflexivity|]. intro Hin. apply Hno. right. exact Hin.
Qed.

Lemma starts_with_head_neq x p c s :
  x <> c -> starts_with (x :: p) (c :: s) = false.
Proof.
  intro Hne. cbn [starts_with]. apply andb_false_iff. left.
  apply N.eqb_neq. exact Hne.
Qed.

Lemma starts_with_split p s :
  starts_with p s = true -> s = p ++ skipn (length p) s.
Proof.
  revert s. induction p as [|x p IH]; intros s Hs; [reflexivity|].
  destruct s as [|y s]; cbn in Hs; [discriminate|].
  apply andb_true_iff in Hs as [Hxy Hs]. apply N.eqb_eq in Hxy. subst y.
  cbn. f_equal. apply IH. exact Hs.
Qed.

Lemma replace_from_here old new c s :
  replace_from old new 0 (c :: s)
  = if starts_with old (c :: s)
    then new ++ replace_from old new (length old - 1) s
    else c :: replace_from old new 0 s.
Proof. reflexivity. Qed.

(** What [post_fix_definition] returns is in normal form. *)
Lemma post_fix_definition_normal keep s :
  exists x, post_fix_definition_with keep s = normalize x.
Proof.
  unfold post_fix_definition_with.
  destruct (subject_prefix_end SUBJECTS (sub_oneself 0 None s));
    eexists; reflexivity.
Qed.

(** *** The parenthesis step on a cleaned string *)

Lemma restore_match (m : str) :
  starts_with (U "__KEEP_IT__") m = true ->
  restore m = U "(it)" ++ restore (skipn 11 m).
Proof.
  intro Hs. rewrite (starts_with_split _ _ Hs) at 1.
  set (y := skipn 11 m). change (skipn (length (U "__KEEP_IT__")) m) with y.
  reflexivity.
Qed.

Lemma restore_skip (c : char) (m : str) :
  starts_with (U "__KEEP_IT__") (c :: m) = false ->
  restore (c :: m) = c :: restore m.
Proof.
  intro Hs. unfold restore, str_replace. rewrite replace_from_here, Hs. reflexivity.
Qed.

Lemma protect_skip (c : char) (x : str) :
  starts_with (U "(it)") (c :: x) = false ->
  protect (c :: x) = c :: protect x.
Proof.
  intro Hs. unfold protect, str_replace. rewrite replace_from_here, Hs. reflexivity.
Qed.

Lemma str_length_ind (Q : str -> Prop) :
  (forall m, (forall m', (length m' < length m)%nat -> Q m') -> Q m) ->
  forall m, Q m.
Proof.
  intros Hstep m. remember (length m) as n eqn:Hn. revert m Hn.
  induction n as [n IH] using lt_wf_ind. intros m ->.
  apply Hstep. intros m' Hlt. exact (IH _ Hlt m' eq_refl).
Qed.

(** How [restore] reads a text: nothing, a placeholder, or a character
    that starts none. *)
Lemma restore_cases (m : str) :
  m = []
  \/ (exists m', m = U "__KEEP_IT__" ++ m'
                 /\ restore m = U "(it)" ++ restore m')
  \/ (exists c m', m = c :: m'
                   /\ starts_with (U "__KEEP_IT__") (c :: m') = false
                   /\ restore m = c :: restore m').
Proof.
  destruct m as [|c m']; [left; reflexivity|right].
  destruct (starts_with (U "__KEEP_IT__") (c :: m')) eqn:E.
  - left. exists (skipn 11 (c :: m')). split.
    + exact (starts_with_split _ _ E).
    + apply restore_match. exact E.
  - right. exists c, m'. split; [reflexivity|]. split; [exact E|].
    apply restore_skip. exact E.
Qed.

(** *** Texts without a parenthesised span *)

Lemma no_close_span_free (x : str) : ~ In 41%N x -> span_free x.
Proof.
  induction x as [|c x IH]; intro Hno; cbn [span_free]; [exact I|]. split.
  - intros _ Hin. apply Hno. right. exact Hin.
  - apply IH. intro Hin. apply Hno. right. exact Hin.
Qed.

Lemma span_free_app_l (a b : str) : span_free (a ++ b) -> span_free a.
Proof.
  induction a as [|c a IH]; cbn [app span_free]; [intros _; exact I|].
  intros [Hc Hrest]. split; [|apply IH; exact Hrest].
  intros Hc40 Hin. apply (Hc Hc40). apply in_or_app. left. exact Hin.
Qed.

Lemma span_free_app_r (a b : str) : span_free (a ++ b) -> span_free b.
Proof.
  induction a as [|c a IH]; cbn [app span_free]; [intro Hb; exact Hb|].
  intros [_ Hrest]. apply IH. exact Hrest.
Qed.

Lemma span_free_app (a b : str) :
  ~ In 40%N a -> span_free b -> span_free (a ++ b).
Proof.
  intros Hno Hb. induction a as [|c a IH]; cbn [app span_free]; [exact Hb|].
  split.
  - intros Hc. exfalso. apply Hno. left. exact Hc.
  - apply IH. intro Hin. apply Hno. right. exact Hin.
Qed.

Lemma sub_parens_held_open (s : str) :
  ~ In 41%N s -> forall h, sub_parens (Some h) s = h ++ s.
Proof.
  induction s as [|c s IH]; intros Hno h; cbn [sub_parens].
  - rewrite app_nil_r. reflexivity.
  - destruct (N.eqb_spec c 41) as [->|Hc]; [exfalso; apply Hno; left; reflexivity|].
    rewrite IH, <- app_assoc; [reflexivity|].
    intro Hin. apply Hno. right. exact Hin.
Qed.

Lemma span_free_sub_parens_id (m : str) : span_free m -> sub_parens None m = m.
Proof.
  induction m as [|c m IH]; cbn [span_free sub_parens]; [reflexivity|].
  intros [Hc Hm]. destruct (N.eqb_spec c 40) as [->|Hne].
  - rewrite sub_parens_held_open; [reflexivity|]. apply Hc. reflexivity.
  - rewrite (IH Hm). reflexivity.
Qed.

Lemma sub_parens_span_free (s : str) :
  span_free (sub_parens None s)
  /\ forall h, ~ In 41%N h -> span_free (sub_parens (Some h) s).
Proof.
  induction s as [|c s [IH1 IH2]]; cbn [sub_parens].
  - split; [exact I|]. intros h Hh. apply no_close_span_free. exact Hh.
  - split.
    + destruct (N.eqb_spec c 40) as [->|Hne].
      * apply IH2. intros [Habs|[]]. discriminate.
      * cbn [span_free]. split; [intro; contradiction|exact IH1].
    + intros h Hh. destruct (N.eqb_spec c 41) as [->|Hne]; [exact IH1|].
      apply IH2. intro Hin. apply in_app_or in Hin as [Hin|[Hin|[]]].
      * exact (Hh Hin).
      * exact (Hne Hin).
Qed.

(** A closing parenthesis after characters without an opening one is not
    made by restoring placeholders. *)
Lemma restore_no_close (p : str) :
  ~ In 40%N p ->
  forall y, ~ In 41%N y -> starts_with (p ++ [41%N]) (restore y) = false.
Proof.
  induction p as [|x p IH]; intros Hp y Hy; cbn [app].
  - destruct (restore_cases y) as [->|[(m' & -> & ->)|(c & m' & -> & _ & ->)]].
    + reflexivity.
    + reflexivity.
    + apply starts_with_head_neq. intro Heq. apply Hy. left. symmetry. exact Heq.
  - assert (Hx : x <> 40%N) by (intro; apply Hp; left; congruence).
    assert (Hp' : ~ In 40%N p) by (intro; apply Hp; right; assumption).
    destruct (restore_cases y) as [->|[(m' & -> & ->)|(c & m' & -> & _ & ->)]].
    + reflexivity.
    + apply starts_with_head_neq. exact Hx.
    + cbn [starts_with]. rewrite (IH Hp' m'); [apply andb_false_r|].
      intro Hin. apply Hy. right. exact Hin.
Qed.

(** Protecting what was restored gives the placeholders back, in a text
    without a parenthesised span. *)
Lemma protect_restore_span_free :
  forall m : str, span_free m -> protect (restore m) = m.
Proof.
  apply (str_length_ind (fun m => span_free m -> protect (restore m) = m)).
  intros m IH Hfree.
  destruct (restore_cases m) as [->|[(m' & -> & ->)|(c & m' & -> & _ & ->)]].
  - reflexivity.
  - change (protect (U "(it)" ++ restore m')) with (U "__KEEP_IT__" ++ protect (restore m')).
    rewrite IH; [reflexivity| |].
    + rewrite length_app. cbn. lia.
    + exact (span_free_app_r _ _ Hfree).
  - destruct Hfree as [Hc Hm'].
    rewrite protect_skip, IH; [reflexivity|cbn; lia|exact Hm'|].
    destruct (N.eq_dec c 40) as [->|Hne].
    + exact (@restore_no_close (U "it") ltac:(vm_compute; intuition discriminate)
               m' (Hc eq_refl)).
    + apply starts_with_head_neq. intro Heq. apply Hne. symmetry. exact Heq.
Qed.

(** The parenthesis step leaves a restored text as it is. *)
Lemma paren_step_restored (x : str) : restored x -> paren_step x = x.
Proof.
  intros (m & Hfree & <-). unfold paren_step.
  rewrite (protect_restore_span_free _ Hfree), (span_free_sub_parens_id _ Hfree).
  reflexivity.
Qed.

Lemma paren_step_is_restored (r : str) : restored (paren_step r).
Proof.
  exists (sub_parens None (protect r)). split; [|reflexivity].
  apply sub_parens_span_free.
Qed.

(** *** The whitespace steps on a restored text *)

Lemma restore_other (c : char) (m : str) :
  c <> 95%N -> restore (c :: m) = c :: restore m.
Proof.
  intro Hc. apply restore_skip. apply starts_with_head_neq.
  intro Heq. apply Hc. symmetry. exact Heq.
Qed.

Lemma restore_app_other (a m : str) :
  ~ In 95%N a -> restore (a ++ m) = a ++ restore m.
Proof.
  induction a as [|c a IH]; intro Hno; cbn [app]; [reflexivity|].
  rewrite restore_other, IH; [reflexivity| |].
  - intro Hin. apply Hno. right. exact Hin.
  - intro Heq. apply Hno. left. exact Heq.
Qed.

Lemma starts_with_sub_spaces (p : str) :
  Forall (fun x => isspace x = false) p ->
  forall y, starts_with p (sub_spaces false y) = starts_with p y.
Proof.
  induction 1 as [|x p Hx _ IH]; intro y; [reflexivity|].
  destruct y as [|c y]; [reflexivity|]. cbn [sub_spaces].
  destruct (isspace c) eqn:Hc.
  - rewrite !starts_with_head_neq; [reflexivity| |]; intros ->;
      first [congruence|vm_compute in Hx; discriminate].
  - cbn [starts_with]. rewrite IH. reflexivity.
Qed.

Lemma restore_sub_spaces :
  forall (m : str) b, restore (sub_spaces b m) = sub_spaces b (restore m).
Proof.
  apply (str_length_ind
           (fun m => forall b, restore (sub_spaces b m) = sub_spaces b (restore m))).
  intros m IH b.
  destruct (restore_cases m) as [->|[(m' & -> & ->)|(c & m' & -> & Hs & ->)]].
  - reflexivity.
  - change (sub_spaces b (U "__KEEP_IT__" ++ m'))
      with (U "__KEEP_IT__" ++ sub_spaces false m').
    change (sub_spaces b (U "(it)" ++ restore m'))
      with (U "(it)" ++ sub_spaces false (restore m')).
    change (restore (U "__KEEP_IT__" ++ sub_spaces false m'))
      with (U "(it)" ++ restore (sub_spaces false m')).
    rewrite IH; [reflexivity|]. rewrite length_app. cbn. lia.
  - cbn [sub_spaces]. destruct (isspace c) eqn:Hc.
    + destruct b.
      * apply IH. cbn. lia.
      * rewrite restore_other by discriminate. rewrite IH by (cbn; lia). reflexivity.
    + rewrite restore_skip, IH; [reflexivity|cbn; lia|].
      destruct (N.eq_dec c 95) as [->|Hne].
      * change (starts_with (U "_KEEP_IT__") (sub_spaces false m') = false).
        change (starts_with (U "_KEEP_IT__") m' = false) in Hs.
        rewrite starts_with_sub_spaces; [exact Hs|]. repeat constructor.
      * apply starts_with_head_neq. intro Heq. apply Hne. symmetry. exact Heq.
Qed.

Lemma In_sub_spaces (x : char) (m : str) b :
  isspace x = false -> In x (sub_spaces b m) -> In x m.
Proof.
  intro Hx. revert b. induction m as [|c m IH]; intros b; cbn [sub_spaces]; [intros []|].
  destruct (isspace c) eqn:Hc.
  - destruct b.
    + intro Hin. right. exact (IH _ Hin).
    + intros [Heq|Hin]; [subst x; discriminate|right; exact (IH _ Hin)].
  - intros [Heq|Hin]; [left; exact Heq|right; exact (IH _ Hin)].
Qed.

Lemma span_free_sub_spaces (m : str) b :
  span_free m -> span_free (sub_spaces b m).
Proof.
  revert b. induction m as [|c m IH]; intros b; cbn [sub_spaces span_free];
    [intros _; exact I|].
  intros [Hc Hm]. destruct (isspace c) eqn:Hs.
  - destruct b; [apply IH; exact Hm|]. cbn [span_free].
    split; [discriminate|apply IH; exact Hm].
  - cbn [span_free]. split; [|apply IH; exact Hm].
    intros Hc40 Hin. apply (Hc Hc40).
    exact (@In_sub_spaces 41%N m false eq_refl Hin).
Qed.

Lemma restored_sub_spaces (x : str) b : restored x -> restored (sub_spaces b x).
Proof.
  intros (m & Hfree & <-). exists (sub_spaces b m).
  split; [apply span_free_sub_spaces; exact Hfree|apply restore_sub_spaces].
Qed.

Lemma spaces_no_underscore (held : str) :
  Forall (fun c => isspace c = true) held -> ~ In 95%N held.
Proof.
  intros Hall Hin. apply (proj1 (Forall_forall _ _) Hall) in Hin. discriminate.
Qed.

Lemma spaces_no_paren (held : str) :
  Forall (fun c => isspace c = true) held -> ~ In 40%N held /\ ~ In 41%N held.
Proof.
  intros Hall. split; intro Hin;
    apply (proj1 (Forall_forall _ _) Hall) in Hin; discriminate.
Qed.

Lemma sub_space_punct_first (y : str) :
  forall (h : char) (held : str),
    exists a rest,
      sub_space_punct (h :: held) y = a :: rest
      /\ (a = h \/ is_punct a = true).
Proof.
  induction y as [|c y IH]; intros h held; cbn [sub_space_punct].
  - exists h, held. split; [reflexivity|left; reflexivity].
  - destruct (isspace c); [apply (IH h (held ++ [c]))|].
    destruct (is_punct c) eqn:Hp.
    + exists c, (sub_space_punct [] y). split; [reflexivity|right; exact Hp].
    + exists h, (held ++ c :: sub_space_punct [] y). split; [reflexivity|left; reflexivity].
Qed.

Lemma starts_with_sub_space_punct (p : str) :
  Forall (fun x => isspace x = false /\ is_punct x = false) p ->
  forall y, starts_with p (sub_space_punct [] y) = starts_with p y.
Proof.
  induction 1 as [|x p [Hx Hxp] _ IH]; intro y; [reflexivity|].
  destruct y as [|c y]; [reflexivity|]. cbn [sub_space_punct].
  destruct (isspace c) eqn:Hc.
  - cbn [app]. destruct (sub_space_punct_first y c []) as (a & rest & -> & Ha).
    rewrite !starts_with_head_neq; [reflexivity| |]; intros ->;
      destruct Ha as [->|Ha]; congruence.
  - destruct (is_punct c) eqn:Hp.
    + rewrite !starts_with_head_neq; [reflexivity| |]; intros ->; congruence.
    + cbn [app starts_with]. rewrite IH. reflexivity.
Qed.

Lemma restore_sub_space_punct :
  forall (m held : str),
    Forall (fun c => isspace c = true) held ->
    restore (sub_space_punct held m) = sub_space_punct held (restore m).
Proof.
  apply (str_length_ind
           (fun m => forall held,
                Forall (fun c => isspace c = true) held ->
                restore (sub_space_punct held m)
                = sub_space_punct held (restore m))).
  intros m IH held Hheld. pose proof (spaces_no_underscore Hheld) as Hno.
  destruct (restore_cases m) as [->|[(m' & -> & ->)|(c & m' & -> & Hs & ->)]].
  - cbn [sub_space_punct]. rewrite <- (app_nil_r held) at 1.
    rewrite (@restore_app_other _ _ Hno). cbn. apply app_nil_r.
  - change (sub_space_punct held (U "__KEEP_IT__" ++ m'))
      with (held ++ U "__KEEP_IT__" ++ sub_space_punct [] m').
    change (sub_space_punct held (U "(it)" ++ restore m'))
      with (held ++ U "(it)" ++ sub_space_punct [] (restore m')).
    rewrite (@restore_app_other _ _ Hno).
    change (restore (U "__KEEP_IT__" ++ sub_space_punct [] m'))
      with (U "(it)" ++ restore (sub_space_punct [] m')).
    rewrite IH; [reflexivity| |constructor]. rewrite length_app. cbn. lia.
  - cbn [sub_space_punct]. destruct (isspace c) eqn:Hc.
    + apply IH; [cbn; lia|]. apply Forall_app. split; [exact Hheld|].
      constructor; [exact Hc|constructor].
    + destruct (is_punct c) eqn:Hp.
      * rewrite restore_other, IH; [reflexivity|cbn; lia|constructor|].
        intros ->. discriminate.
      * rewrite (@restore_app_other _ _ Hno).
        rewrite restore_skip, IH; [reflexivity|cbn; lia|constructor|].
        destruct (N.eq_dec c 95) as [->|Hne].
        -- change (starts_with (U "_KEEP_IT__") (sub_space_punct [] m') = false).
           change (starts_with (U "_KEEP_IT__") m' = false) in Hs.
           rewrite starts_with_sub_space_punct; [exact Hs|].
           repeat constructor.
        -- apply starts_with_head_neq. intro Heq. apply Hne. symmetry. exact Heq.
Qed.

Lemma In_sub_space_punct (x : char) (m : str) :
  forall held, In x (sub_space_punct held m) -> In x held \/ In x m.
Proof.
  induction m as [|c m IH]; intros held; cbn [sub_space_punct]; [intro; left; assumption|].
  destruct (isspace c).
  - intro Hin. apply IH in Hin as [Hin|Hin]; [|right; right; exact Hin].
    apply in_app_or in Hin as [Hin|[Hin|[]]]; [left; exact Hin|right; left; exact Hin].
  - destruct (is_punct c).
    + intros [Heq|Hin]; [right; left; exact Heq|].
      apply IH in Hin as [[]|Hin]. right. right. exact Hin.
    + intro Hin. apply in_app_or in Hin as [Hin|[Heq|Hin]];
        [left; exact Hin|right; left; exact Heq|].
      apply IH in Hin as [[]|Hin]. right. right. exact Hin.
Qed.

Lemma span_free_sub_space_punct (m : str) :
  forall held,
    Forall (fun c => isspace c = true) held ->
    span_free m -> span_free (sub_space_punct held m).
Proof.
  induction m as [|c m IH]; intros held Hheld; cbn [sub_space_punct span_free].
  - intros _. apply no_close_span_free. apply (spaces_no_paren Hheld).
  - intros [Hc Hm]. destruct (isspace c) eqn:Hs.
    + apply IH; [|exact Hm]. apply Forall_app. split; [exact Hheld|].
      constructor; [exact Hs|constructor].
    + assert (Hrest : span_free (c :: sub_space_punct [] m)).
      { cbn [span_free]. split; [|apply IH; [constructor|exact Hm]].
        intros Hc40 Hin. apply In_sub_space_punct in Hin as [[]|Hin].
        exact (Hc Hc40 Hin). }
      destruct (is_punct c); [exact Hrest|].
      apply span_free_app; [apply (spaces_no_paren Hheld)|exact Hrest].
Qed.

Lemma restored_sub_space_punct (x : str) :
  restored x -> restored (sub_space_punct [] x).
Proof.
  intros (m & Hfree & <-). exists (sub_space_punct [] m). split.
  - apply span_free_sub_space_punct; [constructor|exact Hfree].
  - apply restore_sub_space_punct. constructor.
Qed.

(** *** Trimming a restored text *)

Lemma drop_while_app_keep f (l : char) (a b : str) :
  f l = false -> drop_while f (a ++ l :: b) = drop_while f a ++ l :: b.
Proof.
  intro Hl. induction a as [|c a IH]; cbn [app drop_while].
  - rewrite Hl. reflexivity.
  - destruct (f c); [exact IH|reflexivity].
Qed.

Lemma drop_while_app_all f (a b : str) :
  forallb f a = true -> drop_while f (a ++ b) = drop_while f b.
Proof.
  induction a as [|c a IH]; cbn [app forallb drop_while]; [reflexivity|].
  intro Hall. apply andb_true_iff in Hall as [-> Hall]. exact (IH Hall).
Qed.

Lemma drop_while_app_some f (a b : str) :
  forallb f a = false -> drop_while f (a ++ b) = drop_while f a ++ b.
Proof.
  induction a as [|c a IH]; cbn [app forallb drop_while]; [discriminate|].
  destruct (f c); [exact IH|reflexivity].
Qed.

Lemma forallb_rev_str f (x : str) : forallb f (rev x) = forallb f x.
Proof.
  induction x as [|c x IH]; [reflexivity|].
  cbn [rev forallb]. rewrite forallb_app, IH. cbn [forallb].
  rewrite andb_true_r. apply andb_comm.
Qed.

Lemma rstrip_by_app_keep f (l : char) (q y : str) :
  f l = false -> rstrip_by f (q ++ l :: y) = q ++ l :: rstrip_by f y.
Proof.
  intro Hl. unfold rstrip_by. rewrite rev_app_distr. cbn [rev].
  rewrite <- app_assoc. cbn [app].
  rewrite (@drop_while_app_keep f l (rev y) (rev q) Hl).
  rewrite rev_app_distr. cbn [rev]. rewrite rev_involutive, <- app_assoc.
  reflexivity.
Qed.

Lemma rstrip_by_cons f (c : char) (x : str) :
  rstrip_by f (c :: x)
  = if f c && forallb f x then [] else c :: rstrip_by f x.
Proof.
  unfold rstrip_by. cbn [rev]. destruct (forallb f x) eqn:Hall.
  - assert (Hrev : forallb f (rev x) = true)
      by (rewrite forallb_rev_str; exact Hall).
    assert (Hnil : drop_while f (rev x) = []).
    { rewrite <- (app_nil_r (rev x)). exact (drop_while_app_all _ _ [] Hrev). }
    rewrite (drop_while_app_all _ _ [c] Hrev), Hnil.
    rewrite andb_true_r. cbn [drop_while]. destruct (f c); reflexivity.
  - rewrite drop_while_app_some by (rewrite forallb_rev_str; exact Hall).
    rewrite andb_false_r, rev_app_distr. reflexivity.
Qed.

Lemma rstrip_by_prefix f (s : str) : exists w, s = rstrip_by f s ++ w.
Proof.
  unfold rstrip_by. destruct (drop_while_suffix f (rev s)) as [l Hl].
  exists (rev l). rewrite <- rev_app_distr, <- Hl, rev_involutive. reflexivity.
Qed.

Lemma strip_by_rstrip f (s : str) : strip_by f s = rstrip_by f (drop_while f s).
Proof. reflexivity. Qed.

Lemma starts_with_rstrip_by f (p : str) :
  Forall (fun x => f x = false) p ->
  forall y, starts_with p (rstrip_by f y) = starts_with p y.
Proof.
  induction 1 as [|x p Hx _ IH]; intro y; [reflexivity|].
  destruct y as [|c y]; [reflexivity|]. rewrite rstrip_by_cons.
  destruct (f c && forallb f y) eqn:Hall.
  - apply andb_true_iff in Hall as [Hc _]. symmetry.
    apply starts_with_head_neq. intros ->. congruence.
  - cbn [starts_with]. rewrite IH. reflexivity.
Qed.

(** [f] is a class of characters to trim ([strip], [rstrip], [lstrip])
    that has neither a parenthesis nor a character of the placeholder. *)
Section Trimming.
Variable f : char -> bool.
Hypothesis f_underscore : f 95%N = false.
Hypothesis f_open : f 40%N = false.
Hypothesis f_close : f 41%N = false.
Hypothesis f_placeholder : Forall (fun x => f x = false) (U "_KEEP_IT__").

Lemma forallb_restore : forall m : str, forallb f (restore m) = forallb f m.
Proof.
  apply (str_length_ind (fun m => forallb f (restore m) = forallb f m)).
  intros m IH.
  destruct (restore_cases m) as [->|[(m' & -> & ->)|(c & m' & -> & _ & ->)]].
  - reflexivity.
  - change (forallb f (U "(it)" ++ restore m')) with (f 40%N && forallb f (U "it)" ++ restore m')).
    change (forallb f (U "__KEEP_IT__" ++ m')) with (f 95%N && forallb f (U "_KEEP_IT__" ++ m')).
    rewrite f_open, f_underscore. reflexivity.
  - cbn [forallb]. rewrite IH; [reflexivity|cbn; lia].
Qed.

Lemma restore_drop_while :
  forall m : str, restore (drop_while f m) = drop_while f (restore m).
Proof.
  induction m as [|c m IH]; [reflexivity|]. cbn [drop_while].
  destruct (f c) eqn:Hc.
  - rewrite (@restore_other c m) by (intros ->; congruence).
    cbn [drop_while]. rewrite Hc. exact IH.
  - destruct (restore_cases (c :: m)) as [Habs|[(m' & _ & ->)|(c' & m'' & Heq & _ & ->)]].
    + discriminate.
    + change (drop_while f (U "(it)" ++ restore m'))
        with (if f 40%N then drop_while f (U "it)" ++ restore m')
              else U "(it)" ++ restore m').
      rewrite f_open. reflexivity.
    + injection Heq as <- <-. cbn [drop_while]. rewrite Hc. reflexivity.
Qed.

Lemma restore_rstrip_by :
  forall m : str, restore (rstrip_by f m) = rstrip_by f (restore m).
Proof.
  apply (str_length_ind
           (fun m => restore (rstrip_by f m) = rstrip_by f (restore m))).
  intros m IH.
  destruct (restore_cases m) as [->|[(m' & -> & ->)|(c & m' & -> & Hs & ->)]].
  - reflexivity.
  - change (U "__KEEP_IT__" ++ m') with (U "__KEEP_IT_" ++ 95%N :: m').
    rewrite (@rstrip_by_app_keep f 95%N _ m' f_underscore).
    change (U "(it)" ++ restore m') with (U "(it" ++ 41%N :: restore m').
    rewrite (@rstrip_by_app_keep f 41%N _ (restore m') f_close).
    change (restore (U "__KEEP_IT_" ++ 95%N :: rstrip_by f m'))
      with (U "(it)" ++ restore (rstrip_by f m')).
    rewrite IH; [reflexivity|]. rewrite length_app. cbn. lia.
  - rewrite !rstrip_by_cons, forallb_restore.
    destruct (f c && forallb f m') eqn:Hall; [reflexivity|].
    rewrite restore_skip, IH; [reflexivity|cbn; lia|].
    destruct (N.eq_dec c 95) as [->|Hne].
    + change (starts_with (U "_KEEP_IT__") (rstrip_by f m') = false).
      change (starts_with (U "_KEEP_IT__") m' = false) in Hs.
      rewrite (@starts_with_rstrip_by f _ f_placeholder). exact Hs.
    + apply starts_with_head_neq. intro Heq. apply Hne. symmetry. exact Heq.
Qed.

Lemma restored_drop_while (x : str) : restored x -> restored (drop_while f x).
Proof.
  intros (m & Hfree & <-). exists (drop_while f m). split.
  - destruct (drop_while_suffix f m) as [l Hl]. rewrite Hl in Hfree.
    exact (span_free_app_r _ _ Hfree).
  - apply restore_drop_while.
Qed.

Lemma restored_rstrip_by (x : str) : restored x -> restored (rstrip_by f x).
Proof.
  intros (m & Hfree & <-). exists (rstrip_by f m). split.
  - destruct (rstrip_by_prefix f m) as [w Hw]. rewrite Hw in Hfree.
    exact (span_free_app_l _ _ Hfree).
  - apply restore_rstrip_by.
Qed.

Lemma restored_strip_by (x : str) : restored x -> restored (strip_by f x).
Proof.
  intro Hx. rewrite strip_by_rstrip.
  apply restored_rstrip_by, restored_drop_while. exact Hx.
Qed.

End Trimming.

Lemma restored_strip (x : str) : restored x -> restored (strip x).
Proof.
  intro Hx. unfold strip.
  apply restored_strip_by; first [exact Hx|reflexivity|repeat constructor].
Qed.

Lemma restored_strip_space_hyphen (x : str) :
  restored x -> restored (strip_by is_space_or_hyphen x).
Proof.
  intro Hx.
  apply restored_strip_by; first [exact Hx|reflexivity|repeat constructor].
Qed.

Lemma restored_rstrip (x : str) : restored x -> restored (rstrip_by isspace x).
Proof.
  intro Hx.
  apply restored_rstrip_by; first [exact Hx|reflexivity|repeat constructor].
Qed.

Lemma restored_rstrip_space_hyphen (x : str) :
  restored x -> restored (rstrip_by is_space_or_hyphen x).
Proof.
  intro Hx.
  apply restored_rstrip_by; first [exact Hx|reflexivity|repeat constructor].
Qed.

Lemma restored_lstrip (x : str) : restored x -> restored (drop_while isspace x).
Proof.
  intro Hx.
  apply restored_drop_while; first [exact Hx|reflexivity|repeat constructor].
Qed.

Lemma restored_normalize (x : str) : restored x -> restored (normalize x).
Proof.
  intro Hx. unfold normalize.
  apply restored_strip_space_hyphen, restored_sub_space_punct, restored_strip,
    restored_sub_spaces, restored_strip.
  exact Hx.
Qed.

Lemma restored_app_spaces (ws x : str) :
  Forall (fun c => isspace c = true) ws -> restored x -> restored (ws ++ x).
Proof.
  intros Hws (m & Hfree & <-). exists (ws ++ m). split.
  - apply span_free_app; [apply (spaces_no_paren Hws)|exact Hfree].
  - apply restore_app_other. exact (spaces_no_underscore Hws).
Qed.

(** *** The subject prefix of a cleaned string *)

Lemma take_while_all f (z : str) : Forall (fun c => f c = true) (take_while f z).
Proof.
  induction z as [|c z IH]; cbn [take_while]; [constructor|].
  destruct (f c) eqn:Hc; constructor; assumption.
Qed.

Lemma firstn_take_while f (z : str) :
  firstn (length (take_while f z)) z = take_while f z.
Proof.
  induction z as [|c z IH]; cbn [take_while]; [reflexivity|].
  destruct (f c); [|reflexivity]. cbn [length firstn]. rewrite IH. reflexivity.
Qed.

Lemma skipn_take_while f (z : str) :
  skipn (length (take_while f z)) z = drop_while f z.
Proof.
  induction z as [|c z IH]; cbn [take_while drop_while]; [reflexivity|].
  destruct (f c); [|reflexivity]. cbn [length skipn]. exact IH.
Qed.

Lemma firstn_marker f (h z : str) :
  firstn (length h + length (take_while f z)) (h ++ z) = h ++ take_while f z.
Proof. rewrite firstn_app_2, firstn_take_while. reflexivity. Qed.

Lemma skipn_marker f (h z : str) :
  skipn (length h + length (take_while f z)) (h ++ z) = drop_while f z.
Proof.
  rewrite skipn_app, skipn_all2 by lia.
  replace (length h + length (take_while f z) - length h)%nat
    with (length (take_while f z)) by lia.
  apply skipn_take_while.
Qed.

Lemma starts_with_app_self (p z : str) : starts_with p (p ++ z) = true.
Proof.
  induction p as [|x p IH]; [reflexivity|]. cbn [app starts_with].
  rewrite N.eqb_refl. exact IH.
Qed.

(** A match of the subject prefix pattern: the marker of a subject, then
    the whitespace after it. *)
Lemma subject_prefix_end_Some (subjects : list str) (d : str) (e : nat) :
  subject_prefix_end subjects d = Some e ->
  exists a z,
    In a subjects
    /\ d = (U "(" ++ a ++ U ")") ++ z
    /\ e = (length (U "(" ++ a ++ U ")") + length (take_while isspace z))%nat.
Proof.
  induction subjects as [|a more IH]; cbn [subject_prefix_end]; [discriminate|].
  cbv zeta. set (head := U "(" ++ a ++ U ")").
  assert (Hmore : subject_prefix_end more d = Some e ->
                  exists a0 z,
                    In a0 (a :: more)
                    /\ d = (U "(" ++ a0 ++ U ")") ++ z
                    /\ e = (length (U "(" ++ a0 ++ U ")")
                            + length (take_while isspace z))%nat).
  { intro Hm. destruct (IH Hm) as (a0 & z & Hin & Hd & He).
    exists a0, z. split; [right; exact Hin|]. split; assumption. }
  destruct (starts_with head d) eqn:Hs; [|exact Hmore].
  destruct (length (take_while isspace (skipn (length head) d))) as [|k] eqn:Hk;
    [exact Hmore|].
  intro He. injection He as <-.
  exists a, (skipn (length head) d). split; [left; reflexivity|]. split.
  - exact (starts_with_split _ _ Hs).
  - rewrite Hk. reflexivity.
Qed.

Lemma subject_prefix_end_None (subjects : list str) (d : str) :
  (forall a, In a subjects -> starts_with (U "(" ++ a ++ U ")") d = false) ->
  subject_prefix_end subjects d = None.
Proof.
  induction subjects as [|a more IH]; intro Hno; cbn [subject_prefix_end];
    [reflexivity|].
  cbv zeta. rewrite (Hno a (or_introl eq_refl)).
  apply IH. intros a0 Hin. apply Hno. right. exact Hin.
Qed.

Lemma subject_prefix_end_marker (a z : str) :
  In a SUBJECTS ->
  subject_prefix_end SUBJECTS ((U "(" ++ a ++ U ")") ++ z)
  = match length (take_while isspace z) with
    | O => None
    | S k => Some (length (U "(" ++ a ++ U ")") + S k)%nat
    end.
Proof.
  intros [<-|[<-|[<-|[<-|[<-|[]]]]]]; reflexivity.
Qed.

Lemma subjects_no_open (a : str) : In a SUBJECTS -> ~ In 40%N a.
Proof.
  intros [<-|[<-|[<-|[<-|[<-|[]]]]]];
    apply not_In_existsb; reflexivity.
Qed.

(** A restored text does not begin with the marker of a subject. *)
Lemma restored_no_marker (x a : str) :
  restored x -> In a SUBJECTS -> starts_with (U "(" ++ a ++ U ")") x = false.
Proof.
  intros (m & Hfree & <-) Hin.
  destruct (restore_cases m) as [->|[(m' & -> & ->)|(c & m' & -> & _ & ->)]].
  - reflexivity.
  - destruct Hin as [<-|[<-|[<-|[<-|[<-|[]]]]]]; reflexivity.
  - destruct (N.eq_dec c 40) as [->|Hne].
    + destruct Hfree as [Hclose _].
      change (starts_with (U "(" ++ a ++ U ")") (40%N :: restore m'))
        with ((40 =? 40)%N && starts_with (a ++ [41%N]) (restore m')).
      rewrite (@restore_no_close a (@subjects_no_open a Hin) m' (Hclose eq_refl)).
      reflexivity.
    + apply starts_with_head_neq. intro Heq. apply Hne. symmetry. exact Heq.
Qed.

Lemma restored_no_prefix (x : str) :
  restored x -> subject_prefix_end SUBJECTS x = None.
Proof.
  intro Hx. apply subject_prefix_end_None. intros a Hin.
  exact (restored_no_marker Hx Hin).
Qed.

Lemma strip_by_marker f (a y : str) :
  f 40%N = false -> f 41%N = false ->
  strip_by f ((U "(" ++ a ++ U ")") ++ y) = (U "(" ++ a ++ U ")") ++ rstrip_by f y.
Proof.
  intros H40 H41.
  assert (Heq : forall u : str,
             (U "(" ++ a ++ U ")") ++ u = (40%N :: a) ++ 41%N :: u).
  { intro u. cbn. rewrite <- app_assoc. reflexivity. }
  rewrite !Heq, strip_by_rstrip. cbn [app drop_while]. rewrite H40.
  exact (@rstrip_by_app_keep f 41%N (40%N :: a) y H41).
Qed.

Lemma sub_spaces_marker (a t : str) :
  In a SUBJECTS ->
  sub_spaces false ((U "(" ++ a ++ U ")") ++ t)
  = (U "(" ++ a ++ U ")") ++ sub_spaces false t.
Proof.
  intros [<-|[<-|[<-|[<-|[<-|[]]]]]]; reflexivity.
Qed.

Lemma sub_space_punct_marker (a t : str) :
  In a SUBJECTS ->
  sub_space_punct [] ((U "(" ++ a ++ U ")") ++ t)
  = (U "(" ++ a ++ U ")") ++ sub_space_punct [] t.
Proof.
  intros [<-|[<-|[<-|[<-|[<-|[]]]]]]; reflexivity.
Qed.

(** The whitespace steps keep the marker of a subject, and keep what
    follows it restored. *)
Lemma normalize_marker (a y : str) :
  In a SUBJECTS ->
  exists y',
    normalize ((U "(" ++ a ++ U ")") ++ y) = (U "(" ++ a ++ U ")") ++ y'
    /\ (restored y -> restored y').
Proof.
  intro Hin. unfold normalize, strip.
  rewrite (@strip_by_marker isspace a y eq_refl eq_refl).
  rewrite (@sub_spaces_marker a _ Hin).
  rewrite (@strip_by_marker isspace a _ eq_refl eq_refl).
  rewrite (@sub_space_punct_marker a _ Hin).
  rewrite (@strip_by_marker is_space_or_hyphen a _ eq_refl eq_refl).
  eexists. split; [reflexivity|]. intro Hy.
  apply restored_rstrip_space_hyphen, restored_sub_space_punct, restored_rstrip,
    restored_sub_spaces, restored_rstrip.
  exact Hy.
Qed.

(** *** Cleaning a cleaned string *)

Lemma post_fix_definition_eq (s : str) :
  post_fix_definition s
  = match subject_prefix_end SUBJECTS (sub_oneself 0 None s) with
    | Some e =>
        normalize (firstn e (sub_oneself 0 None s)
                   ++ paren_step (skipn e (sub_oneself 0 None s)))
    | None => normalize (paren_step (sub_oneself 0 None s))
    end.
Proof.
  unfold post_fix_definition, post_fix_definition_with, KEEP_IT_PARENS.
  destruct (subject_prefix_end SUBJECTS (sub_oneself 0 None s)); reflexivity.
Qed.

(** What follows the subject prefix of a cleaned string is a restored
    text, when whitespace still follows a leading marker. *)
Lemma cleaned_rest_restored (s : str) :
  keeps_subject_space (post_fix_definition s) ->
  restored (rest_after_prefix (post_fix_definition s)).
Proof.
  rewrite post_fix_definition_eq. set (d := sub_oneself 0 None s).
  destruct (subject_prefix_end SUBJECTS d) as [e|] eqn:He.
  - destruct (subject_prefix_end_Some _ _ He) as (a & z & Hin & Hd & ->).
    rewrite Hd, firstn_marker, skipn_marker, <- app_assoc.
    destruct (@normalize_marker a
                (take_while isspace z ++ paren_step (drop_while isspace z)) Hin)
      as (y' & -> & Hy').
    assert (Hres : restored y').
    { apply Hy', restored_app_spaces;
        [apply take_while_all|apply paren_step_is_restored]. }
    intro Hkeep. unfold rest_after_prefix.
    pose proof (Hkeep a Hin (starts_with_app_self _ _)) as Hsome.
    rewrite (@subject_prefix_end_marker a y' Hin) in Hsome |- *.
    destruct (length (take_while isspace y')) as [|k] eqn:Hk;
      [exfalso; apply Hsome; reflexivity|].
    rewrite <- Hk, skipn_marker. apply restored_lstrip. exact Hres.
  - intros _.
    assert (Hres : restored (normalize (paren_step d)))
      by apply restored_normalize, paren_step_is_restored.
    unfold rest_after_prefix. rewrite (restored_no_prefix Hres). exact Hres.
Qed.

(** A string in normal form, without "oneself" and with nothing for the
    parenthesis step to remove, is cleaned to itself. *)
Lemma post_fix_definition_fixed (t : str) :
  normalize t = t ->
  has_oneself None t = false ->
  paren_step (rest_after_prefix t) = rest_after_prefix t ->
  post_fix_definition t = t.
Proof.
  intros Hnorm Hone Hstep. rewrite post_fix_definition_eq.
  rewrite (sub_oneself_id t None Hone). unfold rest_after_prefix in Hstep.
  destruct (subject_prefix_end SUBJECTS t) as [e|].
  - rewrite Hstep, firstn_skipn. exact Hnorm.
  - rewrite Hstep. exact Hnorm.
Qed.

(** C5 (amended). Cleaning a cleaned string changes nothing, provided the
    cleaned string [t] has no whole-word "oneself" (whatever the case) and,
    when [t] begins with the marker "(SUBJECT)" of an allowed subject,
    whitespace follows the marker in [t], so that the marker is found again
    as the subject prefix. *)
Theorem post_fix_definition_idempotent_when (s : str) :
  let t := post_fix_definition s in
  has_oneself None t = false ->
  keeps_subject_space t ->
  post_fix_definition t = t.
Proof.
  cbn zeta. intros Hone Hkeep. apply post_fix_definition_fixed.
  - destruct (post_fix_definition_normal KEEP_IT_PARENS s) as [x Hx].
    fold (post_fix_definition s) in Hx. rewrite Hx. apply normalize_idempotent.
  - exact Hone.
  - apply paren_step_restored, cleaned_rest_restored. exact Hkeep.
Qed.

(** C6 (amended). The handling of "(it)" is the constant [KEEP_IT_PARENS]
    of the cleaner, set to keep: cleaning "to like (it)" returns it
    unchanged, with cleaning enabled or not; the branch the constant guards
    when false returns "to like". *)
Theorem keep_it_parens_is_a_constant :
  KEEP_IT_PARENS = true
  /\ post_fix_definition (U "to like (it)") = U "to like (it)"
  /\ post_fix_definition_with true (U "to like (it)") = U "to like (it)"
  /\ post_fix_definition_with false (U "to like (it)") = U "to like"
  /\ (forall apply_postfixes : bool,
        cleaned_of apply_postfixes (U "to like (it)") = U "to like (it)").
Proof.
  repeat split; try (vm_compute; reflexivity).
  intros [|]; vm_compute; reflexivity.
Qed.

End CleanerFacts.

(** C5, as stated, fails: the cleaner keeps the subject prefix of "(I) "
    and trims the space after it, and cleaning the result "(I)" again
    removes it as a parenthesized span. *)
Lemma post_fix_definition_not_idempotent :
  exists s : str,
    forall E : Externals,
      @post_fix_definition E s = U "(I)"
      /\ @post_fix_definition E (@post_fix_definition E s) = []
      /\ @post_fix_definition E (@post_fix_definition E s)
         <> @post_fix_definition E s.
Proof.
  exists (U "(I) "). intro E.
  assert (H1 : @post_fix_definition E (U "(I) ") = U "(I)") by (vm_compute; reflexivity).
  assert (H2 : @post_fix_definition E (U "(I)") = []) by (vm_compute; reflexivity).
  rewrite H1, H2. repeat split. discriminate.
Qed.

(** Each condition of the amended C5 is needed: "one()self" is cleaned to
    "oneself", which is cleaned to the empty string; "(I) , eat" is cleaned
    to "(I), eat", which is cleaned to ", eat". *)
Lemma post_fix_definition_conditions_needed :
  forall E : Externals,
    (@post_fix_definition E (U "one()self") = U "oneself"
     /\ @post_fix_definition E (U "oneself") = [])
    /\ (@post_fix_definition E (U "(I) , eat") = U "(I), eat"
        /\ @post_fix_definition E (U "(I), eat") = U ", eat").
Proof. intro E. repeat split; vm_compute; reflexivity. Qed.

Lemma post_fix_definition_idempotent_when_witness :
  let E := Reference.scripted [] in
  let s := U "(he / she / it)  eats (it) (food) , snake_case (e.g." in
  @post_fix_definition E s = U "(he / she / it) eats (it), snake_case (e.g."
  /\ @post_fix_definition E (@post_fix_definition E s) = @post_fix_definition E s.
Proof.
  cbn zeta. split; [vm_compute; reflexivity|].
  apply (@post_fix_definition_idempotent_when (Reference.scripted [])).
  - vm_compute. reflexivity.
  - intros subject _ _. vm_compute. discriminate.
Defined.

(** C6, as stated, fails: no run option reaches the branch that strips
    "(it)". Whatever the arguments of the run, the cleaning step it applies
    never turns "to like (it)" into "to like". *)
Lemma keep_it_parens_not_exposed :
  ~ exists (E : Externals) (args : Args),
      @cleaned_of E (negb (arg_no_clean args)) (U "to like (it)") = U "to like".
Proof.
  intros (E & args & Heq).
  destruct (arg_no_clean args); vm_compute in Heq; discriminate.
Qed.

(** ** The run *)

Section RunFacts.
Context `{Externals}.
Variable max_retries : Z.
Variable retry_batch_size : Z.
Variable apply_postfixes : bool.
Variable sleep_between_s : float.

(** *** Reasoning about steps *)

Lemma wp_ret {A} (a : A) (Q : state -> outcome A -> Prop) st :
  Q st (Ok a) -> wp (ret a) Q st.
Proof. intro HQ. exact HQ. Qed.

Lemma wp_lift {A} (r : result A) (Q : state -> outcome A -> Prop) st :
  Q st (outcome_of r) -> wp (lift r) Q st.
Proof. intro HQ. exact HQ. Qed.

Lemma wp_bind {A B} (c : M A) (k : A -> M B)
      (Q : state -> outcome B -> Prop) st :
  wp c (fun st' r =>
          match r with
          | Ok a => wp (k a) Q st'
          | Raised e => Q st' (Raised e)
          | OutOfFuel => Q st' OutOfFuel
          end) st ->
  wp (bind c k) Q st.
Proof.
  unfold wp, bind. destruct (c st) as [st' [a|e|]]; cbn; intro HQ; exact HQ.
Qed.

Lemma wp_mono {A} (c : M A) (Q Q' : state -> outcome A -> Prop) st :
  wp c Q st -> (forall st' r, Q st' r -> Q' st' r) -> wp c Q' st.
Proof. unfold wp. intros HQ Himp. apply Himp. exact HQ. Qed.

Lemma wp_run {A} (c : M A) (Q : state -> outcome A -> Prop) st st' r :
  wp c Q st -> c st = (st', r) -> Q st' r.
Proof. unfold wp. intros HQ Heq. rewrite Heq in HQ. exact HQ. Qed.

(** *** Words and entries *)

Lemma existsb_str_eqb (w : str) (ws : list str) :
  existsb (str_eqb w) ws = true <-> In w ws.
Proof.
  rewrite existsb_exists. split.
  - intros (x & Hin & Heq). apply str_eqb_eq in Heq. subst. exact Hin.
  - intro Hin. exists w. split; [exact Hin|apply str_eqb_refl].
Qed.

Lemma grows_refl X tr res : grows apply_postfixes X tr res tr res.
Proof. constructor; auto. Qed.

Lemma grows_trans X tr1 res1 tr2 res2 tr3 res3 :
  grows apply_postfixes X tr1 res1 tr2 res2 ->
  grows apply_postfixes X tr2 res2 tr3 res3 ->
  grows apply_postfixes X tr1 res1 tr3 res3.
Proof.
  intros [A1 D1 R1 F1] [A2 D2 R2 F2]. constructor; auto.
  intros w Hw. rewrite F2, F1; auto.
Qed.

Lemma grows_incl X X' tr res tr' res' :
  incl X X' ->
  grows apply_postfixes X tr res tr' res' ->
  grows apply_postfixes X' tr res tr' res'.
Proof.
  intros Hincl [A D R F].
  constructor; auto; intros w Hw; apply F; intro Hin; apply Hw, Hincl, Hin.
Qed.

Lemma produced_app tr seg w :
  produced (tr ++ seg) w <-> produced tr w \/ produced seg w.
Proof.
  unfold produced. split.
  - intros (e & Hin & Ha). apply in_app_or in Hin as [Hin|Hin]; [left|right];
      exists e; split; assumption.
  - intros [(e & Hin & Ha)|(e & Hin & Ha)]; exists e; split; try assumption;
      apply in_or_app; [left|right]; assumption.
Qed.

Lemma entry_agrees_more tr seg w v :
  ~ produced seg w ->
  entry_agrees apply_postfixes tr w v ->
  entry_agrees apply_postfixes (tr ++ seg) w v.
Proof.
  intros Hno. destruct v as [[d c]|]; cbn.
  - intros [(Hd & Hc & Hp)|(Hd & Hc & Hp)]; [left|right]; repeat split; auto.
    + apply produced_app. left. exact Hp.
    + rewrite produced_app. tauto.
  - rewrite produced_app. tauto.
Qed.

(** *** Reconciliation of one reply *)

Lemma reconcile_spec (m : dict str) (batch : list str) :
  forall missing results,
    fst (reconcile apply_postfixes m batch missing results)
      = missing ++ filter (fun w => is_blank (dict_get_default m w [])) batch
    /\ forall w,
        dict_get (snd (reconcile apply_postfixes m batch missing results)) w
        = if existsb (str_eqb w) batch
             && negb (is_blank (dict_get_default m w []))
          then Some (dict_get_default m w [],
                     cleaned_of apply_postfixes (dict_get_default m w []))
          else dict_get results w.
Proof.
  induction batch as [|w0 rest IH]; intros missing results; cbn [reconcile].
  - cbn. rewrite app_nil_r. split; reflexivity.
  - cbn [filter existsb].
    destruct (is_blank (dict_get_default m w0 [])) eqn:B.
    + destruct (IH (missing ++ [w0]) results) as [Hm Hr]. split.
      * rewrite Hm, <- app_assoc. reflexivity.
      * intro w. rewrite Hr. destruct (str_eqb_spec w w0) as [E|E]; [subst w0; rewrite B|]; cbn;
          [rewrite andb_false_r|]; reflexivity.
    + destruct (IH missing (dict_set results w0
                  (dict_get_default m w0 [],
                   cleaned_of apply_postfixes (dict_get_default m w0 []))))
        as [Hm Hr].
      split; [exact Hm|].
      intro w. rewrite Hr, dict_get_set. destruct (str_eqb_spec w w0) as [E|E].
      * subst w0. rewrite B. cbn.
        destruct (existsb (str_eqb w) rest); reflexivity.
      * cbn. reflexivity.
Qed.

Lemma reconcile_grows ph batch content missing results tr :
  let m := fst (parse_ndjson_word_defs content) in
  let tr' := tr ++ [Request ph batch (Returns content)] in
  grows apply_postfixes batch tr results tr'
        (snd (reconcile apply_postfixes m batch missing results)).
Proof.
  cbn zeta.
  destruct (reconcile_spec (fst (parse_ndjson_word_defs content)) batch
                           missing results) as [_ Hget].
  set (res' := snd (reconcile apply_postfixes _ batch missing results)) in *.
  clearbody res'.
  assert (Hcond : forall w,
             existsb (str_eqb w) batch
             && negb (is_blank (dict_get_default
                                  (fst (parse_ndjson_word_defs content)) w []))
             = true
             <-> answers (Request ph batch (Returns content)) w).
  { intro w. unfold answers. cbn [ev_words ev_reply].
    rewrite andb_true_iff, existsb_str_eqb, negb_true_iff. split.
    - intros [Hin Hb]. split; [exact Hin|]. exists content. split; [reflexivity|exact Hb].
    - intros [Hin (c & Hc & Hb)]. injection Hc as <-. split; assumption. }
  assert (Hnew : forall w,
             produced [Request ph batch (Returns content)] w
             <-> answers (Request ph batch (Returns content)) w).
  { intro w. unfold produced. split.
    - intros (e & [<-|[]] & Ha). exact Ha.
    - intro Ha. eexists. split; [left; reflexivity|exact Ha]. }
  constructor.
  - intros Hag w. specialize (Hag w). rewrite Hget.
    destruct (existsb (str_eqb w) batch && _) eqn:C.
    + pose proof (proj1 (Hcond w) C) as Ha. cbn. left.
      apply andb_true_iff in C as [_ C]. apply negb_true_iff in C.
      repeat split; [exact C|]. apply produced_app. right. apply Hnew. exact Ha.
    + apply entry_agrees_more; [|exact Hag].
      rewrite Hnew, <- Hcond, C. discriminate.
  - intros w Hw. rewrite Hget. destruct (_ && _); [discriminate|exact Hw].
  - intros w (d & c & Hd & Hb). unfold resolved. rewrite Hget.
    destruct (existsb (str_eqb w) batch && _) eqn:C.
    + apply andb_true_iff in C as [_ C]. apply negb_true_iff in C.
      eexists _, _. split; [reflexivity|exact C].
    + exists d, c. split; assumption.
  - intros w Hw. rewrite Hget.
    destruct (existsb (str_eqb w) batch) eqn:C; [|reflexivity].
    apply existsb_str_eqb in C. contradiction.
Qed.

(** *** The empty-marker fill *)

Lemma fill_missing_get (missing : list str) :
  forall (results : results_t) w,
    dict_get (fill_missing missing results) w
    = match dict_get results w with
      | Some v => Some v
      | None => if existsb (str_eqb w) missing then Some ([], []) else None
      end.
Proof.
  induction missing as [|w0 rest IH]; intros results w; cbn [fill_missing existsb].
  - destruct (dict_get results w); reflexivity.
  - unfold dict_mem. destruct (dict_get results w0) as [v0|] eqn:G0.
    + rewrite IH. destruct (dict_get results w) as [v|] eqn:G; [reflexivity|].
      destruct (str_eqb_spec w w0) as [E|E]; [congruence|reflexivity].
    + rewrite IH, dict_get_set. destruct (str_eqb_spec w w0) as [E|E].
      * subst w0. rewrite G0. reflexivity.
      * cbn. reflexivity.
Qed.

Lemma fill_missing_grows missing tr results :
  grows apply_postfixes missing tr results tr (fill_missing missing results).
Proof.
  constructor.
  - intros Hag w. specialize (Hag w). rewrite fill_missing_get.
    destruct (dict_get results w) as [v|]; [exact Hag|].
    destruct (existsb (str_eqb w) missing); [|exact Hag].
    cbn. right. repeat split. exact Hag.
  - intros w Hw. rewrite fill_missing_get.
    destruct (dict_get results w); [discriminate|contradiction].
  - intros w (d & c & Hd & Hb). exists d, c. rewrite fill_missing_get, Hd.
    split; [reflexivity|exact Hb].
  - intros w Hw. rewrite fill_missing_get.
    destruct (dict_get results w); [reflexivity|].
    destruct (existsb (str_eqb w) missing) eqn:C; [|reflexivity].
    apply existsb_str_eqb in C. contradiction.
Qed.

Lemma fill_missing_covers missing (results : results_t) w :
  In w missing -> dict_get (fill_missing missing results) w <> None.
Proof.
  intro Hin. rewrite fill_missing_get.
  destruct (dict_get results w); [discriminate|].
  apply existsb_str_eqb in Hin. rewrite Hin. discriminate.
Qed.

(** *** Partitions, for any size *)

Lemma In_concat_incl {A} (g : list A) (gs : list (list A)) :
  In g gs -> incl g (concat gs).
Proof.
  intros Hin x Hx. apply in_concat. exists g. split; assumption.
Qed.

Lemma chunk_list_cases {A} (xs : list A) (n : Z) :
  match chunk_list xs n with
  | Raises e => n = 0%Z
  | Returns gs =>
      Forall (fun g => g <> [] /\ incl g xs /\ (Z.of_nat (length g) <= n)%Z) gs
      /\ incl (concat gs) xs
      /\ ((1 <= n)%Z -> concat gs = xs)
  end.
Proof.
  unfold chunk_list, py_range.
  destruct (Z.eqb_spec n 0) as [->|Hn0]; [reflexivity|].
  destruct (Z.ltb_spec 0 n) as [Hpos|Hneg].
  - destruct (@range_up_chunks A xs n Hpos
                (Z.to_nat (Z.of_nat (length xs) - 0)) 0%Z ltac:(lia) ltac:(lia))
      as (Hc & _ & Hf).
    cbn zeta in Hc, Hf. cbn [Z.to_nat skipn] in Hc.
    split; [|split].
    + apply Forall_forall. intros g Hg.
      pose proof (proj1 (Forall_forall _ _) Hf g Hg) as [Hne Hlen].
      split; [exact Hne|]. split; [|exact Hlen].
      rewrite <- Hc. apply In_concat_incl. exact Hg.
    + rewrite Hc. apply incl_refl.
    + intros _. exact Hc.
  - replace (Z.to_nat (0 - Z.of_nat (length xs))) with 0%nat by lia.
    cbn. split; [constructor|]. split; [intros x []|lia].
Qed.

Lemma chunk_list_nonpositive {A} (xs : list A) (n : Z) :
  (n <= 0)%Z ->
  chunk_list xs n = if (n =? 0)%Z then Raises ValueError else Returns [].
Proof.
  intro Hn. unfold chunk_list, py_range.
  destruct (Z.eqb_spec n 0) as [->|Hne]; [reflexivity|].
  destruct (Z.ltb_spec 0 n) as [|_]; [lia|].
  replace (Z.to_nat (0 - Z.of_nat (length xs))) with 0%nat by lia. reflexivity.
Qed.

(** *** The steps of a run *)

Lemma sleep_between_spec st :
  wp (sleep_between sleep_between_s)
     (fun st' r => trace st' = trace st /\ r <> OutOfFuel) st.
Proof.
  unfold wp, sleep_between.
  destruct (PrimFloat.eqb sleep_between_s 0); cbn; [split; [reflexivity|discriminate]|].
  destruct (time_sleep (world st) sleep_between_s) as [w [[]|e]]; cbn;
    split; try reflexivity; discriminate.
Qed.

Lemma request_spec ph batch missing results st :
  wp (request apply_postfixes ph batch missing results)
     (fun st' r =>
        exists reply,
          trace st' = trace st ++ [Request ph batch reply]
          /\ match r with
             | Ok (missing', results') =>
                 grows apply_postfixes batch (trace st) results (trace st') results'
                 /\ exists ms,
                     missing' = missing ++ ms
                     /\ incl ms batch
                     /\ forall w, In w batch ->
                                  In w ms \/ dict_get results' w <> None
             | Raised _ => True
             | OutOfFuel => False
             end) st.
Proof.
  unfold request. apply wp_bind. unfold wp at 1, dispatch.
  destruct (ollama_chat_stream_collect_content (world st) (join [10%N] batch))
    as [w' [content|e]]; cbn [fst snd outcome_of trace].
  - apply wp_ret. exists (Returns content). split; [reflexivity|].
    pose proof (reconcile_grows ph batch content missing results (trace st)) as Hg.
    cbn zeta in Hg.
    destruct (reconcile_spec (fst (parse_ndjson_word_defs content)) batch
                             missing results) as [Hm Hget].
    destruct (reconcile apply_postfixes (fst (parse_ndjson_word_defs content))
                        batch missing results) as [missing' results'].
    cbn [fst snd] in *. split; [exact Hg|].
    eexists. split; [exact Hm|]. split.
    + intros w Hw. apply filter_In in Hw. tauto.
    + intros w Hw. rewrite Hget.
      apply existsb_str_eqb in Hw. rewrite Hw. cbn [andb].
      destruct (is_blank (dict_get_default (fst (parse_ndjson_word_defs content)) w []))
        eqn:B; cbn [negb].
      * left. apply filter_In. split; [apply existsb_str_eqb; exact Hw|exact B].
      * right. discriminate.
  - exists (Raises e). split; [reflexivity|exact I].
Qed.

Lemma retry_batches_spec attempt rbs :
  forall next_missing results st,
    wp (retry_batches apply_postfixes sleep_between_s attempt rbs
                      next_missing results)
       (fun st' r =>
          exists seg,
            trace st' = trace st ++ seg
            /\ Forall (fun e => ev_phase e = Retry attempt /\ In (ev_words e) rbs) seg
            /\ match r with
               | Ok (missing', results') =>
                   grows apply_postfixes (concat rbs)
                         (trace st) results (trace st') results'
                   /\ exists ms,
                       missing' = next_missing ++ ms
                       /\ incl ms (concat rbs)
                       /\ forall w, In w (concat rbs) ->
                                    In w ms \/ dict_get results' w <> None
               | Raised _ => True
               | OutOfFuel => False
               end) st.
Proof.
  induction rbs as [|rb more IH]; intros next_missing results st;
    cbn [retry_batches].
  - apply wp_ret. exists []. rewrite app_nil_r. split; [reflexivity|].
    split; [constructor|]. split; [apply grows_refl|].
    exists []. rewrite app_nil_r. split; [reflexivity|]. split; [intros x []|intros w []].
  - apply wp_bind. eapply wp_mono; [apply sleep_between_spec|].
    intros st1 r1 [Htr1 Hr1]. destruct r1 as [[]|e|]; [| |contradiction].
    2: { exists []. rewrite app_nil_r. split; [exact Htr1|]. split; [constructor|exact I]. }
    apply wp_bind. eapply wp_mono; [apply request_spec|].
    intros st2 r2 (reply & Htr2 & Hpost2). rewrite Htr1 in Htr2.
    destruct r2 as [[nm2 res2]|e|]; [| |contradiction].
    2: { exists [Request (Retry attempt) rb reply]. split; [exact Htr2|].
         split; [|exact I]. constructor; [|constructor].
         split; [reflexivity|left; reflexivity]. }
    destruct Hpost2 as (Hg2 & ms2 & Hnm2 & Hincl2 & Hcov2). rewrite Htr1 in Hg2.
    eapply wp_mono; [apply IH|].
    intros st3 r3 (seg & Htr3 & Hall3 & Hpost3).
    exists (Request (Retry attempt) rb reply :: seg).
    split; [rewrite Htr3, Htr2, <- app_assoc; reflexivity|].
    split.
    { constructor; [split; [reflexivity|left; reflexivity]|].
      apply Forall_forall. intros e He.
      pose proof (proj1 (Forall_forall _ _) Hall3 e He) as [Hp Hw].
      split; [exact Hp|right; exact Hw]. }
    destruct r3 as [[nm3 res3]|e|]; [|exact I|contradiction].
    destruct Hpost3 as (Hg3 & ms3 & Hnm3 & Hincl3 & Hcov3).
    cbn [concat]. split.
    + apply grows_trans with (tr2 := trace st2) (res2 := res2).
      * apply grows_incl with (X := rb); [apply incl_appl, incl_refl|exact Hg2].
      * apply grows_incl with (X := concat more); [apply incl_appr, incl_refl|exact Hg3].
    + exists (ms2 ++ ms3). split; [rewrite Hnm3, Hnm2, app_assoc; reflexivity|].
      split.
      * apply incl_app; [apply incl_appl|apply incl_appr]; assumption.
      * intros w Hw. apply in_app_or in Hw as [Hw|Hw].
        -- destruct (Hcov2 w Hw) as [Hin|Hdom].
           ++ left. apply in_or_app. left. exact Hin.
           ++ right. apply (grows_dom Hg3). exact Hdom.
        -- destruct (Hcov3 w Hw) as [Hin|Hdom].
           ++ left. apply in_or_app. right. exact Hin.
           ++ right. exact Hdom.
Qed.

Lemma retry_round_spec attempt missing results st :
  wp (retry_round retry_batch_size apply_postfixes sleep_between_s
                  attempt missing results)
     (fun st' r =>
        exists seg,
          trace st' = trace st ++ seg
          /\ Forall (fun e =>
                       ev_phase e = Retry attempt
                       /\ ev_words e <> []
                       /\ incl (ev_words e) missing
                       /\ (Z.of_nat (length (ev_words e)) <= retry_batch_size)%Z)
                    seg
          /\ match r with
             | Ok (missing', results') =>
                 grows apply_postfixes missing
                       (trace st) results (trace st') results'
                 /\ incl missing' missing
                 /\ ((1 <= retry_batch_size)%Z ->
                     forall w, In w missing ->
                               In w missing' \/ dict_get results' w <> None)
             | Raised _ => True
             | OutOfFuel => False
             end) st.
Proof.
  unfold retry_round. apply wp_bind. apply wp_lift.
  pose proof (chunk_list_cases missing retry_batch_size) as Hch.
  destruct (chunk_list missing retry_batch_size) as [rbs|e]; cbn [outcome_of].
  2: { exists []. rewrite app_nil_r. split; [reflexivity|]. split; [constructor|exact I]. }
  destruct Hch as (Hgs & Hincl & Hall).
  eapply wp_mono; [apply retry_batches_spec|].
  intros st1 r1 (seg & Htr & Hseg & Hpost). exists seg. split; [exact Htr|].
  split.
  { apply Forall_forall. intros e He.
    pose proof (proj1 (Forall_forall _ _) Hseg e He) as [Hp Hw].
    pose proof (proj1 (Forall_forall _ _) Hgs _ Hw) as (Hne & Hin & Hlen).
    repeat split; assumption. }
  destruct r1 as [[nm res1]|e|]; [|exact I|contradiction].
  destruct Hpost as (Hg & ms & Hnm & Hms & Hcov). split; [|split].
  - apply grows_incl with (X := concat rbs); assumption.
  - rewrite Hnm. cbn [app]. intros w Hw. apply Hincl, Hms, Hw.
  - intros Hpos w Hw. rewrite <- (Hall Hpos) in Hw.
    rewrite Hnm. cbn [app]. apply Hcov. exact Hw.
Qed.

Lemma retry_loop_spec fuel :
  forall attempt missing results st,
    (Z.to_nat (max_retries - attempt) < fuel)%nat ->
    wp (retry_loop max_retries retry_batch_size apply_postfixes sleep_between_s
                   fuel attempt missing results)
       (fun st' r =>
          exists seg,
            trace st' = trace st ++ seg
            /\ Forall (fun e =>
                         (exists a, ev_phase e = Retry a
                                    /\ (attempt < a <= max_retries)%Z)
                         /\ ev_words e <> []
                         /\ incl (ev_words e) missing
                         /\ (Z.of_nat (length (ev_words e)) <= retry_batch_size)%Z)
                      seg
            /\ match r with
               | Ok (_, missing', results') =>
                   grows apply_postfixes missing
                         (trace st) results (trace st') results'
                   /\ incl missing' missing
                   /\ ((1 <= retry_batch_size)%Z ->
                       forall w, In w missing ->
                                 In w missing' \/ dict_get results' w <> None)
               | Raised _ => True
               | OutOfFuel => False
               end) st.
Proof.
  induction fuel as [|fuel IH]; intros attempt missing results st Hfuel; [lia|].
  cbn [retry_loop].
  assert (Hstop : forall a : Z,
             wp (ret (a, missing, results))
                (fun st' (r : outcome (Z * list str * results_t)) =>
                   exists seg,
                     trace st' = trace st ++ seg
                     /\ Forall (fun e =>
                                  (exists a, ev_phase e = Retry a
                                             /\ (attempt < a <= max_retries)%Z)
                                  /\ ev_words e <> []
                                  /\ incl (ev_words e) missing
                                  /\ (Z.of_nat (length (ev_words e))
                                      <= retry_batch_size)%Z) seg
                     /\ match r with
                        | Ok (_, missing', results') =>
                            grows apply_postfixes missing
                                  (trace st) results (trace st') results'
                            /\ incl missing' missing
                            /\ ((1 <= retry_batch_size)%Z ->
                                forall w, In w missing ->
                                          In w missing'
                                          \/ dict_get results' w <> None)
                        | Raised _ => True
                        | OutOfFuel => False
                        end) st).
  { intro a. apply wp_ret. exists []. rewrite app_nil_r. split; [reflexivity|].
    split; [constructor|]. split; [apply grows_refl|].
    split; [apply incl_refl|]. intros _ w Hw. left. exact Hw. }
  destruct missing as [|w0 m0]; [apply Hstop|].
  destruct (Z.ltb_spec attempt max_retries) as [Hlt|Hge]; [|apply Hstop].
  clear Hstop. set (missing := w0 :: m0) in *.
  apply wp_bind. eapply wp_mono; [apply retry_round_spec|].
  intros st1 r1 (seg1 & Htr1 & Hseg1 & Hpost1).
  destruct r1 as [[nm res1]|e|]; [| |contradiction].
  2: { exists seg1. split; [exact Htr1|]. split; [|exact I].
       apply Forall_forall. intros e' He'.
       pose proof (proj1 (Forall_forall _ _) Hseg1 e' He') as (Hp & Hne & Hin & Hlen).
       repeat split; try assumption. exists (attempt + 1)%Z. split; [exact Hp|lia]. }
  destruct Hpost1 as (Hg1 & Hnm & Hcov1).
  eapply wp_mono; [apply (IH (attempt + 1)%Z nm res1 st1); lia|].
  intros st2 r2 (seg2 & Htr2 & Hseg2 & Hpost2).
  exists (seg1 ++ seg2). split; [rewrite Htr2, Htr1, app_assoc; reflexivity|].
  split.
  { apply Forall_app. split; apply Forall_forall; intros e' He'.
    - pose proof (proj1 (Forall_forall _ _) Hseg1 e' He') as (Hp & Hne & Hin & Hlen).
      repeat split; try assumption. exists (attempt + 1)%Z. split; [exact Hp|lia].
    - pose proof (proj1 (Forall_forall _ _) Hseg2 e' He')
        as ((a & Hp & Ha) & Hne & Hin & Hlen).
      repeat split; try assumption.
      + exists a. split; [exact Hp|lia].
      + intros w Hw. apply Hnm, Hin, Hw. }
  destruct r2 as [[[a2 m2] res2]|e|]; [|exact I|contradiction].
  destruct Hpost2 as (Hg2 & Hm2 & Hcov2). split; [|split].
  - apply grows_trans with (tr2 := trace st1) (res2 := res1); [exact Hg1|].
    apply grows_incl with (X := nm); assumption.
  - intros w Hw. apply Hnm, Hm2, Hw.
  - intros Hpos w Hw. destruct (Hcov1 Hpos w Hw) as [Hin|Hdom].
    + apply (Hcov2 Hpos). exact Hin.
    + right. apply (grows_dom Hg2). exact Hdom.
Qed.

Lemma process_batch_spec batch results st :
  wp (process_batch max_retries retry_batch_size apply_postfixes sleep_between_s
                    batch results)
     (fun st' r =>
        exists seg,
          trace st' = trace st ++ seg
          /\ batch_segment max_retries retry_batch_size batch seg
          /\ match r with
             | Ok results' =>
                 grows apply_postfixes batch (trace st) results (trace st') results'
                 /\ ((1 <= retry_batch_size)%Z ->
                     forall w, In w batch -> dict_get results' w <> None)
             | Raised _ => True
             | OutOfFuel => False
             end) st.
Proof.
  unfold process_batch. apply wp_bind. eapply wp_mono; [apply request_spec|].
  intros st1 r1 (reply & Htr1 & Hpost1).
  destruct r1 as [[missing1 res1]|e|]; [| |contradiction].
  2: { exists [Request Initial batch reply]. split; [exact Htr1|]. split; [|exact I].
       exists reply, []. split; [reflexivity|constructor]. }
  destruct Hpost1 as (Hg1 & ms & Hms & Hincl & Hcov1). cbn [app] in Hms. subst missing1.
  apply wp_bind.
  eapply wp_mono;
    [apply (@retry_loop_spec (S (Z.to_nat max_retries)) 0%Z ms res1 st1); lia|].
  intros st2 r2 (seg & Htr2 & Hseg & Hpost2).
  assert (Hshape : batch_segment max_retries retry_batch_size batch
                                 (Request Initial batch reply :: seg)).
  { exists reply, seg. split; [reflexivity|].
    apply Forall_forall. intros e' He'.
    pose proof (proj1 (Forall_forall _ _) Hseg e' He')
      as ((a & Hp & Ha) & Hne & Hin & Hlen).
    repeat split; try assumption.
    - exists a. split; [exact Hp|lia].
    - intros w Hw. apply Hincl, Hin, Hw. }
  assert (Htr : trace st2 = trace st ++ Request Initial batch reply :: seg).
  { rewrite Htr2, Htr1, <- app_assoc. reflexivity. }
  destruct r2 as [[[a2 m2] res2]|e|]; [| |contradiction].
  2: { eexists. split; [exact Htr|]. split; [exact Hshape|exact I]. }
  destruct Hpost2 as (Hg2 & Hm2 & Hcov2).
  apply wp_ret. eexists. split; [exact Htr|]. split; [exact Hshape|].
  pose proof (fill_missing_grows m2 (trace st2) res2) as Hg3. split.
  - apply grows_trans with (tr2 := trace st1) (res2 := res1); [exact Hg1|].
    apply grows_trans with (tr2 := trace st2) (res2 := res2).
    + apply grows_incl with (X := ms); assumption.
    + apply grows_incl with (X := m2); [|exact Hg3].
      intros w Hw. apply Hincl, Hm2, Hw.
  - intros Hpos w Hw. destruct (Hcov1 w Hw) as [Hin|Hdom].
    + destruct (Hcov2 Hpos w Hin) as [Hin2|Hdom2].
      * apply fill_missing_covers. exact Hin2.
      * apply (grows_dom Hg3). exact Hdom2.
    + apply (grows_dom Hg3), (grows_dom Hg2). exact Hdom.
Qed.

Lemma process_batches_spec batches :
  forall results st,
    wp (process_batches max_retries retry_batch_size apply_postfixes
                        sleep_between_s batches results)
       (fun st' r =>
          exists segs,
            trace st' = trace st ++ concat segs
            /\ Forall2 (batch_segment max_retries retry_batch_size)
                       (firstn (length segs) batches) segs
            /\ match r with
               | Ok results' =>
                   length segs = length batches
                   /\ grows apply_postfixes (concat batches)
                            (trace st) results (trace st') results'
                   /\ ((1 <= retry_batch_size)%Z ->
                       forall w, In w (concat batches) ->
                                 dict_get results' w <> None)
               | Raised _ => True
               | OutOfFuel => False
               end) st.
Proof.
  induction batches as [|batch more IH]; intros results st; cbn [process_batches].
  - apply wp_ret. exists []. cbn. rewrite app_nil_r. split; [reflexivity|].
    split; [constructor|]. split; [reflexivity|]. split; [apply grows_refl|].
    intros _ w [].
  - apply wp_bind. eapply wp_mono; [apply process_batch_spec|].
    intros st1 r1 (seg & Htr1 & Hshape & Hpost1).
    destruct r1 as [res1|e|]; [| |contradiction].
    2: { exists [seg]. cbn. rewrite app_nil_r. split; [exact Htr1|].
         split; [|exact I]. constructor; [exact Hshape|constructor]. }
    destruct Hpost1 as (Hg1 & Hcov1).
    eapply wp_mono; [apply IH|].
    intros st2 r2 (segs & Htr2 & Hshapes & Hpost2).
    exists (seg :: segs). cbn [concat length firstn].
    split; [rewrite Htr2, Htr1, <- app_assoc; reflexivity|].
    split; [constructor; assumption|].
    destruct r2 as [res2|e|]; [|exact I|contradiction].
    destruct Hpost2 as (Hlen & Hg2 & Hcov2). split; [f_equal; exact Hlen|]. split.
    + apply grows_trans with (tr2 := trace st1) (res2 := res1).
      * apply grows_incl with (X := batch); [apply incl_appl, incl_refl|exact Hg1].
      * apply grows_incl with (X := concat more); [apply incl_appr, incl_refl|exact Hg2].
    + intros Hpos w Hw. apply in_app_or in Hw as [Hw|Hw].
      * apply (grows_dom Hg2), (Hcov1 Hpos). exact Hw.
      * apply (Hcov2 Hpos). exact Hw.
Qed.

Lemma generate_spec words batch_size st :
  wp (generate max_retries retry_batch_size apply_postfixes sleep_between_s
               words batch_size)
     (fun st' r =>
        match chunk_list words batch_size with
        | Raises e => trace st' = trace st /\ r = Raised e
        | Returns batches =>
            exists segs,
              trace st' = trace st ++ concat segs
              /\ Forall2 (batch_segment max_retries retry_batch_size)
                         (firstn (length segs) batches) segs
              /\ match r with
                 | Ok results' =>
                     length segs = length batches
                     /\ grows apply_postfixes (concat batches)
                              (trace st) [] (trace st') results'
                     /\ ((1 <= retry_batch_size)%Z ->
                         forall w, In w (concat batches) ->
                                   dict_get results' w <> None)
                 | Raised _ => True
                 | OutOfFuel => False
                 end
        end) st.
Proof.
  unfold generate. apply wp_bind. apply wp_lift.
  destruct (chunk_list words batch_size) as [batches|e]; cbn [outcome_of].
  - apply process_batches_spec.
  - split; reflexivity.
Qed.

(** *** The retry loop, round by round *)

Lemma retry_loop_rounds fuel :
  forall attempt missing results st,
    (Z.to_nat (max_retries - attempt) < fuel)%nat ->
    exists n : nat,
      (Z.of_nat n <= Z.max 0 (max_retries - attempt))%Z
      /\ retry_loop max_retries retry_batch_size apply_postfixes sleep_between_s
                    fuel attempt missing results st
         = run_rounds retry_batch_size apply_postfixes sleep_between_s
                      n attempt missing results st
      /\ (forall k, (k < n)%nat ->
            exists st_k a_k m_k res_k,
              run_rounds retry_batch_size apply_postfixes sleep_between_s
                         k attempt missing results st
              = (st_k, Ok (a_k, m_k, res_k))
              /\ m_k <> [])
      /\ match snd (run_rounds retry_batch_size apply_postfixes sleep_between_s
                               n attempt missing results st) with
         | Ok (a, m, _) =>
             a = (attempt + Z.of_nat n)%Z
             /\ (m = [] \/ Z.of_nat n = Z.max 0 (max_retries - attempt))
         | Raised _ => True
         | OutOfFuel => False
         end.
Proof.
  induction fuel as [|fuel IH]; intros attempt missing results st Hfuel; [lia|].
  cbn [retry_loop].
  destruct missing as [|w0 m0].
  { exists 0%nat. cbn. repeat split; try lia. left. reflexivity. }
  destruct (Z.ltb_spec attempt max_retries) as [Hlt|Hge].
  2: { exists 0%nat. cbn. repeat split; try lia. }
  set (missing := w0 :: m0) in *.
  pose proof (retry_round_spec (attempt + 1) missing results st) as Hround.
  unfold wp in Hround. cbn [run_rounds]. unfold bind at 1.
  destruct (retry_round retry_batch_size apply_postfixes sleep_between_s
                        (attempt + 1) missing results st)
    as [st1 [[nm res1]|e|]] eqn:R; cbn [fst snd] in Hround.
  - destruct (IH (attempt + 1)%Z nm res1 st1 ltac:(lia))
      as (n & Hn & Heq & Hbefore & Hend).
    exists (S n). split; [lia|].
    assert (Hstep : forall k,
               run_rounds retry_batch_size apply_postfixes sleep_between_s
                          (S k) attempt missing results st
               = run_rounds retry_batch_size apply_postfixes sleep_between_s
                            k (attempt + 1) nm res1 st1).
    { intro k. cbn [run_rounds]. unfold bind at 1. rewrite R. reflexivity. }
    rewrite Hstep. split; [exact Heq|]. split.
    + intros [|k] Hk.
      * exists st, attempt, missing, results. split; [reflexivity|discriminate].
      * rewrite Hstep. apply Hbefore. lia.
    + destruct (snd (run_rounds retry_batch_size apply_postfixes sleep_between_s
                                n (attempt + 1) nm res1 st1)) as [[[a m] r']|e|];
        [|exact I|contradiction].
      destruct Hend as [Ha Hm]. split; [lia|].
      destruct Hm as [Hm|Hm]; [left; exact Hm|right; lia].
  - assert (Hone : run_rounds retry_batch_size apply_postfixes sleep_between_s
                              1 attempt missing results st = (st1, Raised e)).
    { cbn [run_rounds]. unfold bind at 1. rewrite R. reflexivity. }
    exists 1%nat. split; [lia|]. rewrite Hone.
    split; [reflexivity|]. split; [|exact I].
    intros k Hk. assert (k = 0%nat) as -> by lia.
    exists st, attempt, missing, results. split; [reflexivity|discriminate].
  - destruct Hround as (seg & _ & _ & []).
Qed.

(** *** The empty markers, for any sizes *)

Lemma option_eq_None {A} (o : option A) : o = None \/ o <> None.
Proof. destruct o; [right; discriminate|left; reflexivity]. Qed.

Lemma retry_loop_off fuel attempt missing results st :
  (max_retries <= attempt)%Z ->
  retry_loop max_retries retry_batch_size apply_postfixes sleep_between_s
             (S fuel) attempt missing results st
  = (st, Ok (attempt, missing, results)).
Proof.
  intro Hoff. cbn [retry_loop]. destruct missing as [|w ws]; [reflexivity|].
  destruct (Z.ltb_spec attempt max_retries) as [Hlt|_]; [lia|reflexivity].
Qed.

Lemma process_batch_cover_off batch results st :
  (max_retries <= 0)%Z ->
  wp (process_batch max_retries retry_batch_size apply_postfixes sleep_between_s
                    batch results)
     (fun st' r =>
        match r with
        | Ok results' => forall w, In w batch -> dict_get results' w <> None
        | _ => True
        end) st.
Proof.
  intro Hoff. unfold process_batch. apply wp_bind.
  eapply wp_mono; [apply request_spec|].
  intros st1 r1 (reply & _ & Hpost1).
  destruct r1 as [[missing res1]|e|]; [|exact I|exact I].
  destruct Hpost1 as (_ & ms & Hms & _ & Hcov). cbn [app] in Hms. subst ms.
  unfold wp, bind. rewrite (@retry_loop_off _ 0%Z missing res1 st1 Hoff).
  cbn [fst snd ret]. intros w Hw. destruct (Hcov w Hw) as [Hin|Hdom].
  - apply fill_missing_covers. exact Hin.
  - rewrite fill_missing_get. destruct (dict_get res1 w); [discriminate|contradiction].
Qed.

Lemma process_batches_cover_off batches :
  (max_retries <= 0)%Z ->
  forall results st,
    wp (process_batches max_retries retry_batch_size apply_postfixes
                        sleep_between_s batches results)
       (fun st' r =>
          match r with
          | Ok results' =>
              forall w, In w (concat batches) -> dict_get results' w <> None
          | _ => True
          end) st.
Proof.
  intro Hoff. induction batches as [|batch more IH]; intros results st;
    cbn [process_batches].
  - apply wp_ret. intros w [].
  - apply wp_bind. eapply wp_mono; [apply (process_batch_cover_off batch results st Hoff)|].
    intros st1 r1 Hcov1. destruct r1 as [res1|e|]; [|exact I|exact I].
    pose proof (process_batches_spec more res1 st1) as Hspec.
    pose proof (IH res1 st1) as Hcov. unfold wp in *.
    destruct (process_batches max_retries retry_batch_size apply_postfixes
                              sleep_between_s more res1 st1) as [st2 r2].
    cbn [fst snd] in *. destruct r2 as [res2|e|]; [|exact I|exact I].
    destruct Hspec as (segs & _ & _ & _ & Hg & _).
    intros w Hw. cbn [concat] in Hw. apply in_app_or in Hw as [Hw|Hw].
    + apply (grows_dom Hg). apply Hcov1. exact Hw.
    + apply Hcov. exact Hw.
Qed.

Lemma reconcile_all_resolved (m : dict str) batch missing (results : results_t) :
  (forall w, dict_get results w <> None -> resolved results w) ->
  forall w,
    dict_get (snd (reconcile apply_postfixes m batch missing results)) w <> None ->
    resolved (snd (reconcile apply_postfixes m batch missing results)) w.
Proof.
  intros Hall w. destruct (reconcile_spec m batch missing results) as [_ Hget].
  unfold resolved. rewrite !Hget.
  destruct (existsb (str_eqb w) batch && negb (is_blank (dict_get_default m w [])))
    eqn:C.
  - intros _. apply andb_true_iff in C as [_ C]. apply negb_true_iff in C.
    eexists _, _. split; [reflexivity|exact C].
  - exact (Hall w).
Qed.

Lemma process_batch_no_marker batch results st :
  (retry_batch_size <= 0)%Z -> (1 <= max_retries)%Z ->
  (forall w, dict_get results w <> None -> resolved results w) ->
  wp (process_batch max_retries retry_batch_size apply_postfixes sleep_between_s
                    batch results)
     (fun st' r =>
        match r with
        | Ok results' => forall w, dict_get results' w <> None -> resolved results' w
        | _ => True
        end) st.
Proof.
  intros Hrbs Hmax Hall. unfold process_batch, request, wp, bind, dispatch.
  destruct (ollama_chat_stream_collect_content (world st) (join [10%N] batch))
    as [w' [content|e]]; cbn [fst snd outcome_of ret]; [|exact I].
  pose proof (@reconcile_all_resolved (fst (parse_ndjson_word_defs content))
                batch [] results Hall) as Hres.
  destruct (reconcile apply_postfixes (fst (parse_ndjson_word_defs content))
                      batch [] results) as [missing res1].
  cbn [fst snd] in Hres |- *.
  replace (Z.to_nat max_retries) with (S (Z.to_nat (max_retries - 1))) by lia.
  cbn [retry_loop]. destruct missing as [|w ws]; [exact Hres|].
  destruct (Z.ltb_spec 0 max_retries) as [_|Hge]; [|lia].
  unfold bind at 1, retry_round, bind, lift.
  rewrite (chunk_list_nonpositive (w :: ws) Hrbs).
  destruct (retry_batch_size =? 0)%Z; cbn [outcome_of fst snd]; [exact I|].
  cbn [retry_batches ret fst snd]. exact Hres.
Qed.

Lemma process_batches_no_marker batches :
  (retry_batch_size <= 0)%Z -> (1 <= max_retries)%Z ->
  forall results st,
    (forall w, dict_get results w <> None -> resolved results w) ->
    wp (process_batches max_retries retry_batch_size apply_postfixes
                        sleep_between_s batches results)
       (fun st' r =>
          match r with
          | Ok results' =>
              forall w, dict_get results' w <> None -> resolved results' w
          | _ => True
          end) st.
Proof.
  intros Hrbs Hmax. induction batches as [|batch more IH]; intros results st Hall;
    cbn [process_batches].
  - apply wp_ret. exact Hall.
  - apply wp_bind.
    eapply wp_mono; [apply (process_batch_no_marker batch st Hrbs Hmax Hall)|].
    intros st1 r1 Hall1. destruct r1 as [res1|e|]; [|exact I|exact I].
    apply IH. exact Hall1.
Qed.

(** *** The requests of a run, exactly *)

Lemma removelast_cons_cons {A} (a b : A) (l : list A) :
  removelast (a :: b :: l) = a :: removelast (b :: l).
Proof. reflexivity. Qed.

Lemma Forall_removelast_cons {A} (P : A -> Prop) (a : A) (l : list A) :
  P a -> Forall P (removelast l) -> Forall P (removelast (a :: l)).
Proof.
  intros Ha Hl. destruct l as [|b l]; [constructor|].
  rewrite removelast_cons_cons. constructor; assumption.
Qed.

Lemma request_exact ph batch missing results st :
  wp (request apply_postfixes ph batch missing results)
     (fun st' r =>
        exists reply,
          trace st' = trace st ++ [Request ph batch reply]
          /\ match r with
             | Ok (missing', _) =>
                 returned (Request ph batch reply)
                 /\ missing' = missing ++ unanswered (Request ph batch reply)
             | Raised e => reply = Raises e
             | OutOfFuel => False
             end) st.
Proof.
  unfold request. apply wp_bind. unfold wp at 1, dispatch.
  destruct (ollama_chat_stream_collect_content (world st) (join [10%N] batch))
    as [w' [content|e]]; cbn [fst snd outcome_of trace].
  - apply wp_ret. exists (Returns content). split; [reflexivity|].
    destruct (reconcile_spec (fst (parse_ndjson_word_defs content)) batch
                             missing results) as [Hm _].
    destruct (reconcile apply_postfixes (fst (parse_ndjson_word_defs content))
                        batch missing results) as [missing' results'].
    cbn [fst] in Hm. split; [exists content; reflexivity|exact Hm].
  - exists (Raises e). split; reflexivity.
Qed.

Lemma retry_batches_exact attempt rbs :
  forall next_missing results st,
    wp (retry_batches apply_postfixes sleep_between_s attempt rbs
                      next_missing results)
       (fun st' r =>
          exists evs,
            trace st' = trace st ++ evs
            /\ Forall (fun e => ev_phase e = Retry attempt) evs
            /\ match r with
               | Ok (missing', _) =>
                   map ev_words evs = rbs
                   /\ Forall returned evs
                   /\ missing' = next_missing ++ flat_map unanswered evs
               | Raised _ =>
                   map ev_words evs = firstn (length evs) rbs
                   /\ Forall returned (removelast evs)
               | OutOfFuel => False
               end) st.
Proof.
  induction rbs as [|rb more IH]; intros next_missing results st;
    cbn [retry_batches].
  - apply wp_ret. exists []. rewrite !app_nil_r.
    repeat split; constructor.
  - apply wp_bind. eapply wp_mono; [apply sleep_between_spec|].
    intros st1 r1 [Htr1 Hr1]. destruct r1 as [[]|e|]; [| |contradiction].
    2: { exists []. rewrite app_nil_r. split; [exact Htr1|].
         repeat split; constructor. }
    apply wp_bind. eapply wp_mono; [apply request_exact|].
    intros st2 r2 (reply & Htr2 & Hpost2). rewrite Htr1 in Htr2.
    destruct r2 as [[nm2 res2]|e|]; [| |contradiction].
    2: { exists [Request (Retry attempt) rb reply]. split; [exact Htr2|].
         split; [constructor; [reflexivity|constructor]|].
         split; [reflexivity|constructor]. }
    destruct Hpost2 as [Hret2 Hnm2].
    eapply wp_mono; [apply IH|].
    intros st3 r3 (evs & Htr3 & Hph3 & Hpost3).
    exists (Request (Retry attempt) rb reply :: evs).
    split; [rewrite Htr3, Htr2, <- app_assoc; reflexivity|].
    split; [constructor; [reflexivity|exact Hph3]|].
    destruct r3 as [[nm3 res3]|e|]; [| |contradiction].
    + destruct Hpost3 as (Hw3 & Hret3 & Hnm3). cbn [map flat_map ev_words].
      split; [rewrite Hw3; reflexivity|].
      split; [constructor; assumption|].
      rewrite Hnm3, Hnm2, <- app_assoc. reflexivity.
    + destruct Hpost3 as (Hw3 & Hret3). cbn [map ev_words length firstn].
      split; [rewrite Hw3; reflexivity|].
      apply Forall_removelast_cons; assumption.
Qed.

Lemma retry_round_exact attempt missing results st :
  wp (retry_round retry_batch_size apply_postfixes sleep_between_s
                  attempt missing results)
     (fun st' r =>
        exists evs,
          trace st' = trace st ++ evs
          /\ Forall (fun e => ev_phase e = Retry attempt) evs
          /\ match r with
             | Ok (missing', _) =>
                 chunk_list missing retry_batch_size = Returns (map ev_words evs)
                 /\ Forall returned evs
                 /\ missing' = flat_map unanswered evs
             | Raised _ =>
                 map ev_words evs
                 = firstn (length evs) (groups_of missing retry_batch_size)
                 /\ Forall returned (removelast evs)
             | OutOfFuel => False
             end) st.
Proof.
  unfold retry_round, groups_of. apply wp_bind. apply wp_lift.
  destruct (chunk_list missing retry_batch_size) as [rbs|e]; cbn [outcome_of].
  - eapply wp_mono; [apply retry_batches_exact|].
    intros st' r (evs & Htr & Hph & Hpost). exists evs.
    split; [exact Htr|]. split; [exact Hph|].
    destruct r as [[nm res]|e|]; [|exact Hpost|exact Hpost].
    destruct Hpost as (Hw & Hret & Hnm). rewrite Hw. repeat split; assumption.
  - exists []. rewrite app_nil_r. repeat split; constructor.
Qed.

Lemma retry_loop_exact fuel :
  forall attempt missing results st,
    (Z.to_nat (max_retries - attempt) < fuel)%nat ->
    wp (retry_loop max_retries retry_batch_size apply_postfixes sleep_between_s
                   fuel attempt missing results)
       (fun st' r =>
          exists evs,
            trace st' = trace st ++ evs
            /\ match r with
               | Ok (_, missing', _) =>
                   retry_rounds max_retries retry_batch_size
                                attempt missing evs true
               | Raised _ =>
                   retry_rounds max_retries retry_batch_size
                                attempt missing evs false
               | OutOfFuel => False
               end) st.
Proof.
  induction fuel as [|fuel IH]; intros attempt missing results st Hfuel;
    [lia|]. cbn [retry_loop].
  destruct missing as [|w ws].
  { apply wp_ret. exists []. rewrite app_nil_r. split; [reflexivity|].
    constructor. left. reflexivity. }
  destruct (Z.ltb_spec attempt max_retries) as [Hlt|Hge].
  2: { apply wp_ret. exists []. rewrite app_nil_r. split; [reflexivity|].
       constructor. right. exact Hge. }
  apply wp_bind. eapply wp_mono; [apply retry_round_exact|].
  intros st1 r1 (evs & Htr1 & Hph1 & Hpost1).
  destruct r1 as [[nm res]|e|]; [| |contradiction].
  2: { exists evs. split; [exact Htr1|]. destruct Hpost1 as [Hw Hret].
       apply rounds_cut; try assumption. discriminate. }
  destruct Hpost1 as (Hch & Hret & ->).
  eapply wp_mono; [apply IH; lia|].
  intros st2 r2 (rest & Htr2 & Hpost2). exists (evs ++ rest).
  split; [rewrite Htr2, Htr1, <- app_assoc; reflexivity|].
  assert (Hall : Forall (fun e => ev_phase e = Retry (attempt + 1) /\ returned e) evs).
  { apply Forall_forall. intros e He. split.
    - exact (proj1 (Forall_forall _ _) Hph1 e He).
    - exact (proj1 (Forall_forall _ _) Hret e He). }
  destruct r2 as [[[a m] res2]|e|]; [| |contradiction];
    (apply rounds_round; [discriminate|exact Hlt|exact Hch|exact Hall|exact Hpost2]).
Qed.

Lemma process_batch_exact batch results st :
  wp (process_batch max_retries retry_batch_size apply_postfixes sleep_between_s
                    batch results)
     (fun st' r =>
        exists seg,
          trace st' = trace st ++ seg
          /\ match r with
             | Ok _ => batch_run max_retries retry_batch_size batch seg true
             | Raised _ => batch_run max_retries retry_batch_size batch seg false
             | OutOfFuel => False
             end) st.
Proof.
  unfold process_batch. apply wp_bind. eapply wp_mono; [apply request_exact|].
  intros st1 r1 (reply & Htr1 & Hpost1).
  destruct r1 as [[missing res]|e|]; [| |contradiction].
  2: { exists [Request Initial batch reply]. split; [exact Htr1|]. subst reply.
       exists (Raises e), []. split; [reflexivity|]. split; reflexivity. }
  destruct Hpost1 as [(content & Hc) Hm]. cbn [ev_reply] in Hc. subst reply.
  cbn [app] in Hm. subst missing.
  apply wp_bind. eapply wp_mono; [apply retry_loop_exact; lia|].
  intros st2 r2 (evs & Htr2 & Hpost2).
  assert (Htr : trace st2
                = trace st ++ Request Initial batch (Returns content) :: evs).
  { rewrite Htr2, Htr1, <- app_assoc. reflexivity. }
  destruct r2 as [[[a m] res2]|e|]; [| |contradiction].
  - apply wp_ret. eexists. split; [exact Htr|].
    exists (Returns content), evs. split; [reflexivity|exact Hpost2].
  - eexists. split; [exact Htr|].
    exists (Returns content), evs. split; [reflexivity|exact Hpost2].
Qed.

Lemma process_batches_exact batches :
  forall results st,
    wp (process_batches max_retries retry_batch_size apply_postfixes
                        sleep_between_s batches results)
       (fun st' r =>
          exists segs,
            trace st' = trace st ++ concat segs
            /\ match r with
               | Ok _ =>
                   batches_run max_retries retry_batch_size batches segs true
               | Raised _ =>
                   batches_run max_retries retry_batch_size batches segs false
               | OutOfFuel => False
               end) st.
Proof.
  induction batches as [|batch more IH]; intros results st;
    cbn [process_batches].
  - apply wp_ret. exists []. rewrite app_nil_r. split; [reflexivity|constructor].
  - apply wp_bind. eapply wp_mono; [apply process_batch_exact|].
    intros st1 r1 (seg & Htr1 & Hpost1).
    destruct r1 as [res1|e|]; [| |contradiction].
    2: { exists [seg]. cbn [concat]. rewrite app_nil_r. split; [exact Htr1|].
         exists [], seg, batch. repeat split; [constructor|exact Hpost1]. }
    eapply wp_mono; [apply IH|].
    intros st2 r2 (segs & Htr2 & Hpost2). exists (seg :: segs).
    split; [cbn [concat]; rewrite Htr2, Htr1, <- app_assoc; reflexivity|].
    destruct r2 as [res2|e|]; [| |contradiction].
    + constructor; assumption.
    + destruct Hpost2 as (done & cut & b & -> & Hdone & Hb & Hcut).
      exists (seg :: done), cut, b. repeat split; try assumption.
      cbn [length firstn]. constructor; assumption.
Qed.

(** *** The claims about the run *)


(** C2 (amended). The retry loop of every batch ends, whatever the inputs:
    it runs some number [n] of rounds, at most the configured maximum;
    before each of these rounds the missing list was not empty; and when
    the last one returns, the missing list is empty or [n] is exactly the
    maximum. The whole of [generate] never runs out of fuel either. When it
    returns (from an empty trace), every word of the input for which some
    request produced a non-empty definition is in the mapping with a
    non-empty raw definition and its cleaned form; a word for which none
    did is in the mapping with raw "" and cleaned "" when the batch size is
    at least 1 and either the retry batch size is at least 1 or no retry is
    allowed, and has no entry at all otherwise (a negative batch size
    requests nothing; a retry batch size below 1, with retries allowed,
    empties the missing list without a request). *)
Theorem retry_loop_terminates_and_finalizes :
  (forall missing results st,
      exists n : nat,
        (Z.of_nat n <= Z.max 0 max_retries)%Z
        /\ retry_loop max_retries retry_batch_size apply_postfixes sleep_between_s
                      (S (Z.to_nat max_retries)) 0 missing results st
           = run_rounds retry_batch_size apply_postfixes sleep_between_s
                        n 0 missing results st
        /\ (forall k, (k < n)%nat ->
              exists st_k a_k m_k res_k,
                run_rounds retry_batch_size apply_postfixes sleep_between_s
                           k 0 missing results st
                = (st_k, Ok (a_k, m_k, res_k))
                /\ m_k <> [])
        /\ match snd (run_rounds retry_batch_size apply_postfixes sleep_between_s
                                 n 0 missing results st) with
           | Ok (a, m, _) =>
               a = Z.of_nat n /\ (m = [] \/ Z.of_nat n = Z.max 0 max_retries)
           | Raised _ => True
           | OutOfFuel => False
           end)
  /\ (forall words batch_size st,
         snd (generate max_retries retry_batch_size apply_postfixes
                       sleep_between_s words batch_size st) <> OutOfFuel)
  /\ (forall words batch_size st st' results,
         trace st = [] ->
         generate max_retries retry_batch_size apply_postfixes sleep_between_s
                  words batch_size st = (st', Ok results) ->
         forall w, In w words ->
           (~ produced (trace st') w ->
            dict_get results w
            = if ((1 <=? batch_size)
                  && ((1 <=? retry_batch_size) || (max_retries <=? 0)))%Z
              then Some ([], []) else None)
           /\ (produced (trace st') w ->
               exists d, dict_get results w = Some (d, cleaned_of apply_postfixes d)
                         /\ is_blank d = false)).
Proof.
  split; [|split].
  - intros missing results st.
    destruct (@retry_loop_rounds (S (Z.to_nat max_retries)) 0%Z missing results st
                ltac:(lia)) as (n & Hn & Heq & Hbefore & Hend).
    rewrite Z.sub_0_r in Hn, Hend. exists n. repeat split; assumption.
  - intros words batch_size st Hout.
    pose proof (generate_spec words batch_size st) as Hspec. unfold wp in Hspec.
    rewrite Hout in Hspec.
    destruct (chunk_list words batch_size) as [batches|e].
    + destruct Hspec as (segs & _ & _ & []).
    + destruct Hspec as [_ Habs]. discriminate.
  - intros words batch_size st st' results Htr Hrun w Hw.
    pose proof (generate_spec words batch_size st) as Hspec.
    pose proof (@wp_run _ _ _ _ _ _ Hspec Hrun) as Hpost.
    pose proof (chunk_list_cases words batch_size) as Hch.
    destruct (chunk_list words batch_size) as [batches|e] eqn:Hchunks;
      [|destruct Hpost; discriminate].
    destruct Hch as (_ & _ & Hall).
    destruct Hpost as (segs & _ & _ & _ & Hg & Hcov).
    assert (Hag : agrees apply_postfixes (trace st') results).
    { apply (grows_agrees Hg). rewrite Htr. intros w'. cbn.
      intros (e & [] & _). }
    unfold generate, bind, lift in Hrun. rewrite Hchunks in Hrun.
    cbn [outcome_of] in Hrun.
    split.
    2: { intro Hyes. specialize (Hag w).
         destruct (dict_get results w) as [[d c]|]; cbn in Hag; [|contradiction].
         destruct Hag as [(Hd & Hc & Hp)|(Hd & Hc & Hp)]; [|contradiction].
         subst c. exists d. split; [reflexivity|exact Hd]. }
    intro Hno.
    assert (Hmark : dict_get results w <> None -> dict_get results w = Some ([], [])).
    { intro Hdom. specialize (Hag w).
      destruct (dict_get results w) as [[d c]|]; cbn in Hag; [|contradiction].
      destruct Hag as [(Hd & Hc & Hp)|(Hd & Hc & Hp)]; [contradiction|].
      subst. reflexivity. }
    assert (Hnone : (forall w', dict_get results w' <> None -> resolved results w') ->
                    dict_get results w = None).
    { intro Hres. destruct (option_eq_None (dict_get results w)) as [G|Hdom];
        [exact G|].
      destruct (Hres w Hdom) as (d & c & Hget & Hb).
      rewrite (Hmark Hdom) in Hget. injection Hget as <- <-. discriminate. }
    destruct (Z.leb_spec 1 batch_size) as [Hbs|Hbs]; cbn [andb].
    2: { assert (Hle : (batch_size <= 0)%Z) by lia.
         rewrite (chunk_list_nonpositive words Hle) in Hchunks.
         destruct (batch_size =? 0)%Z; [discriminate|].
         injection Hchunks as <-. cbn in Hrun. injection Hrun as _ <-. reflexivity. }
    specialize (Hall Hbs).
    destruct (Z.leb_spec 1 retry_batch_size) as [Hrbs|Hrbs]; cbn [orb].
    { apply Hmark. apply (Hcov Hrbs). rewrite Hall. exact Hw. }
    destruct (Z.leb_spec max_retries 0) as [Hoff|Hon].
    + apply Hmark.
      pose proof (process_batches_cover_off batches Hoff [] st) as Hc.
      unfold wp in Hc. rewrite Hrun in Hc. cbn [fst snd] in Hc.
      apply Hc. rewrite Hall. exact Hw.
    + apply Hnone.
      assert (Hempty : forall w' : str,
                 dict_get (@nil (str * (str * str))) w' <> None ->
                 resolved [] w') by (intros w' Habs; contradiction).
      assert (Hle : (retry_batch_size <= 0)%Z) by lia.
      assert (Hge : (1 <= max_retries)%Z) by lia.
      pose proof (@process_batches_no_marker batches Hle Hge [] st Hempty) as Hc.
      unfold wp in Hc. rewrite Hrun in Hc. exact Hc.
Qed.

(** C1 (amended). Retries are dispatched batch by batch, not after the
    whole initial pass. For every run, the requests issued are the
    concatenation, over the initial batches in order, of one segment per
    batch: the request of the batch itself and then, when it returned, the
    retry rounds of that batch. The rounds start from the words the
    initial reply left unanswered and from the counter 0 (restarted for
    each batch); a round is made while the missing list is not empty and
    the counter is below the maximum; its requests carry, in order, the
    groups of the missing list at the retry batch size, under the counter
    plus one; the next missing list is made of the words these requests
    left unanswered. A run that returns has made the segment of every
    batch; a run that raises has made those of the first batches and a
    segment cut in the round where the exception came. *)
Theorem retries_follow_their_batch (words : list str) (batch_size : Z) (st : state) :
  let run := generate max_retries retry_batch_size apply_postfixes
                      sleep_between_s words batch_size st in
  match chunk_list words batch_size with
  | Raises e => trace (fst run) = trace st /\ snd run = Raised e
  | Returns batches =>
      exists segs,
        trace (fst run) = trace st ++ concat segs
        /\ match snd run with
           | Ok _ => batches_run max_retries retry_batch_size batches segs true
           | Raised _ =>
               batches_run max_retries retry_batch_size batches segs false
           | OutOfFuel => False
           end
  end.
Proof.
  cbn zeta. unfold generate, bind, lift.
  destruct (chunk_list words batch_size) as [batches|e]; cbn [outcome_of fst snd];
    [|split; reflexivity].
  pose proof (process_batches_exact batches [] st) as Hspec. unfold wp in Hspec.
  destruct Hspec as (segs & Htr & Hpost). exists segs. split; assumption.
Qed.

End RunFacts.

(** ** Reading the input *)

Lemma strip_by_idempotent f s : strip_by f (strip_by f s) = strip_by f s.
Proof. destruct (strip_by_ends f s) as [Hh Hl]. apply strip_by_id; assumption. Qed.

Lemma header_fields_get (names : list str) :
  forall (m0 : dict str) k h,
    dict_get (fold_left (fun m h => dict_set m (strip h) h) names m0) k = Some h ->
    (In h names /\ strip h = k) \/ dict_get m0 k = Some h.
Proof.
  induction names as [|a names IH]; intros m0 k h Hget; cbn [fold_left] in Hget.
  - right. exact Hget.
  - apply IH in Hget as [[Hin Hk]|Hget].
    + left. split; [right; exact Hin|exact Hk].
    + rewrite dict_get_set in Hget.
      destruct (str_eqb_spec k (strip a)) as [E|E].
      * injection Hget as <-. left. split; [left; reflexivity|congruence].
      * right. exact Hget.
Qed.

Lemma header_fields_found (names : list str) :
  forall (m0 : dict str) k,
    names_column names k \/ dict_get m0 k <> None ->
    dict_get (fold_left (fun m h => dict_set m (strip h) h) names m0) k <> None.
Proof.
  induction names as [|a names IH]; intros m0 k Hk; cbn [fold_left].
  - destruct Hk as [(h & [] & _)|Hk]. exact Hk.
  - apply IH. rewrite dict_get_set.
    destruct (str_eqb_spec k (strip a)) as [E|E]; [right; discriminate|].
    destruct Hk as [(h & [<-|Hin] & Hs)|Hk].
    + symmetry in Hs. contradiction.
    + left. exists h. split; assumption.
    + right. exact Hk.
Qed.

Lemma header_fields_column (names : list str) k :
  dict_get (fold_left (fun m h => dict_set m (strip h) h) names []) k <> None
  <-> names_column names k.
Proof.
  split.
  - intro Hget.
    destruct (dict_get (fold_left (fun m h => dict_set m (strip h) h) names []) k)
      as [h|] eqn:G; [|contradiction].
    apply header_fields_get in G as [[Hin Hs]|G]; [|discriminate].
    exists h. split; assumption.
  - intro Hk. apply header_fields_found. left. exact Hk.
Qed.

Lemma find_duo_col_spec (fields : dict str) (candidates : list str) :
  match find_duo_col fields candidates with
  | None => forall c, In c candidates -> dict_get fields c = None
  | Some h =>
      exists before c after,
        candidates = before ++ c :: after
        /\ dict_get fields c = Some h
        /\ forall c', In c' before -> dict_get fields c' = None
  end.
Proof.
  induction candidates as [|c more IH]; cbn [find_duo_col].
  - intros c [].
  - destruct (dict_get fields c) as [h|] eqn:G.
    + exists [], c, more. split; [reflexivity|]. split; [exact G|intros c' []].
    + destruct (find_duo_col fields more) as [h|].
      * destruct IH as (before & c0 & after & -> & Hc0 & Hbefore).
        exists (c :: before), c0, after. split; [reflexivity|]. split; [exact Hc0|].
        intros c' [<-|Hin]; [exact G|apply Hbefore; exact Hin].
      * intros c' [<-|Hin]; [exact G|apply IH; exact Hin].
Qed.

Lemma read_rows_closed_form word_col duo_col (rs : list (dict (option str))) :
  read_rows word_col duo_col rs
  = map (fun r =>
           mkRowIn (strip (cell r word_col))
                   (strip (match duo_col with Some c => cell r c | None => [] end)))
        (filter (fun r => negb (is_blank (cell r word_col))) rs).
Proof.
  induction rs as [|r more IH]; cbn [read_rows filter map]; [reflexivity|].
  unfold is_blank.
  destruct (strip (cell r word_col)) as [|c w] eqn:W; cbn [negb map].
  - exact IH.
  - rewrite IH, W. reflexivity.
Qed.

Lemma read_input_csv_returns reader rows :
  read_input_csv reader = Returns rows ->
  exists names word_col,
    fieldnames reader = Some names
    /\ In word_col names /\ strip word_col = U "word"
    /\ rows = read_rows word_col
                (find_duo_col
                   (fold_left (fun m h => dict_set m (strip h) h) names [])
                   [U "duolingo_definition"; U "duolingo"; U "definition";
                    U "duo_definition"])
                (records reader)
    /\ failure reader = None.
Proof.
  unfold read_input_csv.
  destruct (fieldnames reader) as [[|a names]|];
    [discriminate| |destruct (failure reader); discriminate].
  destruct (dict_get (fold_left (fun m h => dict_set m (strip h) h) (a :: names) [])
                     (U "word")) as [word_col|] eqn:G; [|discriminate].
  destruct (failure reader) as [e|]; [discriminate|].
  intro Hrows. injection Hrows as <-.
  apply header_fields_get in G as [[Hin Hs]|G]; [|discriminate].
  exists (a :: names), word_col. repeat split; assumption.
Qed.

(** ** main *)

Section MainFacts.
Context `{Externals}.

Lemma build_rows_spec (results : results_t) (inputs : list RowIn) :
  fst (build_rows results inputs)
  = map (fun r =>
           mkRowOut (in_word r) (in_duolingo_definition r)
                    (fst (dict_get_default results (in_word r) ([], [])))
                    (snd (dict_get_default results (in_word r) ([], []))))
        inputs
  /\ snd (build_rows results inputs)
     = Z.of_nat (length (filter (fun r =>
                  is_blank (fst (dict_get_default results (in_word r) ([], []))))
                inputs)).
Proof.
  induction inputs as [|r more [IHrows IHcount]]; cbn [build_rows map filter].
  - split; reflexivity.
  - destruct (dict_get_default results (in_word r) ([], [])) as [model_def cleaned_def].
    destruct (build_rows results more) as [out_rows missing_count].
    cbn [fst snd] in *. subst out_rows missing_count. split; [reflexivity|].
    destruct (is_blank model_def); cbn [length]; lia.
Qed.

Lemma agrees_blank apply_postfixes tr (results : results_t) w :
  agrees apply_postfixes tr results ->
  (is_blank (fst (dict_get_default results w ([], []))) = true
   <-> ~ produced tr w)
  /\ (is_blank (fst (dict_get_default results w ([], []))) = false
      <-> produced tr w).
Proof.
  intro Hag. specialize (Hag w). unfold dict_get_default.
  destruct (dict_get results w) as [[d c]|]; cbn in Hag |- *.
  - destruct Hag as [(Hd & _ & Hp)|(Hd & _ & Hp)].
    + rewrite Hd.
      repeat split; intros; try assumption; try discriminate; try contradiction.
    + subst d. change (is_blank []) with true.
      repeat split; intros; try assumption; try discriminate; try contradiction.
  - change (is_blank []) with true.
    repeat split; intros; try assumption; try discriminate; try contradiction.
Qed.

Lemma main_inputs args reader st st' code rows :
  main args reader st = (st', Ok (code, rows)) ->
  exists inputs,
    read_input_csv reader = Returns inputs
    /\ main_rows args inputs st = (st', Ok (code, rows)).
Proof.
  unfold main, bind, lift.
  destruct (read_input_csv reader) as [inputs|e]; cbn [outcome_of].
  - intro Hrun. exists inputs. split; [reflexivity|exact Hrun].
  - discriminate.
Qed.

Lemma main_rows_nonempty args r more st st' code rows :
  main_rows args (r :: more) st = (st', Ok (code, rows)) ->
  exists word_to_defs,
    generate (arg_retries args) (arg_retry_batch args) (negb (arg_no_clean args))
             (arg_sleep args) (map in_word (r :: more)) (arg_batch args) st
    = (st', Ok word_to_defs)
    /\ rows = Some (fst (build_rows word_to_defs (r :: more)))
    /\ code = (if (snd (build_rows word_to_defs (r :: more)) =? 0)%Z
               then 0 else 1)%Z.
Proof.
  cbn [main_rows]. unfold bind.
  destruct (generate _ _ _ _ _ _ st) as [st1 [word_to_defs|e|]]; try discriminate.
  cbn beta. intro Hrun. exists word_to_defs.
  destruct (build_rows word_to_defs (r :: more)) as [out_rows missing_count].
  cbn [fst snd].
  destruct (missing_count =? 0)%Z; unfold ret in Hrun; injection Hrun as <- <- <-;
    repeat split; reflexivity.
Qed.

(** C3. For every run of [main] that returns (from an empty trace): the
    exit status is non-zero exactly when the input table gave no usable row
    or some row's word was never given a definition that is not empty after
    trimming by any request of the run, retries included; it is zero
    exactly when there is a row and every row's word was given one. The
    rows written carry an empty (after trimming) model definition for
    exactly the words never given one. *)
Theorem exit_status_reports_unresolved
        (args : Args) (reader : DictReader) (st st' : state)
        (code : Z) (rows : option (list RowOut)) :
  trace st = [] ->
  main args reader st = (st', Ok (code, rows)) ->
  exists inputs,
    read_input_csv reader = Returns inputs
    /\ (code <> 0%Z <->
        inputs = []
        \/ exists r, In r inputs /\ ~ produced (trace st') (in_word r))
    /\ (code = 0%Z <->
        inputs <> []
        /\ forall r, In r inputs -> produced (trace st') (in_word r))
    /\ (forall out_rows o,
          rows = Some out_rows -> In o out_rows ->
          (is_blank (out_model_definition o) = true
           <-> ~ produced (trace st') (out_word o))).
Proof.
  intros Htr Hmain. apply main_inputs in Hmain as (inputs & Hread & Hrun).
  exists inputs. split; [exact Hread|].
  destruct inputs as [|r more].
  - cbn in Hrun. injection Hrun as <- <- <-.
    split; [|split].
    + split; [intros _; left; reflexivity|discriminate].
    + split; [discriminate|intros [Hne _]; contradiction].
    + discriminate.
  - apply main_rows_nonempty in Hrun as (word_to_defs & Hgen & Hrows & Hcode).
    pose proof (generate_spec (arg_retries args) (arg_retry_batch args)
                  (negb (arg_no_clean args)) (arg_sleep args)
                  (map in_word (r :: more)) (arg_batch args) st) as Hspec.
    apply (@wp_run _ _ _ _ _ _ _ Hspec) in Hgen.
    destruct (chunk_list (map in_word (r :: more)) (arg_batch args)) as [batches|e];
      [|destruct Hgen; discriminate].
    destruct Hgen as (segs & _ & _ & _ & Hg & _).
    assert (Hag : agrees (negb (arg_no_clean args)) (trace st') word_to_defs).
    { apply (grows_agrees Hg). rewrite Htr. intros w'. cbn. intros (e & [] & _). }
    destruct (build_rows_spec word_to_defs (r :: more)) as [Hfst Hsnd].
    set (inputs := r :: more) in *.
    set (blank := fun r0 : RowIn =>
                    is_blank (fst (dict_get_default word_to_defs (in_word r0) ([], []))))
      in *.
    assert (Hzero : (snd (build_rows word_to_defs inputs) =? 0)%Z = true
                    <-> forall r0, In r0 inputs -> produced (trace st') (in_word r0)).
    { rewrite Hsnd, Z.eqb_eq. split.
      - intros Hlen r0 Hr0.
        apply (agrees_blank (in_word r0) Hag).
        destruct (blank r0) eqn:B; [|exact B].
        assert (Hin : In r0 (filter blank inputs))
          by (apply filter_In; split; assumption).
        destruct (filter blank inputs); [contradiction|discriminate].
      - intro Hall. destruct (filter blank inputs) as [|r0 rest] eqn:F; [reflexivity|].
        assert (Hin : In r0 (filter blank inputs)) by (rewrite F; left; reflexivity).
        apply filter_In in Hin as [Hr0 B].
        apply (agrees_blank (in_word r0) Hag) in B.
        exfalso. apply B, Hall, Hr0. }
    split; [|split].
    + subst code. destruct (snd (build_rows word_to_defs inputs) =? 0)%Z eqn:Z0.
      * split; [intro Hne; contradiction|].
        intros [Hnil|(r0 & Hr0 & Hno)]; [discriminate|].
        exfalso. apply Hno. apply (proj1 Hzero eq_refl). exact Hr0.
      * split; [|discriminate]. intros _. right.
        destruct (filter blank inputs) as [|r0 rest] eqn:F.
        -- rewrite Hsnd in Z0. discriminate.
        -- assert (Hin : In r0 (filter blank inputs)) by (rewrite F; left; reflexivity).
           apply filter_In in Hin as [Hr0 B]. exists r0. split; [exact Hr0|].
           apply (agrees_blank (in_word r0) Hag). exact B.
    + subst code. destruct (snd (build_rows word_to_defs inputs) =? 0)%Z eqn:Z0.
      * split; [|reflexivity]. intros _. split; [discriminate|].
        apply Hzero. reflexivity.
      * split; [discriminate|]. intros [_ Hall].
        apply Hzero in Hall. discriminate.
    + intros out_rows o Hsome Ho. rewrite Hrows in Hsome.
      assert (Heq : out_rows = fst (build_rows word_to_defs inputs)) by congruence.
      rewrite Heq, Hfst in Ho. apply in_map_iff in Ho as (r0 & <- & Hr0).
      cbn [out_model_definition out_word].
      apply (agrees_blank (in_word r0) Hag).
Qed.

(** C9 (amended). The duolingo definition is carried through trimmed, not
    unmodified. For every run of [main] that writes its output: the rows
    written are, in order, one per row read by [read_input_csv], with the
    same word and the same duolingo definition as that row; and that
    definition is the cell of the definition column (the column of an
    accepted header name) with the whitespace at both ends removed, for the
    records whose word is not blank, in order; it is empty when the file
    has no such column. *)
Theorem duolingo_definition_carried_through
        (args : Args) (reader : DictReader) (st st' : state)
        (code : Z) (out_rows : list RowOut) :
  main args reader st = (st', Ok (code, Some out_rows)) ->
  exists inputs names word_col,
    read_input_csv reader = Returns inputs
    /\ map out_word out_rows = map in_word inputs
    /\ map out_duolingo_definition out_rows
       = map in_duolingo_definition inputs
    /\ fieldnames reader = Some names
    /\ In word_col names /\ strip word_col = U "word"
    /\ ((exists duo_col,
            In duo_col names
            /\ In (strip duo_col)
                  [U "duolingo_definition"; U "duolingo"; U "definition";
                   U "duo_definition"]
            /\ map out_duolingo_definition out_rows
               = map (fun r => strip (cell r duo_col))
                     (filter (fun r => negb (is_blank (cell r word_col)))
                             (records reader)))
        \/ ((forall c,
                In c [U "duolingo_definition"; U "duolingo"; U "definition";
                      U "duo_definition"] ->
                ~ names_column names c)
            /\ map out_duolingo_definition out_rows
               = map (fun _ => [])
                     (filter (fun r => negb (is_blank (cell r word_col)))
                             (records reader)))).
Proof.
  intro Hmain. apply main_inputs in Hmain as (inputs & Hread & Hrun).
  destruct (read_input_csv_returns _ Hread)
    as (names & word_col & Hn & Hin & Hs & Hrows & _).
  exists inputs, names, word_col. split; [exact Hread|].
  assert (Hout : map out_word out_rows = map in_word inputs
                 /\ map out_duolingo_definition out_rows
                    = map in_duolingo_definition inputs).
  { destruct inputs as [|r more]; [cbn in Hrun; discriminate|].
    apply main_rows_nonempty in Hrun as (word_to_defs & _ & Hr & _).
    assert (Heq : out_rows = fst (build_rows word_to_defs (r :: more)))
      by congruence.
    rewrite Heq. destruct (build_rows_spec word_to_defs (r :: more)) as [-> _].
    rewrite !map_map. cbn [out_word out_duolingo_definition]. split; reflexivity. }
  destruct Hout as [Hw Hd]. repeat (split; [assumption|]).
  rewrite Hd, Hrows, read_rows_closed_form, map_map.
  cbn [in_duolingo_definition].
  pose proof (find_duo_col_spec
                (fold_left (fun m h => dict_set m (strip h) h) names [])
                [U "duolingo_definition"; U "duolingo"; U "definition";
                 U "duo_definition"]) as Hfind.
  destruct (find_duo_col _ _) as [duo_col|].
  - left. destruct Hfind as (before & c & after & Hsplit & Hc & _).
    apply header_fields_get in Hc as [[Hdin Hds]|Hc]; [|discriminate].
    exists duo_col. split; [exact Hdin|]. split; [|reflexivity].
    rewrite Hds, Hsplit. apply in_or_app. right. left. reflexivity.
  - right. split; [|reflexivity].
    intros c Hc Hcol. apply header_fields_column in Hcol. apply Hcol, Hfind, Hc.
Qed.

End MainFacts.

(** ** The example run *)

(** C1, as stated, fails. In the example run the first batch, "comer" and
    "beber", gets "comer" only; "beber" is retried twice, alone, before the
    second batch, "vivir", is requested at all. *)
Lemma retries_precede_later_batches :
  map (fun e => (is_retry e, ev_words e)) (trace (fst Example.run))
  = [ (false, [U "comer"; U "beber"]);
      (true, [U "beber"]);
      (true, [U "beber"]);
      (false, [U "vivir"]);
      (true, [U "vivir"]);
      (true, [U "vivir"]) ]
  /\ ~ initial_pass_first (trace (fst Example.run)).
Proof.
  split; [vm_compute; reflexivity|].
  intro Hall.
  set (tr := trace (fst Example.run)) in *.
  set (none := @Request Initial [] (Returns [])).
  specialize (Hall (firstn 1 tr) (nth 1 tr none) (skipn 2 tr)).
  assert (Hsplit : tr = firstn 1 tr ++ nth 1 tr none :: skipn 2 tr)
    by (vm_compute; reflexivity).
  assert (Hretry : is_retry (nth 1 tr none) = true) by (vm_compute; reflexivity).
  specialize (Hall Hsplit Hretry).
  assert (Hin : In (nth 3 tr none) (skipn 2 tr))
    by (vm_compute; right; left; reflexivity).
  pose proof (proj1 (Forall_forall _ _) Hall _ Hin) as Habs.
  vm_compute in Habs. discriminate.
Qed.

Lemma retry_loop_terminates_and_finalizes_witness :
  let results := match snd Example.run with Ok r => r | _ => [] end in
  dict_get results (U "comer") = Some (U "to eat", U "to eat")
  /\ dict_get results (U "beber") = Some ([], [])
  /\ (~ @produced Example.externals (trace (fst Example.run)) (U "beber") ->
      dict_get results (U "beber") = Some ([], []))
  /\ (@produced Example.externals (trace (fst Example.run)) (U "beber") ->
      exists d, dict_get results (U "beber")
                = Some (d, @cleaned_of Example.externals true d)
                /\ is_blank d = false).
Proof.
  cbn zeta. split; [vm_compute; reflexivity|]. split; [vm_compute; reflexivity|].
  refine (proj2 (proj2 (@retry_loop_terminates_and_finalizes
                          Example.externals 2 1 true 0%float))
                Example.words 2%Z Example.start (fst Example.run)
                (match snd Example.run with Ok r => r | _ => [] end)
                eq_refl _ (U "beber") _).
  - vm_compute. reflexivity.
  - right. left. reflexivity.
Defined.

(** C2, as stated, fails: with the retry batch size -1 the first round of
    the first batch finds no group to request and leaves the missing list
    empty; the run returns, no request has produced a definition for
    "beber", and "beber" has no entry in the mapping. *)
Lemma negative_retry_batch_leaves_no_entry :
  let run := @generate Example.externals 2 (-1) true 0%float
                       Example.words 2 Example.start in
  exists results,
    snd run = Ok results
    /\ map ev_words (trace (fst run))
       = [[U "comer"; U "beber"]; [U "vivir"]]
    /\ In (U "beber") Example.words
    /\ ~ @produced Example.externals (trace (fst run)) (U "beber")
    /\ dict_get results (U "beber") = None.
Proof.
  cbn zeta. eexists. split; [vm_compute; reflexivity|].
  split; [vm_compute; reflexivity|]. split; [right; left; reflexivity|].
  split; [|vm_compute; reflexivity].
  intros (e & Hin & Hw & content & Hc & Hb).
  vm_compute in Hin. destruct Hin as [<-|[<-|[]]].
  - injection Hc as <-. vm_compute in Hb. discriminate.
  - injection Hc as <-. vm_compute in Hb. discriminate.
Qed.


Lemma exit_status_reports_unresolved_witness :
  let st' := fst Example.main_run in
  snd Example.main_run
  = Ok (1%Z,
        Some [ mkRowOut (U "comer") (U "to eat") (U "to eat") (U "to eat");
               mkRowOut (U "beber") (U "to drink") [] [];
               mkRowOut (U "vivir") (U "to live") [] [] ])
  /\ exists inputs,
       read_input_csv Example.reader = Returns inputs
       /\ (1%Z <> 0%Z <->
           inputs = []
           \/ exists r, In r inputs
                        /\ ~ @produced Example.externals (trace st') (in_word r))
       /\ (1%Z = 0%Z <->
           inputs <> []
           /\ forall r, In r inputs ->
                        @produced Example.externals (trace st') (in_word r))
       /\ (forall out_rows o,
             Some [ mkRowOut (U "comer") (U "to eat") (U "to eat") (U "to eat");
                    mkRowOut (U "beber") (U "to drink") [] [];
                    mkRowOut (U "vivir") (U "to live") [] [] ]
             = Some out_rows ->
             In o out_rows ->
             (is_blank (out_model_definition o) = true
              <-> ~ @produced Example.externals (trace st') (out_word o))).
Proof.
  cbn zeta. split; [vm_compute; reflexivity|].
  apply (@exit_status_reports_unresolved Example.externals Example.args
           Example.reader Example.start).
  - reflexivity.
  - vm_compute. reflexivity.
Defined.

Lemma duolingo_definition_carried_through_witness :
  exists inputs names word_col,
    read_input_csv Example.reader = Returns inputs
    /\ map out_word
           [ mkRowOut (U "comer") (U "to eat") (U "to eat") (U "to eat");
             mkRowOut (U "beber") (U "to drink") [] [];
             mkRowOut (U "vivir") (U "to live") [] [] ]
       = map in_word inputs
    /\ map out_duolingo_definition
           [ mkRowOut (U "comer") (U "to eat") (U "to eat") (U "to eat");
             mkRowOut (U "beber") (U "to drink") [] [];
             mkRowOut (U "vivir") (U "to live") [] [] ]
       = map in_duolingo_definition inputs
    /\ fieldnames Example.reader = Some names
    /\ In word_col names /\ strip word_col = U "word"
    /\ ((exists duo_col,
            In duo_col names
            /\ In (strip duo_col)
                  [U "duolingo_definition"; U "duolingo"; U "definition";
                   U "duo_definition"]
            /\ map out_duolingo_definition
                   [ mkRowOut (U "comer") (U "to eat") (U "to eat") (U "to eat");
                     mkRowOut (U "beber") (U "to drink") [] [];
                     mkRowOut (U "vivir") (U "to live") [] [] ]
               = map (fun r => strip (cell r duo_col))
                     (filter (fun r => negb (is_blank (cell r word_col)))
                             (records Example.reader)))
        \/ ((forall c,
                In c [U "duolingo_definition"; U "duolingo"; U "definition";
                      U "duo_definition"] ->
                ~ names_column names c)
            /\ map out_duolingo_definition
                   [ mkRowOut (U "comer") (U "to eat") (U "to eat") (U "to eat");
                     mkRowOut (U "beber") (U "to drink") [] [];
                     mkRowOut (U "vivir") (U "to live") [] [] ]
               = map (fun _ => [])
                     (filter (fun r => negb (is_blank (cell r word_col)))
                             (records Example.reader)))).
Proof.
  apply (@duolingo_definition_carried_through Example.externals Example.args
           Example.reader Example.start (fst Example.main_run) 1%Z).
  vm_compute. reflexivity.
Defined.

(** C9, as stated, fails: the cell " to eat " of the example input is
    written "to eat". *)
Lemma duolingo_definition_is_trimmed :
  exists out_rows,
    Example.main_run = (fst Example.main_run, Ok (1%Z, Some out_rows))
    /\ map (fun r => cell r (U "definition")) (records Example.reader)
       = [U " to eat "; U "to drink"; U "to live"]
    /\ map out_duolingo_definition out_rows
       = [U "to eat"; U "to drink"; U "to live"]
    /\ map out_duolingo_definition out_rows
       <> map (fun r => cell r (U "definition")) (records Example.reader).
Proof.
  eexists. split; [vm_compute; reflexivity|].
  split; [vm_compute; reflexivity|]. split; [vm_compute; reflexivity|].
  vm_compute. discriminate.
Qed.

(* ================================================================== *)
(** * Part III: further properties of the script                      *)
(* ================================================================== *)

(** ** chunk_list *)

Lemma range_up_full {A} (xs : list A) (n : Z) :
  (0 < n)%Z ->
  forall fuel i,
    (0 <= i)%Z ->
    (Z.of_nat (length xs) - i <= Z.of_nat fuel)%Z ->
    forall g,
      In g (removelast (map (fun i => py_slice xs i (i + n))
                            (range_up fuel i (Z.of_nat (length xs)) n))) ->
      Z.of_nat (length g) = n.
Proof.
  intros Hn fuel. induction fuel as [|fuel IH]; intros i Hi Hfuel g Hg.
  - cbn in Hg. contradiction.
  - cbn [range_up] in Hg.
    destruct (Z.ltb_spec i (Z.of_nat (length xs))) as [Hlt|Hge];
      [|cbn in Hg; contradiction].
    cbn [map] in Hg.
    destruct fuel as [|fuel']; [cbn in Hg; contradiction|].
    cbn [range_up] in Hg, IH.
    destruct (Z.ltb_spec (i + n) (Z.of_nat (length xs))) as [Hnext|Hlast];
      [|cbn in Hg; contradiction].
    cbn [map removelast] in Hg.
    destruct Hg as [<-|Hg].
    + unfold py_slice. rewrite length_firstn, length_skipn. lia.
    + apply (IH (i + n)%Z ltac:(lia) ltac:(lia)).
      destruct (Z.ltb_spec (i + n) (Z.of_nat (length xs))); [|lia].
      exact Hg.
Qed.

(** X1. With a batch size [n >= 1], every group that [chunk_list] returns,
    the last one apart, has exactly [n] elements. *)
Theorem chunk_list_full_groups {A} (xs : list A) (n : Z) (gs : list (list A)) :
  (1 <= n)%Z ->
  chunk_list xs n = Returns gs ->
  forall g, In g (removelast gs) -> Z.of_nat (length g) = n.
Proof.
  intros Hn Hgs g Hg. unfold chunk_list, py_range in Hgs.
  destruct (Z.eqb_spec n 0) as [->|_]; [lia|].
  destruct (Z.ltb_spec 0 n) as [Hpos|]; [|lia].
  injection Hgs as <-.
  apply (@range_up_full A xs n Hpos
           (Z.to_nat (Z.of_nat (length xs) - 0)) 0%Z ltac:(lia) ltac:(lia) g Hg).
Qed.

Lemma chunk_list_full_groups_witness :
  chunk_list [1; 2; 3; 4; 5]%nat 2 = Returns [[1; 2]; [3; 4]; [5]]%nat
  /\ Z.of_nat (length [3; 4]%nat) = 2%Z.
Proof.
  split; [vm_compute; reflexivity|].
  apply (@chunk_list_full_groups nat [1; 2; 3; 4; 5]%nat 2 [[1; 2]; [3; 4]; [5]]%nat).
  - lia.
  - vm_compute. reflexivity.
  - right. left. reflexivity.
Defined.

(** X2. The sizes that are not positive: [chunk_list] raises (the
    [ValueError] of [range]) exactly for the size 0, whatever the list; for
    a negative size it returns no group at all, whatever the list. *)
Theorem chunk_list_nonpositive_size {A} (xs : list A) (n : Z) :
  ((exists e, chunk_list xs n = Raises e) <-> n = 0%Z)
  /\ (n = 0%Z -> chunk_list xs n = Raises ValueError)
  /\ ((n < 0)%Z -> chunk_list xs n = Returns []).
Proof.
  unfold chunk_list, py_range. split; [|split].
  - destruct (Z.eqb_spec n 0) as [->|Hn].
    + split; [reflexivity|]. intros _. exists ValueError. reflexivity.
    + split; [|contradiction]. intros [e He].
      destruct (0 <? n)%Z; discriminate.
  - intros ->. reflexivity.
  - intro Hneg. destruct (Z.eqb_spec n 0) as [->|_]; [lia|].
    destruct (Z.ltb_spec 0 n) as [|_]; [lia|].
    replace (Z.to_nat (0 - Z.of_nat (length xs))) with 0%nat by lia. reflexivity.
Qed.

(** ** read_input_csv and write_output_csv *)

(** X3. Every row [read_input_csv] returns has a word that is not empty
    and has no whitespace at either end, and a duolingo definition with no
    whitespace at either end. The words are, in order, the stripped cells
    of one column whose header reads "word" once stripped, the records
    where that cell is absent or blank being skipped. *)
Theorem read_input_csv_rows_are_trimmed (reader : DictReader) (rows : list RowIn) :
  read_input_csv reader = Returns rows ->
  Forall (fun r =>
            in_word r <> []
            /\ strip (in_word r) = in_word r
            /\ strip (in_duolingo_definition r) = in_duolingo_definition r)
         rows
  /\ exists names word_col,
       fieldnames reader = Some names
       /\ In word_col names /\ strip word_col = U "word"
       /\ map in_word rows
          = map (fun r => strip (cell r word_col))
                (filter (fun r => negb (is_blank (cell r word_col)))
                        (records reader)).
Proof.
  intro Hread.
  apply read_input_csv_returns in Hread as (names & word_col & Hn & Hin & Hs & -> & _).
  rewrite read_rows_closed_form. split.
  - apply Forall_forall. intros row Hrow.
    apply in_map_iff in Hrow as (r & <- & Hr). apply filter_In in Hr as [_ Hr].
    cbn [in_word in_duolingo_definition]. unfold strip.
    rewrite !strip_by_idempotent. repeat split.
    apply negb_true_iff in Hr. unfold is_blank, strip in Hr.
    destruct (strip_by isspace (cell r word_col)); [discriminate|discriminate].
  - exists names, word_col. repeat split; try assumption.
    rewrite map_map. reflexivity.
Qed.

Lemma read_input_csv_rows_are_trimmed_witness :
  exists names word_col,
    fieldnames Example.reader = Some names
    /\ In word_col names /\ strip word_col = U "word"
    /\ map in_word [mkRowIn (U "comer") (U "to eat");
                    mkRowIn (U "beber") (U "to drink");
                    mkRowIn (U "vivir") (U "to live")]
       = map (fun r => strip (cell r word_col))
             (filter (fun r => negb (is_blank (cell r word_col)))
                     (records Example.reader)).
Proof.
  refine (proj2 (@read_input_csv_rows_are_trimmed Example.reader _ _)).
  vm_compute. reflexivity.
Defined.

(** X4. The exceptions of [read_input_csv], and their order. It returns
    exactly when the file has a header, one of its names reads "word" once
    stripped, and the csv reader raises nothing. A header without such a
    name raises [ValueError] whatever the rows are (they are not read); a
    file without header raises [ValueError], or what the reader raised on
    it; with a "word" column, an exception of the reader comes out
    unchanged. *)
Theorem read_input_csv_raises_without_word_column (reader : DictReader) :
  ((exists rows, read_input_csv reader = Returns rows)
   <-> (exists names, fieldnames reader = Some names
                      /\ names_column names (U "word"))
       /\ failure reader = None)
  /\ (forall names,
         fieldnames reader = Some names -> ~ names_column names (U "word") ->
         read_input_csv reader = Raises ValueError)
  /\ (fieldnames reader = None ->
      read_input_csv reader
      = Raises (match failure reader with Some e => e | None => ValueError end))
  /\ (forall names e,
         fieldnames reader = Some names -> names_column names (U "word") ->
         failure reader = Some e ->
         read_input_csv reader = Raises e).
Proof.
  unfold read_input_csv.
  destruct (fieldnames reader) as [[|a names]|].
  - split; [|split; [|split]].
    + split.
      * intros [rows Hr]. discriminate.
      * intros [(names & Hn & h & Hin & _) _]. injection Hn as <-. destruct Hin.
    + intros names _ _. reflexivity.
    + discriminate.
    + intros names e Hn (h & Hin & _). injection Hn as <-. destruct Hin.
  - pose proof (header_fields_column (a :: names) (U "word")) as Hcol.
    destruct (dict_get (fold_left (fun m h => dict_set m (strip h) h) (a :: names) [])
                       (U "word")) as [word_col|].
    + assert (Hc : names_column (a :: names) (U "word")) by (apply Hcol; discriminate).
      split; [|split; [|split]].
      * split.
        -- intros [rows Hr]. split; [exists (a :: names); split; [reflexivity|exact Hc]|].
           destruct (failure reader); [discriminate|reflexivity].
        -- intros [_ ->]. eexists. reflexivity.
      * intros names' Hn Hno. injection Hn as <-. contradiction.
      * discriminate.
      * intros names' e _ _ ->. reflexivity.
    + assert (Hc : ~ names_column (a :: names) (U "word")).
      { intro Hc. apply Hcol in Hc. contradiction. }
      split; [|split; [|split]].
      * split.
        -- intros [rows Hr]. discriminate.
        -- intros [(names' & Hn & Hc') _]. injection Hn as <-. contradiction.
      * intros names' _ _. reflexivity.
      * discriminate.
      * intros names' e Hn Hc'. injection Hn as <-. contradiction.
  - split; [|split; [|split]].
    + split.
      * intros [rows Hr]. destruct (failure reader); discriminate.
      * intros [(names & Hn & _) _]. discriminate.
    + discriminate.
    + intros _. destruct (failure reader); reflexivity.
    + discriminate.
Qed.

(** X5. The duolingo definitions come from at most one column: the first
    of "duolingo_definition", "duolingo", "definition", "duo_definition"
    that some header name reads as once stripped (whatever the order of
    the columns in the file), every row's field being the stripped cell of
    that column; when no header reads as any of the four, every row's
    duolingo definition is empty. *)
Theorem read_input_csv_duolingo_column
        (reader : DictReader) (rows : list RowIn) (names : list str) :
  read_input_csv reader = Returns rows ->
  fieldnames reader = Some names ->
  let candidates := [U "duolingo_definition"; U "duolingo"; U "definition";
                     U "duo_definition"] in
  exists word_col,
    ((forall c, In c candidates -> ~ names_column names c)
     /\ rows = map (fun r => mkRowIn (strip (cell r word_col)) [])
                   (filter (fun r => negb (is_blank (cell r word_col)))
                           (records reader)))
    \/ (exists before c after duo_col,
           candidates = before ++ c :: after
           /\ (forall c', In c' before -> ~ names_column names c')
           /\ In duo_col names /\ strip duo_col = c
           /\ rows = map (fun r => mkRowIn (strip (cell r word_col))
                                           (strip (cell r duo_col)))
                         (filter (fun r => negb (is_blank (cell r word_col)))
                                 (records reader))).
Proof.
  intros Hread Hnames. cbn zeta.
  apply read_input_csv_returns in Hread as (names' & word_col & Hn & _ & _ & -> & _).
  rewrite Hnames in Hn. injection Hn as <-.
  exists word_col. rewrite read_rows_closed_form.
  pose proof (find_duo_col_spec
                (fold_left (fun m h => dict_set m (strip h) h) names [])
                [U "duolingo_definition"; U "duolingo"; U "definition";
                 U "duo_definition"]) as Hfind.
  destruct (find_duo_col _ _) as [duo_col|].
  - right. destruct Hfind as (before & c & after & Hsplit & Hc & Hbefore).
    apply header_fields_get in Hc as [[Hin Hs]|Hc]; [|discriminate].
    exists before, c, after, duo_col. repeat split; try assumption.
    intros c' Hc' Hcol. apply header_fields_column in Hcol.
    apply Hcol, Hbefore, Hc'.
  - left. split; [|reflexivity].
    intros c Hc Hcol. apply header_fields_column in Hcol. apply Hcol, Hfind, Hc.
Qed.

Lemma read_input_csv_duolingo_column_witness :
  exists word_col,
    ((forall c, In c [U "duolingo_definition"; U "duolingo"; U "definition";
                      U "duo_definition"] ->
                ~ names_column [U "word"; U "definition"] c)
     /\ [mkRowIn (U "comer") (U "to eat");
         mkRowIn (U "beber") (U "to drink");
         mkRowIn (U "vivir") (U "to live")]
        = map (fun r => mkRowIn (strip (cell r word_col)) [])
              (filter (fun r => negb (is_blank (cell r word_col)))
                      (records Example.reader)))
    \/ (exists before c after duo_col,
           [U "duolingo_definition"; U "duolingo"; U "definition";
            U "duo_definition"] = before ++ c :: after
           /\ (forall c', In c' before ->
                          ~ names_column [U "word"; U "definition"] c')
           /\ In duo_col [U "word"; U "definition"] /\ strip duo_col = c
           /\ [mkRowIn (U "comer") (U "to eat");
               mkRowIn (U "beber") (U "to drink");
               mkRowIn (U "vivir") (U "to live")]
              = map (fun r => mkRowIn (strip (cell r word_col))
                                      (strip (cell r duo_col)))
                    (filter (fun r => negb (is_blank (cell r word_col)))
                            (records Example.reader))).
Proof.
  apply (@read_input_csv_duolingo_column Example.reader _ [U "word"; U "definition"]).
  - vm_compute. reflexivity.
  - reflexivity.
Defined.

Lemma read_input_csv_trimmed reader rows :
  read_input_csv reader = Returns rows ->
  Forall (fun r =>
            in_word r <> []
            /\ strip (in_word r) = in_word r
            /\ strip (in_duolingo_definition r) = in_duolingo_definition r)
         rows.
Proof.
  intro Hread.
  apply read_input_csv_returns in Hread as (names & word_col & _ & _ & _ & -> & _).
  rewrite read_rows_closed_form.
  apply Forall_forall. intros row Hrow.
  apply in_map_iff in Hrow as (r & <- & Hr). apply filter_In in Hr as [_ Hr].
  cbn [in_word in_duolingo_definition]. unfold strip.
  rewrite !strip_by_idempotent. repeat split.
  apply negb_true_iff in Hr. unfold is_blank, strip in Hr.
  destruct (strip_by isspace (cell r word_col)); discriminate.
Qed.

Lemma reread_rows (out_rows : list RowOut) :
  Forall (fun o =>
            out_word o <> []
            /\ strip (out_word o) = out_word o
            /\ strip (out_duolingo_definition o) = out_duolingo_definition o)
         out_rows ->
  read_rows (U "word") (Some (U "duolingo_definition"))
            (records (reread (write_output_csv out_rows)))
  = map (fun o => mkRowIn (out_word o) (out_duolingo_definition o)) out_rows.
Proof.
  unfold reread, write_output_csv. cbn [records fst snd].
  intro Hok. induction Hok as [|o more (Hne & Hsw & Hsd) _ IH]; [reflexivity|].
  cbn [map read_rows].
  change (cell _ (U "word")) with (out_word o).
  change (cell _ (U "duolingo_definition")) with (out_duolingo_definition o).
  rewrite Hsw, Hsd. destruct (out_word o) as [|c w] eqn:W; [contradiction|].
  f_equal. exact IH.
Qed.

Lemma reread_written (out_rows : list RowOut) :
  Forall (fun o =>
            out_word o <> []
            /\ strip (out_word o) = out_word o
            /\ strip (out_duolingo_definition o) = out_duolingo_definition o)
         out_rows ->
  read_input_csv (reread (write_output_csv out_rows))
  = Returns (map (fun o => mkRowIn (out_word o) (out_duolingo_definition o))
                 out_rows).
Proof.
  intro Hok. rewrite <- (reread_rows Hok).
  set (rs := records (reread (write_output_csv out_rows))).
  assert (Hnames : fieldnames (reread (write_output_csv out_rows))
                   = Some OUTPUT_FIELDNAMES) by reflexivity.
  unfold read_input_csv. rewrite Hnames.
  assert (Hw : dict_get (fold_left (fun m h => dict_set m (strip h) h)
                                   OUTPUT_FIELDNAMES []) (U "word")
               = Some (U "word")) by (vm_compute; reflexivity).
  assert (Hd : find_duo_col (fold_left (fun m h => dict_set m (strip h) h)
                                       OUTPUT_FIELDNAMES [])
                            [U "duolingo_definition"; U "duolingo";
                             U "definition"; U "duo_definition"]
               = Some (U "duolingo_definition")) by (vm_compute; reflexivity).
  change (match dict_get (fold_left (fun m h => dict_set m (strip h) h)
                                    OUTPUT_FIELDNAMES []) (U "word") with
          | Some word_col =>
              match failure (reread (write_output_csv out_rows)) with
              | Some e => Raises e
              | None =>
                  Returns (read_rows word_col
                             (find_duo_col
                                (fold_left (fun m h => dict_set m (strip h) h)
                                           OUTPUT_FIELDNAMES [])
                                [U "duolingo_definition"; U "duolingo";
                                 U "definition"; U "duo_definition"]) rs)
              end
          | None => Raises ValueError
          end
          = Returns (read_rows (U "word") (Some (U "duolingo_definition")) rs)).
  rewrite Hw, Hd. reflexivity.
Qed.

(** X6. What [main] writes can be read back as its own input: for every
    run that writes its output, [read_input_csv] on the written file (its
    header being the four output field names) returns the very rows it
    returned on the input file. *)
Theorem output_reads_back_as_input `{Externals}
        (args : Args) (reader : DictReader) (st st' : state)
        (code : Z) (out_rows : list RowOut) :
  main args reader st = (st', Ok (code, Some out_rows)) ->
  exists inputs,
    read_input_csv reader = Returns inputs
    /\ read_input_csv (reread (write_output_csv out_rows)) = Returns inputs.
Proof.
  intro Hmain. apply main_inputs in Hmain as (inputs & Hread & Hrun).
  exists inputs. split; [exact Hread|].
  pose proof (read_input_csv_trimmed _ Hread) as Htrim.
  destruct inputs as [|r more]; [cbn in Hrun; discriminate|].
  apply main_rows_nonempty in Hrun as (word_to_defs & _ & Hrows & _).
  assert (Heq : out_rows = fst (build_rows word_to_defs (r :: more))) by congruence.
  destruct (build_rows_spec word_to_defs (r :: more)) as [Hfst _].
  rewrite Heq, Hfst. rewrite reread_written.
  - rewrite map_map. cbn [out_word out_duolingo_definition].
    f_equal. clear. induction (r :: more) as [|[w d] l IH]; [reflexivity|].
    cbn [map in_word in_duolingo_definition]. rewrite IH. reflexivity.
  - apply Forall_forall. intros o Ho. apply in_map_iff in Ho as (r0 & <- & Hr0).
    cbn [out_word out_duolingo_definition].
    exact (proj1 (Forall_forall _ _) Htrim r0 Hr0).
Qed.

Lemma output_reads_back_as_input_witness :
  exists inputs,
    read_input_csv Example.reader = Returns inputs
    /\ read_input_csv
         (reread (write_output_csv
            [ mkRowOut (U "comer") (U "to eat") (U "to eat") (U "to eat");
              mkRowOut (U "beber") (U "to drink") [] [];
              mkRowOut (U "vivir") (U "to live") [] [] ]))
       = Returns inputs.
Proof.
  apply (@output_reads_back_as_input Example.externals Example.args
           Example.reader Example.start (fst Example.main_run) 1%Z).
  vm_compute. reflexivity.
Defined.

(** ** The cleaner's output *)

Lemma spaced_adjacent bad (l : str) a c (r : str) b :
  spaced bad b (l ++ a :: c :: r) = true ->
  isspace a = true ->
  isspace c = false /\ bad c = false.
Proof.
  intros Hs Ha. apply spaced_suffix in Hs.
  destruct (isspace c) eqn:Ec.
  - rewrite (@spaced_two_spaces bad false a c r Ha Ec) in Hs. discriminate.
  - split; [reflexivity|]. cbn in Hs. rewrite Ha, Ec in Hs.
    apply andb_true_iff in Hs as [_ Hs]. apply andb_true_iff in Hs as [Hs _].
    destruct (bad c); [discriminate|reflexivity].
Qed.

Lemma head_outside_last f (l : str) c :
  head_outside f (rev (l ++ [c])) -> f c = false.
Proof. rewrite rev_app_distr. cbn. intro Hc. exact Hc. Qed.

(** X7. Whatever the input (and whatever [KEEP_IT_PARENS]), the string
    [post_fix_definition] returns is spaced normally: its only whitespace
    characters are single spaces (U+0020), never two in a row and never
    before one of , ; : . ! ? and it neither starts nor ends with a space
    or a hyphen. *)
Theorem post_fix_definition_output_is_spaced `{Externals} (keep : bool) (s : str) :
  let t := post_fix_definition_with keep s in
  Forall (fun c => isspace c = true -> c = 32%N) t
  /\ (forall l a c r,
         t = l ++ a :: c :: r -> isspace a = true ->
         isspace c = false /\ is_punct c = false)
  /\ (forall c r, t = c :: r -> c <> 32%N /\ c <> 45%N)
  /\ (forall l c, t = l ++ [c] -> c <> 32%N /\ c <> 45%N).
Proof.
  cbn zeta. destruct (post_fix_definition_normal keep s) as [x ->].
  destruct (normalize_normal x) as (Hs & Hh & Hl).
  assert (Hclass : forall c, is_space_or_hyphen c = false -> c <> 32%N /\ c <> 45%N).
  { intros c Hc. unfold is_space_or_hyphen in Hc. apply orb_false_iff in Hc as [H1 H2].
    apply N.eqb_neq in H1, H2. split; assumption. }
  split; [exact (spaced_space_is_32 _ _ _ Hs)|]. split; [|split].
  - intros l a c r Heq Ha. rewrite Heq in Hs. exact (spaced_adjacent _ _ _ _ _ _ Hs Ha).
  - intros c r Heq. rewrite Heq in Hh. apply Hclass. exact Hh.
  - intros l c Heq. rewrite Heq in Hl. apply Hclass.
    exact (head_outside_last _ _ _ Hl).
Qed.

Lemma filter_drop_while (keep f : char -> bool) (s : str) :
  (forall c, f c = true -> keep c = false) ->
  filter keep (drop_while f s) = filter keep s.
Proof.
  intro Hf. induction s as [|c s IH]; cbn; [reflexivity|].
  destruct (f c) eqn:E; [|reflexivity]. rewrite (Hf c E). exact IH.
Qed.

Lemma filter_strip_by (keep f : char -> bool) (s : str) :
  (forall c, f c = true -> keep c = false) ->
  filter keep (strip_by f s) = filter keep s.
Proof.
  intro Hf. unfold strip_by.
  rewrite filter_rev, filter_drop_while by exact Hf.
  rewrite filter_rev, rev_involutive. apply filter_drop_while. exact Hf.
Qed.

Lemma is_text_space c : isspace c = true -> is_text c = false.
Proof. unfold is_text. intros ->. reflexivity. Qed.

Lemma is_text_space_or_hyphen c : is_space_or_hyphen c = true -> is_text c = false.
Proof. unfold is_text. intros ->. rewrite orb_true_r. reflexivity. Qed.

Lemma filter_sub_spaces (s : str) b :
  filter is_text (sub_spaces b s) = filter is_text s.
Proof.
  revert b. induction s as [|c s IH]; intro b; cbn [sub_spaces filter]; [reflexivity|].
  destruct (isspace c) eqn:E.
  - rewrite (is_text_space c E). destruct b; [apply IH|].
    cbn [filter]. change (is_text 32%N) with false. apply IH.
  - cbn [filter]. rewrite IH. reflexivity.
Qed.

Lemma filter_all_space (held : str) :
  Forall (fun c => isspace c = true) held -> filter is_text held = [].
Proof.
  induction 1 as [|c held Hc _ IH]; [reflexivity|].
  cbn [filter]. rewrite (is_text_space c Hc). exact IH.
Qed.

Lemma filter_sub_space_punct (s : str) :
  forall held,
    Forall (fun c => isspace c = true) held ->
    filter is_text (sub_space_punct held s) = filter is_text s.
Proof.
  induction s as [|c s IH]; intros held Hheld; cbn [sub_space_punct].
  - apply filter_all_space. exact Hheld.
  - destruct (isspace c) eqn:E.
    + rewrite IH.
      * cbn [filter]. rewrite (is_text_space c E). reflexivity.
      * apply Forall_app. split; [exact Hheld|]. constructor; [exact E|constructor].
    + destruct (is_punct c).
      * cbn [filter]. rewrite (IH [] (Forall_nil _)). reflexivity.
      * rewrite filter_app, (filter_all_space Hheld). cbn [app filter].
        rewrite (IH [] (Forall_nil _)). reflexivity.
Qed.

Lemma filter_normalize (x : str) :
  filter is_text (normalize x) = filter is_text x.
Proof.
  unfold normalize, strip.
  rewrite filter_strip_by by exact is_text_space_or_hyphen.
  rewrite filter_sub_space_punct by constructor.
  rewrite filter_strip_by by exact is_text_space.
  rewrite filter_sub_spaces.
  apply filter_strip_by. exact is_text_space.
Qed.

Lemma replace_from_absent (x : char) (p new s : str) :
  ~ In x s -> replace_from (x :: p) new 0 s = s.
Proof.
  induction s as [|c s IH]; intro Hno; [reflexivity|].
  rewrite replace_from_here, (@starts_with_head_neq x).
  - rewrite IH; [reflexivity|]. intro Hin. apply Hno. right. exact Hin.
  - intro Heq. apply Hno. left. symmetry. exact Heq.
Qed.

Lemma subject_prefix_end_absent (subjects : list str) (s : str) :
  ~ In 40%N s -> subject_prefix_end subjects s = None.
Proof.
  intro Hno. induction subjects as [|a more IH]; [reflexivity|].
  cbn [subject_prefix_end].
  assert (Hhead : starts_with (U "(" ++ a ++ U ")") s = false).
  { change (U "(" ++ a ++ U ")") with (40%N :: a ++ U ")").
    destruct s as [|c s]; [reflexivity|].
    apply starts_with_head_neq. intro Heq. apply Hno. left. symmetry. exact Heq. }
  rewrite Hhead. exact IH.
Qed.

(** X8. On a text with no opening parenthesis, no underscore and no
    whole-word "oneself", [post_fix_definition] only normalises the
    spacing: it returns what its last four steps alone return, and the
    characters other than whitespace and hyphens are those of the input, in
    the same order. *)
Theorem post_fix_definition_on_plain_text `{Externals} (s : str) :
  has_oneself None s = false ->
  ~ In 40%N s ->
  ~ In 95%N s ->
  post_fix_definition s = normalize s
  /\ filter is_text (post_fix_definition s) = filter is_text s.
Proof.
  intros Hone Hpar Hund.
  assert (Heq : post_fix_definition s = normalize s).
  { unfold post_fix_definition, post_fix_definition_with, KEEP_IT_PARENS.
    rewrite (sub_oneself_id s None Hone), (@subject_prefix_end_absent SUBJECTS s Hpar).
    unfold str_replace.
    change (U "(it)") with (40%N :: U "it)").
    change (U "__KEEP_IT__") with (95%N :: U "_KEEP_IT__").
    rewrite (@replace_from_absent 40%N _ _ s Hpar), (@sub_parens_id s Hpar).
    rewrite (@replace_from_absent 95%N _ _ s Hund). reflexivity. }
  split; [exact Heq|]. rewrite Heq. apply filter_normalize.
Qed.

Lemma post_fix_definition_on_plain_text_witness :
  let E := Reference.scripted [] in
  @post_fix_definition E (U "  to eat ,  or dine -") = U "to eat, or dine"
  /\ filter is_text (@post_fix_definition E (U "  to eat ,  or dine -"))
     = filter is_text (U "  to eat ,  or dine -").
Proof.
  cbn zeta. split; [vm_compute; reflexivity|].
  refine (proj2 (@post_fix_definition_on_plain_text (Reference.scripted []) _ _ _ _)).
  - vm_compute. reflexivity.
  - apply not_In_existsb. vm_compute. reflexivity.
  - apply not_In_existsb. vm_compute. reflexivity.
Defined.

(** ** The record decoder's keys and errors *)

Lemma dict_update_keys {V} (rs : list (str * V)) :
  forall (m : dict V) k,
    In k (dict_keys (dict_update m rs)) <-> In k (dict_keys m) \/ In k (map fst rs).
Proof.
  induction rs as [|[k0 v0] rs IH]; intros m k.
  - cbn. tauto.
  - change (dict_update m ((k0, v0) :: rs)) with (dict_update (dict_set m k0 v0) rs).
    rewrite IH, dict_keys_set. cbn [map fst In].
    split; [intros [[->|Hin]|Hin]|intros [Hin|[->|Hin]]]; tauto.
Qed.

Lemma decoded_records_complete `{Externals} lines ln r :
  In ln lines -> well_formed ln = Some r -> In r (decoded_records lines).
Proof.
  induction lines as [|l more IH]; cbn [decoded_records]; [intros []|].
  intros [->|Hin] Hwf.
  - rewrite Hwf. left. reflexivity.
  - destruct (well_formed l); [right|]; apply IH; assumption.
Qed.

(** X9. The keys of the mapping [parse_ndjson_word_defs] returns are
    exactly the words of the well-formed lines: a word is a key if and only
    if some non-blank line decodes to an object whose "word" is that word
    and whose "definition" is a string. *)
Theorem parse_ndjson_keys_are_the_words `{Externals} (content : str) (w : str) :
  In w (dict_keys (fst (parse_ndjson_word_defs content)))
  <-> exists ln d, In ln (record_lines content) /\ well_formed ln = Some (w, d).
Proof.
  unfold parse_ndjson_word_defs.
  destruct (parse_lines_closed_form (record_lines content) 1 [] []) as [-> _].
  rewrite dict_update_keys. cbn [dict_keys map In]. split.
  - intros [[]|Hin]. apply in_map_iff in Hin as ([w' d] & Hw & Hin).
    cbn in Hw. subst w'. apply decoded_records_In in Hin as (ln & Hln & Hwf).
    exists ln, d. split; assumption.
  - intros (ln & d & Hln & Hwf). right. apply in_map_iff.
    exists (w, d). split; [reflexivity|].
    exact (decoded_records_complete _ _ Hln Hwf).
Qed.

Lemma failing_lines_bounds `{Externals} lines :
  forall idx,
    Forall (fun i => (idx <= i < idx + Z.of_nat (length lines))%Z)
           (failing_lines idx lines).
Proof.
  induction lines as [|ln more IH]; intro idx; cbn [failing_lines]; [constructor|].
  assert (Hmore : Forall (fun i => (idx <= i < idx + Z.of_nat (length (ln :: more)))%Z)
                         (failing_lines (idx + 1) more)).
  { eapply Forall_impl; [|apply IH]. cbn beta. intros i Hi. cbn [length]. lia. }
  destruct (well_formed ln); [exact Hmore|].
  constructor; [cbn [length]; lia|exact Hmore].
Qed.

Lemma failing_lines_increasing `{Externals} lines :
  forall idx l a b r,
    failing_lines idx lines = l ++ a :: b :: r -> (a < b)%Z.
Proof.
  induction lines as [|ln more IH]; intros idx l a b r Heq; cbn [failing_lines] in Heq.
  - destruct l; discriminate.
  - destruct (well_formed ln); [exact (IH _ _ _ _ _ Heq)|].
    destruct l as [|x l]; cbn [app] in Heq.
    + injection Heq as <- Hrest.
      pose proof (failing_lines_bounds more (idx + 1)) as Hb.
      rewrite Hrest in Hb. inversion Hb as [|? ? Hb1 _]; subst. lia.
    + injection Heq as _ Hrest. exact (IH _ _ _ _ _ Hrest).
Qed.

Lemma failing_lines_In `{Externals} lines :
  forall idx i,
    In i (failing_lines idx lines)
    <-> exists l ln r,
          lines = l ++ ln :: r /\ well_formed ln = None
          /\ i = (idx + Z.of_nat (length l))%Z.
Proof.
  induction lines as [|ln more IH]; intros idx i; cbn [failing_lines].
  - split; [intros []|]. intros (l & ln & r & Heq & _). destruct l; discriminate.
  - split.
    + intro Hin.
      assert (Hmore : In i (failing_lines (idx + 1) more) ->
                      exists l ln0 r,
                        ln :: more = l ++ ln0 :: r /\ well_formed ln0 = None
                        /\ i = (idx + Z.of_nat (length l))%Z).
      { intro Hi. apply IH in Hi as (l & ln0 & r & -> & Hwf & ->).
        exists (ln :: l), ln0, r. repeat split; [exact Hwf|cbn [length]; lia]. }
      destruct (well_formed ln) eqn:W; [exact (Hmore Hin)|].
      destruct Hin as [<-|Hin]; [|exact (Hmore Hin)].
      exists [], ln, more. repeat split; [exact W|cbn; lia].
    + intros (l & ln0 & r & Heq & Hwf & ->). destruct l as [|x l]; cbn [app] in Heq.
      * injection Heq as <- <-. rewrite Hwf. left. cbn. lia.
      * injection Heq as <- ->.
        assert (Hi : In (idx + Z.of_nat (length (ln :: l)))%Z
                        (failing_lines (idx + 1) (l ++ ln0 :: r))).
        { apply IH. exists l, ln0, r. repeat split; [exact Hwf|cbn [length]; lia]. }
        destruct (well_formed ln); [exact Hi|right; exact Hi].
Qed.

Lemma map_filter_split {A B} (f : A -> B) (p : A -> bool) (xs : list A) :
  forall l y r,
    map f (filter p xs) = l ++ y :: r
    <-> exists before x after,
          xs = before ++ x :: after /\ p x = true /\ f x = y
          /\ l = map f (filter p before) /\ r = map f (filter p after).
Proof.
  induction xs as [|x0 xs IH]; intros l y r; cbn [filter map].
  - split; [intro Heq; destruct l; discriminate|].
    intros (before & x & after & Heq & _). destruct before; discriminate.
  - split.
    + intro Heq. destruct (p x0) eqn:P0.
      * cbn [map] in Heq. destruct l as [|b l]; cbn [app] in Heq.
        -- injection Heq as <- <-. exists [], x0, xs. repeat split. exact P0.
        -- injection Heq as <- Heq. apply IH in Heq
             as (before & x & after & -> & Hp & Hf & -> & ->).
           exists (x0 :: before), x, after. cbn [filter map app]. rewrite P0.
           repeat split; assumption.
      * apply IH in Heq as (before & x & after & -> & Hp & Hf & -> & ->).
        exists (x0 :: before), x, after. cbn [filter map app]. rewrite P0.
        repeat split; assumption.
    + intros (before & x & after & Heq & Hp & Hf & -> & ->).
      destruct before as [|b before]; cbn [app] in Heq.
      * injection Heq as <- <-. rewrite Hp. cbn. rewrite Hf. reflexivity.
      * injection Heq as <- ->.
        assert (Hrec : map f (filter p (before ++ x :: after))
                       = map f (filter p before) ++ y :: map f (filter p after)).
        { apply IH. exists before, x, after. repeat split; assumption. }
        cbn [filter]. destruct (p x0); cbn [map app]; rewrite Hrec; reflexivity.
Qed.

(** X10. The line numbers in the errors of [parse_ndjson_word_defs] count
    the non-blank lines only: a number is reported exactly when some
    non-blank line of the text, stripped, is not a well-formed record, and
    it is one more than the number of non-blank lines before that line
    (blank lines are not counted); the numbers come in strictly increasing
    order. *)
Theorem parse_ndjson_error_numbers `{Externals} (content : str) :
  let numbers := map error_line (snd (parse_ndjson_word_defs content)) in
  (forall i,
      In i numbers
      <-> exists before ln after,
            splitlines content = before ++ ln :: after
            /\ is_blank ln = false
            /\ well_formed (strip ln) = None
            /\ i = (1 + Z.of_nat (length (filter (fun x => negb (is_blank x))
                                                 before)))%Z)
  /\ forall l a b r, numbers = l ++ a :: b :: r -> (a < b)%Z.
Proof.
  cbn zeta. unfold parse_ndjson_word_defs.
  destruct (parse_lines_closed_form (record_lines content) 1 [] []) as [_ ->].
  cbn [map app]. split.
  - intro i. rewrite failing_lines_In. unfold record_lines. split.
    + intros (l & ln' & r & Heq & Hwf & ->).
      apply map_filter_split in Heq as (before & ln & after & Hs & Hnb & <- & -> & _).
      exists before, ln, after. apply negb_true_iff in Hnb.
      repeat split; try assumption. rewrite length_map. reflexivity.
    + intros (before & ln & after & Hs & Hnb & Hwf & ->).
      exists (map strip (filter (fun x => negb (is_blank x)) before)), (strip ln),
             (map strip (filter (fun x => negb (is_blank x)) after)).
      repeat split; [|exact Hwf|rewrite length_map; reflexivity].
      apply map_filter_split. exists before, ln, after.
      repeat split; [exact Hs|apply negb_true_iff; exact Hnb].
  - intros l a b r Heq. exact (failing_lines_increasing _ _ _ _ _ _ Heq).
Qed.

(** ** The stream loop *)

Section StreamFacts.
Context `{Externals}.
Variable number_is_true : str -> bool.

Lemma collect_parts_step (raw_line : str) (more parts : list str) :
  collect_parts number_is_true (raw_line :: more) parts
  = match fragment_of number_is_true raw_line with
    | Skipped => collect_parts number_is_true more parts
    | Fails => LoadsError
    | Breaks => AttributeError
    | Piece piece true => Content (concat (append_piece parts piece))
    | Piece piece false =>
        collect_parts number_is_true more (append_piece parts piece)
    end.
Proof.
  cbn [collect_parts]. unfold fragment_of.
  destruct (strip raw_line) as [|c line]; [reflexivity|].
  destruct (json_loads (c :: line)) as [[|b|literal|s|items|obj]|];
    try reflexivity.
  - destruct (message_content number_is_true obj) as [piece|]; [|reflexivity].
    destruct (dict_get obj (U "done")) as [[|[|]|literal|s|items|members]|];
      reflexivity.
  - destruct (json_decode_error (c :: line)); reflexivity.
Qed.

Lemma collect_parts_until_done before ln after piece :
  fragment_of number_is_true ln = Piece piece true ->
  forall parts,
    collect_parts number_is_true (before ++ ln :: after) parts
    = collect_parts number_is_true (before ++ [ln]) parts.
Proof.
  intro Hdone. induction before as [|l before IH]; intro parts; cbn [app].
  - rewrite !collect_parts_step, Hdone. reflexivity.
  - rewrite !collect_parts_step.
    destruct (fragment_of number_is_true l) as [| | |p [|]]; try reflexivity; apply IH.
Qed.

(** X11. The stream loop stops at the first line that decodes to an object
    whose "done" is true (and on which no lookup fails): the lines after it
    are never read, whatever they are. *)
Theorem stream_stops_at_done (before : list str) (ln : str) (after : list str)
        (piece : option json) :
  fragment_of number_is_true ln = Piece piece true ->
  stream_collect_content number_is_true (before ++ ln :: after)
  = stream_collect_content number_is_true (before ++ [ln]).
Proof.
  intro Hdone. unfold stream_collect_content.
  apply (@collect_parts_until_done before ln after piece Hdone).
Qed.

Lemma fragment_skipped (ln : str) :
  is_blank ln = true
  \/ (json_loads (strip ln) = None /\ json_decode_error (strip ln) = true) ->
  fragment_of number_is_true ln = Skipped.
Proof.
  unfold fragment_of, is_blank.
  destruct (strip ln) as [|c line]; [reflexivity|].
  intros [Hb|[Hj Hd]]; [discriminate|]. rewrite Hj, Hd. reflexivity.
Qed.

(** X12. A line that is blank, or on which [json.loads] raises a
    [JSONDecodeError], changes nothing: the loop gives the same as on the
    stream without that line. *)
Theorem stream_skips_undecodable_lines (before : list str) (ln : str)
        (after : list str) :
  is_blank ln = true
  \/ (json_loads (strip ln) = None /\ json_decode_error (strip ln) = true) ->
  stream_collect_content number_is_true (before ++ ln :: after)
  = stream_collect_content number_is_true (before ++ after).
Proof.
  unfold stream_collect_content.
  intro Hskip. apply fragment_skipped in Hskip.
  generalize (@nil str) as parts.
  induction before as [|l before IH]; intro parts; cbn [app].
  - rewrite collect_parts_step, Hskip. reflexivity.
  - rewrite !collect_parts_step.
    destruct (fragment_of number_is_true l) as [| | |p [|]];
      try reflexivity; apply IH.
Qed.

(** X24. An exception of [json.loads] other than [JSONDecodeError] is not
    caught: a line on which it is raised, reached before any terminal line
    (the lines before it being skipped or carrying a piece), ends the loop
    with that exception, whatever follows. *)
Theorem stream_lets_other_exceptions_through (before : list str) (ln : str)
        (after : list str) :
  Forall (passes number_is_true) before ->
  is_blank ln = false ->
  json_loads (strip ln) = None ->
  json_decode_error (strip ln) = false ->
  stream_collect_content number_is_true (before ++ ln :: after) = LoadsError.
Proof.
  unfold stream_collect_content. intros Hpass Hb Hj Hd.
  assert (Hfail : fragment_of number_is_true ln = Fails).
  { unfold fragment_of. unfold is_blank in Hb.
    destruct (strip ln) as [|c line]; [discriminate|]. rewrite Hj, Hd. reflexivity. }
  generalize (@nil str) as parts.
  induction Hpass as [|l before Hl _ IH]; intro parts; cbn [app].
  - rewrite collect_parts_step, Hfail. reflexivity.
  - rewrite collect_parts_step. unfold passes in Hl.
    destruct (fragment_of number_is_true l) as [| | |p [|]];
      try contradiction; apply IH.
Qed.

Lemma fragment_breaks (ln : str) (v : json) :
  is_blank ln = false ->
  json_loads (strip ln) = Some v ->
  (forall obj, v <> JObject obj) ->
  fragment_of number_is_true ln = Breaks.
Proof.
  unfold fragment_of, is_blank. intros Hb Hj Hv.
  destruct (strip ln) as [|c line]; [discriminate|]. rewrite Hj.
  destruct v; try reflexivity. exfalso. exact (Hv _ eq_refl).
Qed.

(** X13. A line that [json.loads] decodes to a value that is not an object
    (an array, a string, a number, true, false or null) is not skipped:
    reached before any terminal line (the lines before it being skipped or
    carrying a piece), it makes the loop raise [AttributeError], whatever
    follows. *)
Theorem stream_breaks_on_non_object (before : list str) (ln : str)
        (after : list str) (v : json) :
  Forall (passes number_is_true) before ->
  is_blank ln = false ->
  json_loads (strip ln) = Some v ->
  (forall obj, v <> JObject obj) ->
  stream_collect_content number_is_true (before ++ ln :: after) = AttributeError.
Proof.
  intros Hpass Hb Hj Hv. pose proof (@fragment_breaks ln v Hb Hj Hv) as Hbreak.
  unfold stream_collect_content. generalize (@nil str) as parts.
  induction Hpass as [|l before Hl _ IH]; intro parts; cbn [app].
  - rewrite collect_parts_step, Hbreak. reflexivity.
  - rewrite collect_parts_step. unfold passes in Hl.
    destruct (fragment_of number_is_true l) as [| | |p [|]];
      try contradiction; apply IH.
Qed.

Lemma concat_append_piece (parts : list str) (c : str) :
  concat (append_piece parts (Some (JString c))) = concat parts ++ c.
Proof.
  destruct c as [|x c]; cbn [append_piece].
  - rewrite app_nil_r. reflexivity.
  - rewrite concat_app. cbn [concat]. rewrite app_nil_r. reflexivity.
Qed.

(** X14. The content returned is the pieces in order: when the lines up to
    a terminal one each carry a string content (possibly empty), and the
    terminal line carries one too, the loop returns these contents
    concatenated, and nothing of what follows the terminal line. *)
Theorem stream_concatenates_pieces (body : list str) (pieces : list str)
        (last : str) (last_piece : str) (after : list str) :
  Forall2 (fun ln c =>
             fragment_of number_is_true ln = Piece (Some (JString c)) false)
          body pieces ->
  fragment_of number_is_true last = Piece (Some (JString last_piece)) true ->
  stream_collect_content number_is_true (body ++ last :: after)
  = Content (concat pieces ++ last_piece).
Proof.
  intros Hbody Hlast. unfold stream_collect_content.
  assert (Heq : forall parts,
             collect_parts number_is_true (body ++ last :: after) parts
             = Content (concat parts ++ concat pieces ++ last_piece)).
  { induction Hbody as [|ln c body pieces Hln _ IH]; intro parts; cbn [app].
    - rewrite collect_parts_step, Hlast, concat_append_piece. reflexivity.
    - rewrite collect_parts_step, Hln, IH, concat_append_piece.
      cbn [concat]. rewrite <- !app_assoc. reflexivity. }
  rewrite Heq. reflexivity.
Qed.

End StreamFacts.

Lemma stream_stops_at_done_witness :
  let E := Reference.scripted [] in
  let t := Reference.number_is_true in
  @stream_collect_content E t
    [Uq "{'message': {'content': 'to '}, 'done': false}";
     Uq "{'message': {'content': 'eat'}, 'done': true}";
     Uq "[1, 2]"]
  = @stream_collect_content E t
      [Uq "{'message': {'content': 'to '}, 'done': false}";
       Uq "{'message': {'content': 'eat'}, 'done': true}"].
Proof.
  cbn zeta.
  apply (@stream_stops_at_done (Reference.scripted []) Reference.number_is_true
           [Uq "{'message': {'content': 'to '}, 'done': false}"]
           (Uq "{'message': {'content': 'eat'}, 'done': true}")
           [Uq "[1, 2]"] (Some (JString (U "eat")))).
  vm_compute. reflexivity.
Defined.

Lemma stream_skips_undecodable_lines_witness :
  let E := Reference.scripted [] in
  let t := Reference.number_is_true in
  @stream_collect_content E t
    [Uq "{'message': {'content': 'to '}}"; U "data: oops";
     Uq "{'message': {'content': 'eat'}, 'done': true}"]
  = @stream_collect_content E t
      [Uq "{'message': {'content': 'to '}}";
       Uq "{'message': {'content': 'eat'}, 'done': true}"].
Proof.
  cbn zeta.
  apply (@stream_skips_undecodable_lines (Reference.scripted [])
           Reference.number_is_true
           [Uq "{'message': {'content': 'to '}}"] (U "data: oops")
           [Uq "{'message': {'content': 'eat'}, 'done': true}"]).
  right. split; vm_compute; reflexivity.
Defined.

Lemma stream_breaks_on_non_object_witness :
  let E := Reference.scripted [] in
  @stream_collect_content E Reference.number_is_true
    [Uq "{'message': {'content': 'to '}}"; Uq "[1, 2]";
     Uq "{'message': {'content': 'eat'}, 'done': true}"]
  = AttributeError.
Proof.
  cbn zeta.
  apply (@stream_breaks_on_non_object (Reference.scripted [])
           Reference.number_is_true
           [Uq "{'message': {'content': 'to '}}"] (Uq "[1, 2]")
           [Uq "{'message': {'content': 'eat'}, 'done': true}"]
           (JArray [JNumber (U "1"); JNumber (U "2")])).
  - constructor; [vm_compute; exact I|constructor].
  - vm_compute. reflexivity.
  - vm_compute. reflexivity.
  - intros obj. discriminate.
Defined.

Lemma stream_lets_other_exceptions_through_witness :
  @stream_collect_content Limited.externals Reference.number_is_true
    [Uq "{'message': {'content': 'to '}}"; repeat 49%N 4301;
     Uq "{'message': {'content': 'eat'}, 'done': true}"]
  = LoadsError.
Proof.
  apply (@stream_lets_other_exceptions_through Limited.externals
           Reference.number_is_true
           [Uq "{'message': {'content': 'to '}}"] (repeat 49%N 4301)
           [Uq "{'message': {'content': 'eat'}, 'done': true}"]).
  - constructor; [vm_compute; exact I|constructor].
  - vm_compute. reflexivity.
  - vm_compute. reflexivity.
  - vm_compute. reflexivity.
Defined.

Lemma stream_concatenates_pieces_witness :
  let E := Reference.scripted [] in
  @stream_collect_content E Reference.number_is_true
    [Uq "{'message': {'content': 'to '}, 'done': false}";
     Uq "{'message': {'role': 'assistant', 'content': 'eat'}}";
     Uq "{'message': {'content': ''}, 'done': true}";
     Uq "{'message': {'content': 'never read'}}"]
  = Content (concat [U "to "; U "eat"] ++ []).
Proof.
  cbn zeta.
  apply (@stream_concatenates_pieces (Reference.scripted [])
           Reference.number_is_true
           [Uq "{'message': {'content': 'to '}, 'done': false}";
            Uq "{'message': {'role': 'assistant', 'content': 'eat'}}"]
           [U "to "; U "eat"]
           (Uq "{'message': {'content': ''}, 'done': true}") []
           [Uq "{'message': {'content': 'never read'}}"]).
  - constructor; [vm_compute; reflexivity|].
    constructor; [vm_compute; reflexivity|constructor].
  - vm_compute. reflexivity.
Defined.

(** ** The run: what is requested and what is kept *)

Lemma dict_keys_get {V} (m : dict V) (k : str) :
  In k (dict_keys m) -> dict_get m k <> None.
Proof.
  unfold dict_keys. induction m as [|[k0 v0] m IH]; cbn; [intros []|].
  destruct (str_eqb_spec k k0) as [E|E]; [discriminate|].
  intros [Heq|Hin]; [congruence|apply IH; exact Hin].
Qed.

Section RunMore.
Context `{Externals}.
Variable max_retries : Z.
Variable retry_batch_size : Z.
Variable apply_postfixes : bool.
Variable sleep_between_s : float.

(** X15. The mapping returned has entries for requested words only: a
    record of a reply whose word was not asked for in that request leaves
    no trace in it. *)
Theorem generate_keys_are_requested_words
        (words : list str) (batch_size : Z) (st st' : state) (results : results_t) :
  generate max_retries retry_batch_size apply_postfixes sleep_between_s
           words batch_size st = (st', Ok results) ->
  forall w, In w (dict_keys results) -> In w words.
Proof.
  intros Hrun w Hkey.
  pose proof (generate_spec max_retries retry_batch_size apply_postfixes
                            sleep_between_s words batch_size st) as Hspec.
  apply (@wp_run _ _ _ _ _ _ _ Hspec) in Hrun.
  pose proof (chunk_list_cases words batch_size) as Hch.
  destruct (chunk_list words batch_size) as [batches|e];
    [|destruct Hrun; discriminate].
  destruct Hch as (_ & Hincl & _).
  destruct Hrun as (segs & _ & _ & _ & Hg & _).
  destruct (in_dec str_eq_dec w (concat batches)) as [Hin|Hout].
  - apply Hincl. exact Hin.
  - apply dict_keys_get in Hkey. rewrite (grows_frame Hg w Hout) in Hkey.
    contradiction.
Qed.

(** X16. No retry request is made when the number of retry rounds is not
    positive, or when the retry batch size is not positive: every request
    of the run is then the request of an initial batch, one per batch at
    most. *)
Theorem retries_disabled
        (words : list str) (batch_size : Z) (st st' : state)
        (r : outcome results_t) (batches : list (list str)) :
  (max_retries <= 0)%Z \/ (retry_batch_size <= 0)%Z ->
  chunk_list words batch_size = Returns batches ->
  generate max_retries retry_batch_size apply_postfixes sleep_between_s
           words batch_size st = (st', r) ->
  exists seg,
    trace st' = trace st ++ seg
    /\ map ev_phase seg = repeat Initial (length seg)
    /\ map ev_words seg = firstn (length seg) batches.
Proof.
  intros Hoff Hch Hrun.
  pose proof (generate_spec max_retries retry_batch_size apply_postfixes
                            sleep_between_s words batch_size st) as Hspec.
  apply (@wp_run _ _ _ _ _ _ _ Hspec) in Hrun. rewrite Hch in Hrun.
  destruct Hrun as (segs & Htr & Hsegs & _).
  exists (concat segs). split; [exact Htr|].
  assert (Hshape : forall b seg,
             batch_segment max_retries retry_batch_size b seg ->
             exists reply, seg = [Request Initial b reply]).
  { intros b seg (reply & retries & -> & Hret). exists reply.
    destruct retries as [|e retries]; [reflexivity|].
    inversion Hret as [|? ? He _]; subst.
    destruct He as ((a & _ & Ha) & Hne & _ & Hlen).
    destruct (ev_words e) as [|w ws]; [contradiction|].
    cbn [length] in Hlen. lia. }
  assert (Hall : forall bs ss,
                 Forall2 (batch_segment max_retries retry_batch_size) bs ss ->
                 map ev_phase (concat ss) = repeat Initial (length ss)
                 /\ map ev_words (concat ss) = bs
                 /\ length (concat ss) = length ss).
  { clear - Hshape. intros bs ss Hbs.
    induction Hbs as [|b seg bs ss Hb _ IH]; [repeat split; reflexivity|].
    destruct (Hshape b seg Hb) as (reply & ->). destruct IH as (IH1 & IH2 & IH3).
    cbn. rewrite IH1, IH2, IH3. repeat split; reflexivity. }
  destruct (Hall _ _ Hsegs) as (Hph & Hws & Hlen).
  rewrite Hlen. split; assumption.
Qed.

(** X17. The batch sizes that are not positive: with the size 0 the run
    raises [ValueError] before any request; with a negative size it makes
    no request either and returns the empty mapping. *)
Theorem generate_nonpositive_batch_size
        (words : list str) (batch_size : Z) (st : state) :
  (batch_size <= 0)%Z ->
  generate max_retries retry_batch_size apply_postfixes sleep_between_s
           words batch_size st
  = (st, if (batch_size =? 0)%Z then Raised ValueError else Ok []).
Proof.
  intro Hn. unfold generate, bind, lift.
  rewrite (chunk_list_nonpositive words Hn).
  destruct (batch_size =? 0)%Z; reflexivity.
Qed.

End RunMore.

Lemma retries_disabled_witness :
  exists seg,
    trace (fst (@generate Example.externals 0 1 true 0%float
                          Example.words 2 Example.start))
    = trace Example.start ++ seg
    /\ map ev_phase seg = repeat Initial (length seg)
    /\ map ev_words seg
       = firstn (length seg)
                [[U "comer"; U "beber"]; [U "vivir"]].
Proof.
  apply (@retries_disabled Example.externals 0 1 true 0%float
           Example.words 2 Example.start
           (fst (@generate Example.externals 0 1 true 0%float
                           Example.words 2 Example.start))
           (snd (@generate Example.externals 0 1 true 0%float
                           Example.words 2 Example.start))).
  - left. lia.
  - vm_compute. reflexivity.
  - vm_compute. reflexivity.
Defined.

Lemma generate_keys_are_requested_words_witness :
  In (U "beber") Example.words.
Proof.
  apply (@generate_keys_are_requested_words Example.externals 2 1 true 0%float
           Example.words 2 Example.start (fst Example.run)
           [(U "comer", (U "to eat", U "to eat"));
            (U "beber", ([], [])); (U "vivir", ([], []))]).
  - vm_compute. reflexivity.
  - vm_compute. right. left. reflexivity.
Defined.

Lemma generate_nonpositive_batch_size_witness :
  @generate Example.externals 2 1 true 0%float Example.words (-5) Example.start
  = (Example.start, Ok [])
  /\ @generate Example.externals 2 1 true 0%float Example.words 0 Example.start
     = (Example.start, Raised ValueError).
Proof.
  split.
  - apply (@generate_nonpositive_batch_size Example.externals 2 1 true 0%float
             Example.words (-5) Example.start). lia.
  - apply (@generate_nonpositive_batch_size Example.externals 2 1 true 0%float
             Example.words 0 Example.start). lia.
Defined.

(** ** The run: failures *)

Section RunStops.
Context `{Externals}.
Variable max_retries : Z.
Variable retry_batch_size : Z.
Variable apply_postfixes : bool.
Variable sleep_between_s : float.

Lemma stops_nil {A} (r : outcome A) : stops_at_failure [] r.
Proof. destruct r; cbn; [constructor|left; constructor|constructor]. Qed.

Lemma stops_app {A B} (seg1 seg2 : list event) (a : A) (r : outcome B) :
  stops_at_failure seg1 (Ok a) -> stops_at_failure seg2 r ->
  stops_at_failure (seg1 ++ seg2) r.
Proof.
  cbn. intros H1 H2. destruct r as [b|ex|]; cbn in *.
  - apply Forall_app. split; assumption.
  - destruct H2 as [Hall|(init & ph & ws & -> & Hinit)].
    + left. apply Forall_app. split; assumption.
    + right. exists (seg1 ++ init), ph, ws. rewrite app_assoc.
      split; [reflexivity|]. apply Forall_app. split; assumption.
  - apply Forall_app. split; assumption.
Qed.

Lemma stopping_ret {A} (a : A) : stopping (ret a).
Proof.
  intro st. exists []. cbn. rewrite app_nil_r. split; [reflexivity|constructor].
Qed.

Lemma stopping_lift {A} (r : result A) : stopping (lift r).
Proof.
  intro st. exists []. cbn. rewrite app_nil_r. split; [reflexivity|apply stops_nil].
Qed.

Lemma stopping_bind {A B} (c : M A) (k : A -> M B) :
  stopping c -> (forall a, stopping (k a)) -> stopping (bind c k).
Proof.
  intros Hc Hk st. destruct (Hc st) as (seg1 & Htr1 & Hs1). unfold bind.
  destruct (c st) as [st1 [a|ex|]]; cbn [fst snd] in Htr1, Hs1.
  - destruct (Hk a st1) as (seg2 & Htr2 & Hs2). exists (seg1 ++ seg2).
    rewrite Htr2, Htr1, app_assoc. split; [reflexivity|].
    exact (@stops_app _ _ _ _ _ _ Hs1 Hs2).
  - exists seg1. split; assumption.
  - exists seg1. split; assumption.
Qed.

Lemma stopping_dispatch ph batch : stopping (dispatch ph batch).
Proof.
  intro st. unfold dispatch.
  destruct (ollama_chat_stream_collect_content (world st) (join [10%N] batch))
    as [w [content|ex]]; cbn.
  - exists [Request ph batch (Returns content)]. split; [reflexivity|].
    constructor; [exists content; reflexivity|constructor].
  - exists [Request ph batch (Raises ex)]. split; [reflexivity|].
    right. exists [], ph, batch. split; [reflexivity|constructor].
Qed.

Lemma stopping_sleep : stopping (sleep_between sleep_between_s).
Proof.
  intro st. exists []. rewrite app_nil_r. unfold sleep_between.
  destruct (PrimFloat.eqb sleep_between_s 0).
  - split; [reflexivity|constructor].
  - destruct (time_sleep (world st) sleep_between_s) as [w r]. cbn.
    split; [reflexivity|apply stops_nil].
Qed.

Lemma stopping_request ph batch missing results :
  stopping (request apply_postfixes ph batch missing results).
Proof.
  apply stopping_bind; [apply stopping_dispatch|]. intro content. apply stopping_ret.
Qed.

Lemma stopping_retry_batches attempt rbs :
  forall next_missing results,
    stopping (retry_batches apply_postfixes sleep_between_s attempt rbs
                            next_missing results).
Proof.
  induction rbs as [|rb more IH]; intros next_missing results; cbn [retry_batches].
  - apply stopping_ret.
  - apply stopping_bind; [apply stopping_sleep|]. intros _.
    apply stopping_bind; [apply stopping_request|]. intros [nm res]. apply IH.
Qed.

Lemma stopping_retry_loop fuel :
  forall attempt missing results,
    stopping (retry_loop max_retries retry_batch_size apply_postfixes
                         sleep_between_s fuel attempt missing results).
Proof.
  induction fuel as [|fuel IH]; intros attempt missing results; cbn [retry_loop].
  - intro st. exists []. cbn. rewrite app_nil_r. split; [reflexivity|constructor].
  - destruct missing as [|w ws]; [apply stopping_ret|].
    destruct (attempt <? max_retries)%Z; [|apply stopping_ret].
    apply stopping_bind.
    + apply stopping_bind; [apply stopping_lift|]. intro rbs.
      apply stopping_retry_batches.
    + intros [nm res]. apply IH.
Qed.

Lemma stopping_process_batches batches :
  forall results,
    stopping (process_batches max_retries retry_batch_size apply_postfixes
                              sleep_between_s batches results).
Proof.
  induction batches as [|batch more IH]; intro results; cbn [process_batches].
  - apply stopping_ret.
  - apply stopping_bind; [|intro res; apply IH].
    apply stopping_bind; [apply stopping_request|]. intros [missing res].
    apply stopping_bind; [apply stopping_retry_loop|]. intros [[a m] res'].
    apply stopping_ret.
Qed.

Lemma stopping_generate words batch_size :
  stopping (generate max_retries retry_batch_size apply_postfixes
                     sleep_between_s words batch_size).
Proof.
  apply stopping_bind; [apply stopping_lift|]. intro batches.
  apply stopping_process_batches.
Qed.

(** X18. A failure of the endpoint ends the run: a request whose call
    raises is the last request made, and the run raises that exception;
    nothing is retried after it. *)
Theorem failed_request_ends_the_run
        (words : list str) (batch_size : Z) (st st' : state)
        (r : outcome results_t) (before : list event) (e : event)
        (after : list event) (ex : exn) :
  generate max_retries retry_batch_size apply_postfixes sleep_between_s
           words batch_size st = (st', r) ->
  trace st' = trace st ++ before ++ e :: after ->
  ev_reply e = Raises ex ->
  after = [] /\ r = Raised ex.
Proof.
  intros Hrun Htr Hfail.
  destruct (stopping_generate words batch_size st) as (seg & Hseg & Hstop).
  rewrite Hrun in Hseg, Hstop. cbn [fst snd] in Hseg, Hstop.
  rewrite Htr in Hseg. apply app_inv_head in Hseg. subst seg.
  assert (Hnot : ~ returned e).
  { intros (content & Hc). rewrite Hc in Hfail. discriminate. }
  assert (Hall : ~ Forall returned (before ++ e :: after)).
  { intro Hall. apply Hnot. apply (proj1 (Forall_forall _ _) Hall).
    apply in_or_app. right. left. reflexivity. }
  destruct r as [a|ex'|]; cbn in Hstop; try contradiction.
  destruct Hstop as [Habs|(init & ph & ws & Heq & Hinit)]; [contradiction|].
  destruct (exists_last (l := e :: after) ltac:(discriminate)) as (l & y & Hl).
  rewrite Hl, app_assoc in Heq. apply app_inj_tail in Heq as [Heq1 Heq2].
  destruct after as [|a0 after'].
  - destruct l as [|? [|? ?]]; cbn in Hl; try discriminate.
    injection Hl as ->. subst y. cbn in Hfail. split; [reflexivity|congruence].
  - exfalso. apply Hnot. apply (proj1 (Forall_forall _ _) Hinit).
    rewrite <- Heq1. apply in_or_app. right.
    destruct l as [|x l]; [destruct after'; discriminate|].
    injection Hl as -> _. left. reflexivity.
Qed.

End RunStops.

Lemma failed_request_ends_the_run_witness :
  @nil (@event) = []
  /\ snd (@generate Outage.externals 2 1 true 0%float
                    Example.words 2 Outage.start)
     = Raised TransportError.
Proof.
  apply (@failed_request_ends_the_run Outage.externals 2 1 true 0%float
           Example.words 2 Outage.start
           (fst (@generate Outage.externals 2 1 true 0%float
                           Example.words 2 Outage.start))
           (snd (@generate Outage.externals 2 1 true 0%float
                           Example.words 2 Outage.start))
           [Request Initial [U "comer"; U "beber"]
                    (Returns (Uq "{'word': 'comer', 'definition': 'to eat'}"))]
           (Request (Retry 1) [U "beber"] (Raises TransportError))
           [] TransportError).
  - vm_compute. reflexivity.
  - vm_compute. reflexivity.
  - reflexivity.
Defined.

(** ** The run: how many requests *)

Lemma chunk_list_lengths {A} (xs : list A) (n : Z) (gs : list (list A)) :
  chunk_list xs n = Returns gs ->
  (length gs <= length xs)%nat /\ (length (concat gs) <= length xs)%nat.
Proof.
  intro Hch. destruct (Z.le_gt_cases n 0) as [Hn|Hn].
  - rewrite (chunk_list_nonpositive xs Hn) in Hch.
    destruct (n =? 0)%Z; [discriminate|]. injection Hch as <-. cbn. lia.
  - pose proof (chunk_list_cases xs n) as Hc. rewrite Hch in Hc.
    destruct Hc as (Hall & _ & Hcat). rewrite <- (Hcat ltac:(lia)).
    split; [|lia]. clear - Hall.
    induction Hall as [|g gs' (Hg & _) _ IH]; [cbn; lia|].
    cbn [concat]. rewrite length_app. destruct g; [contradiction|]. cbn. lia.
Qed.

Section RunCount.
Context `{Externals}.
Variable max_retries : Z.
Variable retry_batch_size : Z.
Variable apply_postfixes : bool.
Variable sleep_between_s : float.

Lemma within_ret {A} (P : A -> Prop) (a : A) n : P a -> within n P (ret a).
Proof. intros HP st. cbn. split; [lia|exact HP]. Qed.

Lemma within_bind {A B} n1 n2 (P : A -> Prop) (Q : B -> Prop)
      (c : M A) (k : A -> M B) :
  within n1 P c -> (forall a, P a -> within n2 Q (k a)) ->
  within (n1 + n2) Q (bind c k).
Proof.
  intros Hc Hk st. destruct (Hc st) as [Hn1 HP]. unfold bind.
  destruct (c st) as [st1 [a|ex|]]; cbn [fst snd] in Hn1, HP |- *.
  - destruct (Hk a HP st1) as [Hn2 HQ]. split; [lia|exact HQ].
  - split; [lia|exact I].
  - split; [lia|exact I].
Qed.

Lemma within_weaken {A} n n' (P P' : A -> Prop) (c : M A) :
  within n P c -> (n <= n')%nat -> (forall a, P a -> P' a) -> within n' P' c.
Proof.
  intros Hc Hn HP st. destruct (Hc st) as [Hlen Hr]. split; [lia|].
  destruct (snd (c st)); auto.
Qed.

Lemma reconcile_length (m : dict str) (batch : list str) :
  forall missing results,
    (length (fst (reconcile apply_postfixes m batch missing results))
     <= length missing + length batch)%nat.
Proof.
  induction batch as [|w rest IH]; intros missing results; cbn [reconcile].
  - cbn. lia.
  - destruct (is_blank (dict_get_default m w [])).
    + specialize (IH (missing ++ [w]) results). rewrite length_app in IH.
      cbn [length] in *. lia.
    + specialize (IH missing (dict_set results w
                                (dict_get_default m w [],
                                 cleaned_of apply_postfixes (dict_get_default m w [])))).
      cbn [length]. lia.
Qed.

Lemma within_request ph batch missing results :
  within 1 (fun p => (length (fst p) <= length missing + length batch)%nat)
         (request apply_postfixes ph batch missing results).
Proof.
  intro st. unfold request, bind, dispatch, ret.
  destruct (ollama_chat_stream_collect_content (world st) (join [10%N] batch))
    as [w [content|ex]]; cbn [outcome_of fst snd trace].
  - rewrite length_app. cbn [length]. split; [lia|apply reconcile_length].
  - rewrite length_app. cbn [length]. split; [lia|exact I].
Qed.

Lemma within_sleep :
  within 0 (fun _ => True) (sleep_between sleep_between_s).
Proof.
  intro st. unfold sleep_between. destruct (PrimFloat.eqb sleep_between_s 0).
  - cbn. split; [lia|exact I].
  - destruct (time_sleep (world st) sleep_between_s) as [w r]. cbn.
    split; [lia|]. destruct r; exact I.
Qed.

Lemma within_retry_batches attempt rbs :
  forall next_missing results,
    within (length rbs)
           (fun p => (length (fst p)
                      <= length next_missing + length (concat rbs))%nat)
           (retry_batches apply_postfixes sleep_between_s attempt rbs
                          next_missing results).
Proof.
  induction rbs as [|rb more IH]; intros next_missing results; cbn [retry_batches].
  - apply within_ret. cbn. lia.
  - change (length (rb :: more)) with (0 + (1 + length more))%nat.
    apply within_bind with (P := fun _ => True); [apply within_sleep|]. intros _ _.
    apply within_bind
      with (P := fun p => (length (fst p)
                           <= length next_missing + length rb)%nat);
      [apply within_request|].
    intros [nm res] Hnm. cbn [fst] in Hnm.
    apply (@within_weaken _ _ _ _ _ _ (IH nm res)); [lia|].
    intros p Hp. cbn [concat]. rewrite length_app. lia.
Qed.

Lemma within_retry_round attempt missing results :
  within (length missing)
         (fun p => (length (fst p) <= length missing)%nat)
         (retry_round retry_batch_size apply_postfixes sleep_between_s
                      attempt missing results).
Proof.
  intro st. unfold retry_round, bind, lift.
  destruct (chunk_list missing retry_batch_size) as [rbs|ex] eqn:Hch;
    cbn [outcome_of]; [|cbn; split; [lia|exact I]].
  destruct (chunk_list_lengths _ _ Hch) as [Hn Hc].
  destruct (within_retry_batches attempt rbs [] results st) as [Hlen Hr].
  split; [lia|].
  destruct (snd (retry_batches apply_postfixes sleep_between_s attempt rbs []
                               results st)) as [p|ex|]; try exact I.
  cbn [length] in Hr. lia.
Qed.

Lemma within_retry_loop fuel :
  forall attempt missing results,
    within (Z.to_nat (max_retries - attempt) * length missing)
           (fun p => (length (snd (fst p)) <= length missing)%nat)
           (retry_loop max_retries retry_batch_size apply_postfixes
                       sleep_between_s fuel attempt missing results).
Proof.
  induction fuel as [|fuel IH]; intros attempt missing results; cbn [retry_loop].
  - intro st. cbn [fst snd]. split; [apply Nat.le_add_r|exact I].
  - destruct missing as [|w ws]; [apply within_ret; cbn [fst snd]; lia|].
    destruct (Z.ltb_spec attempt max_retries) as [Hlt|Hge];
      [|apply within_ret; cbn [fst snd]; lia].
    replace (Z.to_nat (max_retries - attempt))
      with (S (Z.to_nat (max_retries - (attempt + 1)))) by lia.
    change (S ?k * ?l)%nat with (l + k * l)%nat.
    apply within_bind
      with (P := fun p => (length (fst p) <= length (w :: ws))%nat);
      [apply within_retry_round|].
    intros [nm res] Hnm. cbn [fst] in Hnm.
    apply (@within_weaken _ _ _ _ _ _ (IH (attempt + 1)%Z nm res)); [nia|].
    intros p Hp. lia.
Qed.

Lemma within_process_batches batches :
  forall results,
    within (length batches + Z.to_nat max_retries * length (concat batches))
           (fun _ => True)
           (process_batches max_retries retry_batch_size apply_postfixes
                            sleep_between_s batches results).
Proof.
  induction batches as [|batch more IH]; intro results; cbn [process_batches].
  - apply within_ret. exact I.
  - apply within_weaken
      with (n := ((1 + (Z.to_nat max_retries * length batch + 0))
                  + (length more + Z.to_nat max_retries * length (concat more)))%nat)
           (P := fun _ : results_t => True);
      [|cbn [length concat]; rewrite length_app; nia|auto].
    apply within_bind with (P := fun _ => True); [|intros res _; apply IH].
    unfold process_batch.
    apply within_bind
      with (P := fun p => (length (fst p) <= length batch)%nat).
    { apply (@within_weaken _ _ _ _ _ _ (within_request Initial batch [] results));
        [lia|]. intros p Hp. cbn [length] in Hp. lia. }
    intros [missing res] Hm. cbn [fst] in Hm.
    apply within_bind with (P := fun _ => True).
    { apply (@within_weaken _ _ _ _ _ _
               (within_retry_loop (S (Z.to_nat max_retries)) 0 missing res)).
      - rewrite Z.sub_0_r. nia.
      - auto. }
    intros [[a m] res'] _. apply within_ret. exact I.
Qed.

(** X19. The run is bounded: it makes at most one request per initial
    batch and, for each of the retry rounds allowed, one request per
    word, whatever the endpoint answers. *)
Theorem requests_are_bounded
        (words : list str) (batch_size : Z) (st st' : state)
        (r : outcome results_t) (batches : list (list str)) :
  chunk_list words batch_size = Returns batches ->
  generate max_retries retry_batch_size apply_postfixes sleep_between_s
           words batch_size st = (st', r) ->
  (length (trace st')
   <= length (trace st) + length batches
      + Z.to_nat max_retries * length words)%nat.
Proof.
  intros Hch Hrun. unfold generate, bind, lift in Hrun. rewrite Hch in Hrun.
  cbn [outcome_of] in Hrun.
  destruct (within_process_batches batches [] st) as [Hlen _].
  rewrite Hrun in Hlen. cbn [fst] in Hlen.
  destruct (chunk_list_lengths _ _ Hch) as [_ Hc]. nia.
Qed.

End RunCount.

Lemma requests_are_bounded_witness :
  (length (trace (fst Example.run))
   <= length (trace Example.start) + 2 + Z.to_nat 2 * length Example.words)%nat.
Proof.
  apply (@requests_are_bounded Example.externals 2 1 true 0%float
           Example.words 2 Example.start (fst Example.run) (snd Example.run)
           [[U "comer"; U "beber"]; [U "vivir"]]).
  - vm_compute. reflexivity.
  - vm_compute. reflexivity.
Defined.

(** ** main: the status and the rows written *)

Section MainMore.
Context `{Externals}.

Lemma build_rows_length (results : results_t) (inputs : list RowIn) :
  length (fst (build_rows results inputs)) = length inputs.
Proof.
  destruct (build_rows_spec results inputs) as [-> _]. apply length_map.
Qed.

(** X20. The statuses of [main]: it returns 0, 1 or 2; 2 exactly when the
    input has no usable row, and then no request has been made and no
    output is written; otherwise the output is written, one row per
    usable input row. *)
Theorem main_status_and_output
        (args : Args) (reader : DictReader) (st st' : state)
        (code : Z) (rows : option (list RowOut)) :
  main args reader st = (st', Ok (code, rows)) ->
  exists inputs,
    read_input_csv reader = Returns inputs
    /\ (code = 2%Z <-> inputs = [])
    /\ (code = 2%Z -> rows = None /\ st' = st)
    /\ (code <> 2%Z ->
        (code = 0%Z \/ code = 1%Z)
        /\ exists out_rows,
            rows = Some out_rows /\ length out_rows = length inputs).
Proof.
  intro Hmain. apply main_inputs in Hmain as (inputs & Hread & Hrun).
  exists inputs. split; [exact Hread|].
  destruct inputs as [|r more].
  - cbn in Hrun. injection Hrun as <- <- <-.
    repeat split; intros; try reflexivity; try contradiction.
  - apply main_rows_nonempty in Hrun as (word_to_defs & _ & -> & ->).
    assert (Hcode : forall b : bool, (if b then 0%Z else 1%Z) <> 2%Z)
      by (intros []; discriminate).
    repeat split; intros; try discriminate;
      try (exfalso; eapply Hcode; eassumption).
    + destruct (snd (build_rows word_to_defs (r :: more)) =? 0)%Z; auto.
    + eexists. split; [reflexivity|apply build_rows_length].
Qed.

(** X21. The cleaned column is computed from the model column: in every
    row written, the cleaned definition is the cleaner applied to the model
    definition of that row, or the model definition itself under
    [--no-clean]. *)
Theorem cleaned_column_follows_model_column
        (args : Args) (reader : DictReader) (st st' : state)
        (code : Z) (out_rows : list RowOut) :
  trace st = [] ->
  main args reader st = (st', Ok (code, Some out_rows)) ->
  Forall (fun o =>
            out_cleaned_definition o
            = cleaned_of (negb (arg_no_clean args)) (out_model_definition o))
         out_rows.
Proof.
  intros Htr Hmain. apply main_inputs in Hmain as (inputs & _ & Hrun).
  destruct inputs as [|r more]; [cbn in Hrun; discriminate|].
  apply main_rows_nonempty in Hrun as (results & Hgen & Hrows & _).
  assert (Heq : out_rows = fst (build_rows results (r :: more))) by congruence.
  pose proof (generate_spec (arg_retries args) (arg_retry_batch args)
                            (negb (arg_no_clean args)) (arg_sleep args)
                            (map in_word (r :: more)) (arg_batch args) st)
    as Hspec.
  apply (@wp_run _ _ _ _ _ _ _ Hspec) in Hgen.
  destruct (chunk_list (map in_word (r :: more)) (arg_batch args))
    as [batches|e]; [|destruct Hgen; discriminate].
  destruct Hgen as (segs & _ & _ & _ & Hg & _).
  assert (Hag : agrees (negb (arg_no_clean args)) (trace st') results).
  { apply (grows_agrees Hg). rewrite Htr. intros w'. cbn.
    intros (e & [] & _). }
  assert (Hempty : cleaned_of (negb (arg_no_clean args)) [] = []).
  { unfold cleaned_of. destruct (negb (arg_no_clean args)); reflexivity. }
  destruct (build_rows_spec results (r :: more)) as [Hfst _].
  rewrite Heq, Hfst. apply Forall_forall. intros o Ho.
  apply in_map_iff in Ho as (r0 & <- & _).
  cbn [out_cleaned_definition out_model_definition].
  specialize (Hag (in_word r0)). unfold dict_get_default.
  destruct (dict_get results (in_word r0)) as [[d c]|]; cbn [fst snd].
  - cbn in Hag. destruct Hag as [(_ & -> & _)|(-> & -> & _)];
      [reflexivity|symmetry; exact Hempty].
  - symmetry. exact Hempty.
Qed.

(** X22. Rows of the same word get the same definitions: two rows written
    for one word carry the same model definition and the same cleaned
    definition, whatever their Duolingo definitions are. *)
Theorem repeated_words_share_definitions
        (args : Args) (reader : DictReader) (st st' : state)
        (code : Z) (out_rows : list RowOut) (o1 o2 : RowOut) :
  main args reader st = (st', Ok (code, Some out_rows)) ->
  In o1 out_rows -> In o2 out_rows ->
  out_word o1 = out_word o2 ->
  out_model_definition o1 = out_model_definition o2
  /\ out_cleaned_definition o1 = out_cleaned_definition o2.
Proof.
  intros Hmain H1 H2 Hw. apply main_inputs in Hmain as (inputs & _ & Hrun).
  destruct inputs as [|r more]; [cbn in Hrun; discriminate|].
  apply main_rows_nonempty in Hrun as (results & _ & Hrows & _).
  assert (Heq : out_rows = fst (build_rows results (r :: more))) by congruence.
  destruct (build_rows_spec results (r :: more)) as [Hfst _].
  rewrite Heq, Hfst in H1, H2.
  apply in_map_iff in H1 as (r1 & <- & _). apply in_map_iff in H2 as (r2 & <- & _).
  cbn [out_word out_model_definition out_cleaned_definition] in *.
  rewrite Hw. split; reflexivity.
Qed.

End MainMore.

Lemma main_status_and_output_witness :
  exists inputs,
    read_input_csv Example.reader = Returns inputs
    /\ (1%Z = 2%Z <-> inputs = [])
    /\ (1%Z = 2%Z ->
        Some [ mkRowOut (U "comer") (U "to eat") (U "to eat") (U "to eat");
               mkRowOut (U "beber") (U "to drink") [] [];
               mkRowOut (U "vivir") (U "to live") [] [] ] = None
        /\ fst Example.main_run = Example.start)
    /\ (1%Z <> 2%Z ->
        (1%Z = 0%Z \/ 1%Z = 1%Z)
        /\ exists out_rows,
            Some [ mkRowOut (U "comer") (U "to eat") (U "to eat") (U "to eat");
                   mkRowOut (U "beber") (U "to drink") [] [];
                   mkRowOut (U "vivir") (U "to live") [] [] ] = Some out_rows
            /\ length out_rows = length inputs).
Proof.
  apply (@main_status_and_output Example.externals Example.args
           Example.reader Example.start).
  vm_compute. reflexivity.
Defined.

Lemma cleaned_column_follows_model_column_witness :
  Forall (fun o =>
            out_cleaned_definition o
            = @cleaned_of Example.externals (negb (arg_no_clean Example.args))
                          (out_model_definition o))
         [ mkRowOut (U "comer") (U "to eat") (U "to eat") (U "to eat");
           mkRowOut (U "beber") (U "to drink") [] [];
           mkRowOut (U "vivir") (U "to live") [] [] ].
Proof.
  apply (@cleaned_column_follows_model_column Example.externals Example.args
           Example.reader Example.start (fst Example.main_run) 1%Z).
  - reflexivity.
  - vm_compute. reflexivity.
Defined.

Lemma repeated_words_share_definitions_witness :
  out_model_definition (mkRowOut (U "comer") (U "to eat") (U "to eat") (U "to eat"))
  = out_model_definition (mkRowOut (U "comer") (U "eating") (U "to eat") (U "to eat"))
  /\ out_cleaned_definition
       (mkRowOut (U "comer") (U "to eat") (U "to eat") (U "to eat"))
     = out_cleaned_definition
         (mkRowOut (U "comer") (U "eating") (U "to eat") (U "to eat")).
Proof.
  apply (@repeated_words_share_definitions Example.externals Example.args
           (mkDictReader
              (Some [U "word"; U "definition"])
              [ [(U "word", Some (U "comer")); (U "definition", Some (U "to eat"))];
                [(U "word", Some (U "comer")); (U "definition", Some (U "eating"))] ]
              None)
           Example.start
           (@State Example.externals 1%nat
              [Request Initial [U "comer"; U "comer"]
                       (Returns (Uq "{'word': 'comer', 'definition': 'to eat'}"))])
           0%Z
           [ mkRowOut (U "comer") (U "to eat") (U "to eat") (U "to eat");
             mkRowOut (U "comer") (U "eating") (U "to eat") (U "to eat") ]).
  - vm_compute. reflexivity.
  - left. reflexivity.
  - right. left. reflexivity.
  - reflexivity.
Defined.

(** ** The cleaner and the subject prefix *)

Section PrefixFacts.
Context `{Externals}.

Lemma drop_while_keeps f (l : char) (q t : str) :
  f l = false -> exists t', drop_while f (t ++ l :: q) = t' ++ l :: q.
Proof.
  intro Hl. induction t as [|c t IH]; cbn.
  - rewrite Hl. exists []. reflexivity.
  - destruct (f c); [exact IH|]. exists (c :: t). reflexivity.
Qed.

Lemma strip_by_keeps f (h l : char) (q t : str) :
  f h = false -> f l = false ->
  exists t', strip_by f (h :: q ++ l :: t) = h :: q ++ l :: t'.
Proof.
  intros Hh Hl. unfold strip_by. cbn [drop_while]. rewrite Hh.
  cbn [rev]. rewrite rev_app_distr. cbn [rev]. rewrite <- !app_assoc.
  cbn [app].
  destruct (@drop_while_keeps f l (rev q ++ [h]) (rev t) Hl) as (t' & ->).
  exists (rev t'). rewrite rev_app_distr. cbn [rev].
  rewrite !rev_app_distr, rev_involutive. cbn. rewrite <- app_assoc. reflexivity.
Qed.

Lemma subject_head_app (a x : str) :
  (U "(" ++ a ++ U ")") ++ x = 40%N :: a ++ 41%N :: x.
Proof. cbn. rewrite <- app_assoc. reflexivity. Qed.

Lemma sub_oneself_subject (a s : str) :
  In a SUBJECTS ->
  sub_oneself 0 None ((U "(" ++ a ++ U ")") ++ s)
  = (U "(" ++ a ++ U ")") ++ sub_oneself 0 (Some 41%N) s.
Proof.
  intros [<-|[<-|[<-|[<-|[<-|[]]]]]]; reflexivity.
Qed.

Lemma sub_oneself_space prev (w : char) (s : str) :
  isspace w = true ->
  sub_oneself 0 prev (w :: s) = w :: sub_oneself 0 (Some w) s.
Proof.
  intro Hw. cbn [sub_oneself]. unfold oneself_here.
  change (starts_with_ignorecase (U "oneself") (w :: s))
    with (matches_ignorecase 111%N w
          && starts_with_ignorecase (U "neself") s).
  assert (Hno : matches_ignorecase 111%N w = false).
  { unfold matches_ignorecase. cbn [N.eqb andb orb].
    destruct (N.eqb_spec w 111%N) as [->|_]; [discriminate|].
    destruct (N.eqb_spec w (111 - 32)%N) as [->|_]; [discriminate|]. reflexivity. }
  rewrite Hno. reflexivity.
Qed.

Lemma subject_prefix_end_subject (a : str) (w : char) (s : str) :
  In a SUBJECTS ->
  subject_prefix_end SUBJECTS ((U "(" ++ a ++ U ")") ++ w :: s)
  = match length (take_while isspace (w :: s)) with
    | O => None
    | S k => Some (length (U "(" ++ a ++ U ")") + S k)
    end.
Proof.
  intros [<-|[<-|[<-|[<-|[<-|[]]]]]]; reflexivity.
Qed.

Lemma strip_by_subject f (a t : str) :
  f 40%N = false -> f 41%N = false ->
  exists t', strip_by f ((U "(" ++ a ++ U ")") ++ t) = (U "(" ++ a ++ U ")") ++ t'.
Proof.
  intros H40 H41.
  destruct (@strip_by_keeps f 40%N 41%N a t H40 H41) as (t' & Ht').
  exists t'. rewrite !subject_head_app. exact Ht'.
Qed.

(** X23. An allowed subject marker survives the cleaning: a definition
    that begins with "(SUBJECT)" for one of the five allowed subjects,
    followed by whitespace, is cleaned to a string that begins with the
    same "(SUBJECT)", whatever follows and whether "(it)" is kept or
    not. *)
Theorem post_fix_definition_keeps_subject_prefix
        (keep : bool) (subject : str) (w : char) (rest : str) :
  In subject SUBJECTS ->
  isspace w = true ->
  exists t,
    post_fix_definition_with keep ((U "(" ++ subject ++ U ")") ++ w :: rest)
    = (U "(" ++ subject ++ U ")") ++ t.
Proof.
  intros Hin Hw. unfold post_fix_definition_with.
  rewrite (@sub_oneself_subject subject (w :: rest) Hin).
  rewrite (@sub_oneself_space (Some 41%N) w rest Hw).
  rewrite (@subject_prefix_end_subject subject w _ Hin).
  cbn [take_while]. rewrite Hw. cbn [length].
  rewrite firstn_app_2, skipn_app.
  set (p := firstn _ (w :: _)). set (r := skipn _ (_ ++ _) ++ skipn _ _).
  cbv zeta.
  match goal with
  | |- context [strip ((_ ++ p) ++ ?x)] => set (R := x)
  end.
  rewrite <- app_assoc. unfold strip.
  destruct (@strip_by_subject isspace subject (p ++ R) eq_refl eq_refl)
    as (t1 & ->).
  rewrite (@sub_spaces_marker subject _ Hin).
  destruct (@strip_by_subject isspace subject (sub_spaces false t1)
                              eq_refl eq_refl) as (t2 & ->).
  rewrite (@sub_space_punct_marker subject _ Hin).
  destruct (@strip_by_subject is_space_or_hyphen subject (sub_space_punct [] t2)
                              eq_refl eq_refl) as (t3 & ->).
  exists t3. reflexivity.
Qed.

End PrefixFacts.

Lemma post_fix_definition_keeps_subject_prefix_witness :
  exists t,
    @post_fix_definition_with Example.externals true
      ((U "(" ++ U "he / she / it" ++ U ")") ++ 32%N :: U " eats  (food) .")
    = (U "(" ++ U "he / she / it" ++ U ")") ++ t.
Proof.
  apply (@post_fix_definition_keeps_subject_prefix Example.externals true
           (U "he / she / it") 32%N (U " eats  (food) .")).
  - vm_compute. right. right. left. reflexivity.
  - reflexivity.
Defined.
